(** * RGFN: the batched dispatch, rollout and loss core

    A shallow embedding of the parts of the RGFN repository that carry the
    index bookkeeping of GFlowNet training:

    - [rgfn/utils/helpers.py]: [to_indices] and [ContentHeap];
    - [rgfn/gfns/reaction_gfn/api/data_structures.py]: [Cache];
    - [rgfn/api/reward.py]: [Reward];
    - [rgfn/shared/policies/few_phase_policy.py]: [FewPhasePolicyBase];
    - [rgfn/api/sampler_base.py]: [SamplerBase];
    - [rgfn/shared/objectives/conditioned_trajectory_balance_objective.py].

    Python exceptions are values of [exn] carried by the [result] monad;
    1-D tensors are lists; insertion-ordered dicts are association lists. *)

From stdpp Require Import base list gmap sets strings.
From Stdlib Require Import ZArith Lia.
From Equations Require Import Equations.

Open Scope Z_scope.

(** ** Exceptions and the [result] monad *)

Inductive exn : Set :=
  | IndexError
  | KeyError
  | ValueError
  | AssertionError
  | AttributeError
  | RuntimeError.

Inductive result (A : Type) : Type :=
  | Ok (a : A)
  | Raise (e : exn).
Arguments Ok {A} a.
Arguments Raise {A} e.

#[global] Instance result_ret : MRet result := fun A a => Ok a.
#[global] Instance result_bind : MBind result := fun A B f m =>
  match m with
  | Ok a => f a
  | Raise e => Raise e
  end.
#[global] Instance result_fmap : FMap result := fun A B f m =>
  match m with
  | Ok a => Ok (f a)
  | Raise e => Raise e
  end.

Definition is_Ok {A} (m : result A) : Prop := exists a, m = Ok a.
Definition is_Raise {A} (m : result A) : Prop := exists e, m = Raise e.

(** Python's [l[i]] on a list, for a non-negative [i]. *)
Definition py_index {A} (l : list A) (i : nat) : result A :=
  match l !! i with
  | Some x => Ok x
  | None => Raise IndexError
  end.

(** Python's [l[i] = x] on a list: no growth, [IndexError] out of range. *)
Definition py_setitem {A} (l : list A) (i : nat) (x : A) : result (list A) :=
  if decide (i < length l)%nat then Ok (<[i:=x]> l) else Raise IndexError.

(** [enumerate(l)] *)
Definition enumerate {A} (l : list A) : list (nat * A) :=
  zip (seq 0 (length l)) l.

(** [[f(x) for x in l]] where [f] may raise: the first exception wins. *)
Fixpoint mapM {A B} (f : A -> result B) (l : list A) : result (list B) :=
  match l with
  | [] => Ok []
  | x :: l' => y ← f x; ys ← mapM f l'; Ok (y :: ys)
  end.

Lemma py_index_lt {A} (l : list A) (i : nat) :
  (i < length l)%nat -> exists x, l !! i = Some x /\ py_index l i = Ok x.
Proof.
  intros Hi. destruct (lookup_lt_is_Some_2 l i Hi) as [x Hx].
  exists x. unfold py_index. by rewrite Hx.
Qed.

Lemma py_setitem_lt {A} (l : list A) (i : nat) (x : A) :
  (i < length l)%nat -> py_setitem l i x = Ok (<[i:=x]> l).
Proof. intros Hi. unfold py_setitem. by rewrite decide_True. Qed.

Lemma py_index_Ok {A} (l : list A) (i : nat) (x : A) :
  py_index l i = Ok x <-> l !! i = Some x.
Proof.
  unfold py_index. destruct (l !! i); split; intros Heq; congruence.
Qed.

Lemma mapM_exists {A B} (f : A -> result B) (l : list A) :
  (forall i x, l !! i = Some x -> is_Ok (f x)) ->
  exists ys,
    mapM f l = Ok ys
    /\ length ys = length l
    /\ forall i x, l !! i = Some x -> exists y, ys !! i = Some y /\ f x = Ok y.
Proof.
  induction l as [|x l IH]; intros Hf; simpl.
  - exists []. repeat split. by intros i x.
  - destruct (Hf 0%nat x eq_refl) as [y Hy].
    destruct IH as (ys & Hys & Hlen & Hlook).
    { intros i x' Hi. by apply (Hf (S i)). }
    rewrite Hy. simpl. rewrite Hys. simpl.
    exists (y :: ys). repeat split; [simpl; lia|].
    intros [|i] x' Hi; simpl in *; [|by apply Hlook].
    injection Hi as <-. by exists y.
Qed.

(** ** [rgfn/utils/helpers.py]: [to_indices] *)

Module Helpers.

(** [torch.arange(n)] *)
Definition arange (n : nat) : list nat := seq 0 n.

(** [torch.repeat_interleave(input, repeats)] on 1-D tensors of equal
    length: entry [k] of [input] is repeated [repeats[k]] times; torch
    raises when a repeat count is negative or the sizes differ. *)
Fixpoint repeat_interleave (input : list nat) (repeats : list Z)
  : result (list nat) :=
  match input, repeats with
  | [], [] => Ok []
  | x :: input', c :: repeats' =>
      if decide (c < 0) then Raise RuntimeError
      else rest ← repeat_interleave input' repeats';
           Ok (replicate (Z.to_nat c) x ++ rest)
  | _, _ => Raise RuntimeError
  end.

(** [to_indices(counts)] *)
Definition to_indices (counts : list Z) : result (list nat) :=
  let indices := arange (length counts) in
  repeat_interleave indices counts.

(** [sum(counts[:i])] *)
Definition prefix_sum (counts : list Z) (i : nat) : Z :=
  foldr Z.add 0 (take i counts).

(** Regrouping a flat stream by an index tensor: slot [t] of the result
    collects, in stream order, the entries whose index is [t]. *)
Definition select_group {A} (index : list nat) (flat : list A) (t : nat)
  : list A :=
  snd <$> filter (fun p => p.1 = t) (zip index flat).

Definition group_by_index {A} (n : nat) (index : list nat) (flat : list A)
  : list (list A) :=
  select_group index flat <$> seq 0 n.

(** The closed form of [to_indices]: value [k + i] repeated [counts[i]]
    times, in order. *)
Fixpoint repeat_from (k : nat) (counts : list Z) : list nat :=
  match counts with
  | [] => []
  | c :: counts' => replicate (Z.to_nat c) k ++ repeat_from (S k) counts'
  end.

Lemma repeat_interleave_seq (counts : list Z) (k : nat) :
  Forall (fun c => 0 <= c) counts ->
  repeat_interleave (seq k (length counts)) counts = Ok (repeat_from k counts).
Proof.
  intros Hnn. revert k.
  induction Hnn as [|c counts Hc _ IH]; intros k; simpl; [done|].
  destruct (decide (c < 0)) as [Hneg|_]; [lia|].
  by rewrite IH.
Qed.

Lemma repeat_interleave_negative (input : list nat) (counts : list Z) :
  Exists (fun c => c < 0) counts ->
  is_Raise (repeat_interleave input counts).
Proof.
  intros Hex. revert input.
  induction Hex as [c counts Hc|c counts _ IH]; intros [|x input]; simpl;
    try by eexists.
  - destruct (decide (c < 0)); [by eexists|lia].
  - destruct (decide (c < 0)); [by eexists|].
    destruct (IH input) as [e ->]. by eexists.
Qed.

Lemma repeat_from_length (counts : list Z) (k : nat) :
  Forall (fun c => 0 <= c) counts ->
  Z.of_nat (length (repeat_from k counts)) = foldr Z.add 0 counts.
Proof.
  intros Hnn. revert k.
  induction Hnn as [|c counts Hc _ IH]; intros k; simpl; [done|].
  rewrite length_app, length_replicate, Nat2Z.inj_add, IH. lia.
Qed.

Lemma repeat_from_bounds (counts : list Z) (k i : nat) :
  i ∈ repeat_from k counts -> (k <= i < k + length counts)%nat.
Proof.
  revert k. induction counts as [|c counts IH]; intros k; simpl.
  - by intros ?%elem_of_nil.
  - intros [Hin|Hin]%elem_of_app.
    + apply elem_of_replicate in Hin as [-> _]. lia.
    + apply IH in Hin. lia.
Qed.

Lemma prefix_sum_cons (c : Z) (counts : list Z) (i : nat) :
  prefix_sum (c :: counts) (S i) = c + prefix_sum counts i.
Proof. reflexivity. Qed.

Lemma prefix_sum_mono (counts : list Z) (i : nat) :
  Forall (fun c => 0 <= c) counts ->
  0 <= prefix_sum counts i <= prefix_sum counts (S i).
Proof.
  intros Hnn. revert i.
  induction Hnn as [|c counts Hc _ IH]; intros i.
  - unfold prefix_sum. by rewrite !take_nil.
  - destruct i as [|i].
    + unfold prefix_sum. simpl. lia.
    + rewrite !prefix_sum_cons. specialize (IH i). lia.
Qed.

Lemma repeat_from_lookup (counts : list Z) (k j i : nat) :
  Forall (fun c => 0 <= c) counts ->
  repeat_from k counts !! j = Some (k + i)%nat <->
  prefix_sum counts i <= Z.of_nat j < prefix_sum counts (S i).
Proof.
  intros Hnn. revert k j i.
  induction Hnn as [|c counts Hc Hnn IH]; intros k j i; simpl.
  - unfold prefix_sum. rewrite !take_nil. simpl. split; [done|lia].
  - destruct (decide (j < Z.to_nat c)%nat) as [Hlt|Hge].
    + rewrite lookup_app_l by (by rewrite length_replicate).
      rewrite lookup_replicate_2 by done.
      destruct i as [|i].
      * unfold prefix_sum. simpl.
        split; [lia|]. intros _. f_equal. lia.
      * rewrite !prefix_sum_cons.
        pose proof (prefix_sum_mono counts i Hnn).
        split; [intros [=]; lia|lia].
    + rewrite lookup_app_r by (rewrite length_replicate; lia).
      rewrite length_replicate.
      destruct i as [|i].
      * unfold prefix_sum. simpl.
        split; [|lia].
        intros Hin%list_elem_of_lookup_2%repeat_from_bounds. lia.
      * replace (k + S i)%nat with (S k + i)%nat by lia.
        rewrite IH, !prefix_sum_cons. lia.
Qed.

Lemma select_group_app {A} (i1 i2 : list nat) (f1 f2 : list A) (t : nat) :
  length i1 = length f1 ->
  select_group (i1 ++ i2) (f1 ++ f2) t
  = select_group i1 f1 t ++ select_group i2 f2 t.
Proof.
  intros Hlen. unfold select_group.
  rewrite zip_with_app by done. by rewrite filter_app, fmap_app.
Qed.

Lemma select_group_replicate_eq {A} (p : list A) (t : nat) :
  select_group (replicate (length p) t) p t = p.
Proof.
  unfold select_group. induction p as [|x p IH]; simpl; [done|].
  rewrite filter_cons_True by done. simpl. by f_equal.
Qed.

Lemma select_group_absent {A} (index : list nat) (flat : list A) (t : nat) :
  t ∉ index -> select_group index flat t = [].
Proof.
  unfold select_group. revert flat.
  induction index as [|i index IH]; intros [|x flat] Hnin; simpl; try done.
  apply not_elem_of_cons in Hnin as [Hne Hnin].
  rewrite filter_cons_False by (simpl; congruence). by apply IH.
Qed.

Lemma group_repeat_from {A} (parts : list (list A)) (k : nat) :
  select_group
    (repeat_from k ((fun p => Z.of_nat (length p)) <$> parts))
    (concat parts) <$> seq k (length parts)
  = parts.
Proof.
  revert k. induction parts as [|p parts IH]; intros k; simpl; [done|].
  rewrite Nat2Z.id. f_equal.
  - rewrite select_group_app by (by rewrite length_replicate).
    rewrite select_group_replicate_eq.
    rewrite select_group_absent; [by rewrite app_nil_r|].
    intros Hin%repeat_from_bounds. lia.
  - etrans; [|apply (IH (S k))].
    apply list_fmap_ext. intros i t Ht.
    apply lookup_seq in Ht as [-> _].
    rewrite select_group_app by (by rewrite length_replicate).
    rewrite (select_group_absent (replicate _ _)); [done|].
    intros [? _]%elem_of_replicate. lia.
Qed.

(** C5. For a tensor of non-negative counts, [to_indices] returns an index
    tensor of length [sum(counts)] whose [j]-th entry is the unique [i] with
    [sum(counts[:i]) <= j < sum(counts[:i+1])]; regrouping the flattened
    stream of any partition with these part sizes by that tensor gives the
    partition back, order within each part preserved. *)
Theorem to_indices_spec (counts : list Z) :
  Forall (fun c => 0 <= c) counts ->
  exists index,
    to_indices counts = Ok index
    /\ Z.of_nat (length index) = foldr Z.add 0 counts
    /\ (forall j i : nat,
          index !! j = Some i <->
          prefix_sum counts i <= Z.of_nat j < prefix_sum counts (S i))
    /\ (forall (A : Type) (parts : list (list A)),
          (fun p => Z.of_nat (length p)) <$> parts = counts ->
          group_by_index (length parts) index (concat parts) = parts).
Proof.
  intros Hnn. exists (repeat_from 0 counts).
  split; [|split; [|split]].
  - apply repeat_interleave_seq, Hnn.
  - by apply repeat_from_length.
  - intros j i. by apply (repeat_from_lookup counts 0 j i).
  - intros A parts <-. apply group_repeat_from.
Qed.

Lemma to_indices_spec_witness :
  exists index,
    to_indices [2; 0; 3] = Ok index
    /\ Z.of_nat (length index) = foldr Z.add 0 [2; 0; 3]
    /\ (forall j i : nat,
          index !! j = Some i <->
          prefix_sum [2; 0; 3] i <= Z.of_nat j < prefix_sum [2; 0; 3] (S i))
    /\ (forall (A : Type) (parts : list (list A)),
          (fun p => Z.of_nat (length p)) <$> parts = [2; 0; 3] ->
          group_by_index (length parts) index (concat parts) = parts).
Proof.
  apply (to_indices_spec [2; 0; 3]).
  repeat constructor; lia.
Defined.

Example to_indices_example : to_indices [2; 0; 3] = Ok [0; 0; 2; 2; 2]%nat.
Proof. reflexivity. Qed.

Example to_indices_negative : to_indices [1; -1] = Raise RuntimeError.
Proof. reflexivity. Qed.

(** *** [heapq] on a Python list, as [ContentHeap] uses it *)

#[local] Arguments Nat.div : simpl never.

Section Heapq.
Context {E : Type} (lt : E -> E -> bool).

(** The [while pos > startpos] loop of [heapq._siftdown]. *)
Equations? _siftdown_loop (heap : list E) (startpos pos : nat) (newitem : E)
  : result (list E) by wf pos Nat.lt :=
  _siftdown_loop heap startpos pos newitem with decide (startpos < pos)%nat => {
    | right _ := py_setitem heap pos newitem
    | left Hlt with heap !! ((pos - 1) / 2)%nat => {
        | None := Raise IndexError
        | Some parent with lt newitem parent => {
            | true := heap' ← py_setitem heap pos parent;
                      _siftdown_loop heap' startpos ((pos - 1) / 2)%nat newitem
            | false := py_setitem heap pos newitem } } }.
Proof.
  change ((pos - 1) / 2 < pos)%nat.
  apply Nat.Div0.div_lt_upper_bound. lia.
Qed.

Definition _siftdown (heap : list E) (startpos pos : nat) : result (list E) :=
  newitem ← py_index heap pos;
  _siftdown_loop heap startpos pos newitem.

(** The smaller child of [pos]: the right one unless the left one is
    smaller ([rightpos < endpos and not heap[childpos] < heap[rightpos]]). *)
Definition smaller_child (heap : list E) (endpos pos : nat) : nat :=
  let childpos := (2 * pos + 1)%nat in
  let rightpos := (childpos + 1)%nat in
  if decide (rightpos < endpos)%nat then
    match heap !! childpos, heap !! rightpos with
    | Some c, Some r => if lt c r then childpos else rightpos
    | _, _ => childpos
    end
  else childpos.

(** The [while childpos < endpos] loop of [heapq._siftup]: bubbles the
    smaller child up until a leaf is hit; returns the heap and the leaf. *)
Equations? _siftup_loop (heap : list E) (endpos pos : nat)
  : result (list E * nat) by wf (endpos - pos)%nat Nat.lt :=
  _siftup_loop heap endpos pos with decide (2 * pos + 1 < endpos)%nat => {
    | right _ := Ok (heap, pos)
    | left Hlt :=
        c ← py_index heap (smaller_child heap endpos pos);
        heap' ← py_setitem heap pos c;
        _siftup_loop heap' endpos (smaller_child heap endpos pos) }.
Proof.
  unfold smaller_child. unfold Nat.lt.
  repeat case_match; lia.
Qed.

Definition _siftup (heap : list E) (pos : nat) : result (list E) :=
  let endpos := length heap in
  let startpos := pos in
  newitem ← py_index heap pos;
  '(heap1, pos1) ← _siftup_loop heap endpos pos;
  heap2 ← py_setitem heap1 pos1 newitem;
  _siftdown heap2 startpos pos1.

Definition heappush (heap : list E) (item : E) : result (list E) :=
  let heap1 := heap ++ [item] in
  _siftdown heap1 0 (length heap1 - 1).

(** Returns the popped entry and the new heap. *)
Definition heappushpop (heap : list E) (item : E) : result (E * list E) :=
  match heap with
  | h0 :: _ =>
      if lt h0 item then
        heap1 ← _siftup (<[0%nat := item]> heap) 0;
        Ok (h0, heap1)
      else Ok (item, heap)
  | [] => Ok (item, heap)
  end.

(** Moving the hole: writing [b = l[j]] at [i] and then [a] at [j] only
    permutes the list that has [a] at [i]. *)
Lemma insert_cons_swap {A} (l : list A) (j : nat) (a b : A) :
  l !! j = Some b -> a :: l ≡ₚ b :: <[j:=a]> l.
Proof.
  revert j. induction l as [|y l IH]; intros [|j] Hj; simplify_eq/=.
  - apply perm_swap.
  - etrans; [apply perm_swap|]. etrans; [|apply perm_swap].
    f_equiv. by apply IH.
Qed.

Lemma insert_move_hole {A} (l : list A) (i j : nat) (a b : A) :
  i <> j -> (i < length l)%nat -> l !! j = Some b ->
  <[j:=a]> (<[i:=b]> l) ≡ₚ <[i:=a]> l.
Proof.
  revert i j. induction l as [|y l IH]; intros [|i] [|j] Hne Hi Hj;
    simplify_eq/=; try lia.
  - symmetry. by apply insert_cons_swap.
  - etrans; [apply (insert_cons_swap _ i a b)|].
    + apply list_lookup_insert_eq. lia.
    + by rewrite list_insert_insert_eq.
  - f_equiv. apply IH; [lia|lia|done].
Qed.

Lemma _siftdown_loop_perm (heap : list E) (startpos pos : nat) (newitem : E) :
  (pos < length heap)%nat ->
  exists heap',
    _siftdown_loop heap startpos pos newitem = Ok heap'
    /\ heap' ≡ₚ <[pos:=newitem]> heap.
Proof.
  revert heap. induction (lt_wf pos) as [pos _ IH]. intros heap Hpos.
  simp _siftdown_loop.
  destruct (decide (startpos < pos)%nat) as [Hlt|Hge]; simpl.
  - assert ((pos - 1) / 2 < pos)%nat as Hparent
      by (apply Nat.Div0.div_lt_upper_bound; lia).
    destruct (lookup_lt_is_Some_2 heap ((pos - 1) / 2)) as [parent Hp];
      [lia|].
    rewrite Hp. simpl. destruct (lt newitem parent); simpl.
    + rewrite py_setitem_lt by done. simpl.
      destruct (IH _ Hparent (<[pos:=parent]> heap)) as (heap' & -> & Hperm).
      { rewrite length_insert. lia. }
      exists heap'. split; [done|]. rewrite Hperm.
      apply insert_move_hole; [lia|done|done].
    + rewrite py_setitem_lt by done. by eexists.
  - rewrite py_setitem_lt by done. by eexists.
Qed.

Lemma _siftdown_perm (heap : list E) (startpos pos : nat) :
  (pos < length heap)%nat ->
  exists heap', _siftdown heap startpos pos = Ok heap' /\ heap' ≡ₚ heap.
Proof.
  intros Hpos. unfold _siftdown.
  destruct (py_index_lt heap pos Hpos) as (x & Hx & ->). simpl.
  destruct (_siftdown_loop_perm heap startpos pos x Hpos)
    as (heap' & -> & Hperm).
  exists heap'. split; [done|]. by rewrite Hperm, list_insert_id.
Qed.

Lemma smaller_child_bounds (heap : list E) (endpos pos : nat) :
  (2 * pos + 1 < endpos)%nat ->
  (pos < smaller_child heap endpos pos < endpos)%nat.
Proof. intros Hlt. unfold smaller_child. repeat case_match; lia. Qed.

Lemma _siftup_loop_perm (heap : list E) (pos : nat) :
  (pos < length heap)%nat ->
  exists heap1 pos1,
    _siftup_loop heap (length heap) pos = Ok (heap1, pos1)
    /\ (pos1 < length heap1)%nat
    /\ forall x, <[pos1:=x]> heap1 ≡ₚ <[pos:=x]> heap.
Proof.
  remember (length heap - pos)%nat as m eqn:Hm.
  revert heap pos Hm. induction (lt_wf m) as [m _ IH].
  intros heap pos -> Hpos. simp _siftup_loop.
  destruct (decide (2 * pos + 1 < length heap)%nat) as [Hlt|Hge]; simpl.
  - pose proof (smaller_child_bounds heap (length heap) pos Hlt) as Hc.
    set (cp := smaller_child heap (length heap) pos) in *.
    destruct (py_index_lt heap cp) as (c & Hlook & ->); [lia|]. simpl.
    rewrite py_setitem_lt by done. simpl.
    destruct (IH (length heap - cp)%nat ltac:(lia) (<[pos:=c]> heap) cp)
      as (heap1 & pos1 & Hloop & Hpos1 & Hperm).
    { by rewrite length_insert. }
    { rewrite length_insert. lia. }
    rewrite length_insert in Hloop. rewrite Hloop.
    exists heap1, pos1. split; [done|]. split; [done|].
    intros x. rewrite Hperm. apply insert_move_hole; [lia|done|done].
  - exists heap, pos. by repeat split.
Qed.

Lemma _siftup_perm (heap : list E) (pos : nat) :
  (pos < length heap)%nat ->
  exists heap', _siftup heap pos = Ok heap' /\ heap' ≡ₚ heap.
Proof.
  intros Hpos. unfold _siftup.
  destruct (py_index_lt heap pos Hpos) as (x & Hx & ->). simpl.
  destruct (_siftup_loop_perm heap pos Hpos)
    as (heap1 & pos1 & -> & Hpos1 & Hperm). simpl.
  rewrite py_setitem_lt by done. simpl.
  destruct (_siftdown_perm (<[pos1:=x]> heap1) pos pos1)
    as (heap' & -> & Hperm').
  { by rewrite length_insert. }
  exists heap'. split; [done|].
  by rewrite Hperm', Hperm, list_insert_id.
Qed.

Lemma heappush_perm (heap : list E) (item : E) :
  exists heap', heappush heap item = Ok heap' /\ heap' ≡ₚ item :: heap.
Proof.
  unfold heappush.
  destruct (_siftdown_perm (heap ++ [item]) 0 (length (heap ++ [item]) - 1))
    as (heap' & -> & Hperm).
  { rewrite length_app. simpl. lia. }
  exists heap'. split; [done|].
  by rewrite Hperm, Permutation_app_comm.
Qed.

Lemma heappushpop_perm (heap : list E) (item : E) :
  exists t heap',
    heappushpop heap item = Ok (t, heap')
    /\ t :: heap' ≡ₚ item :: heap
    /\ length heap' = length heap.
Proof.
  unfold heappushpop. destruct heap as [|h0 heap]; [by eexists _, _|].
  destruct (lt h0 item); [|by eexists _, _].
  destruct (_siftup_perm (<[0%nat:=item]> (h0 :: heap)) 0)
    as (heap' & -> & Hperm); [simpl; lia|].
  exists h0, heap'. split; [done|]. simpl in Hperm.
  split; [by rewrite Hperm, perm_swap|].
  by rewrite Hperm.
Qed.

End Heapq.

(** *** [ComparableTuple] and [ContentHeap] *)

Section ContentHeap.
Context {Item : Type} `{Countable Item}.
(** [value : float] with its [<]; no law of the order is assumed, so a
    NaN value, which compares false with everything, is covered. *)
Context {Val : Type} (val_lt : Val -> Val -> bool).

Record ComparableTuple : Type := {
  value : Val;
  item : Item
}.

Definition __lt__ (self other : ComparableTuple) : bool :=
  val_lt (value self) (value other).

Record ContentHeap : Type := {
  max_size : Z;
  heap : list ComparableTuple;
  items : gset Item
}.

Definition ContentHeap_init (max_size : Z) : ContentHeap :=
  {| max_size := max_size; heap := []; items := ∅ |}.

Definition ContentHeap_len (self : ContentHeap) : nat := length (heap self).

(** [set.remove(x)]: raises [KeyError] when [x] is not a member. *)
Definition set_remove (s : gset Item) (x : Item) : result (gset Item) :=
  if decide (x ∈ s) then Ok (s ∖ {[x]}) else Raise KeyError.

Definition push (self : ContentHeap) (new_value : Val) (new_item : Item)
  : result ContentHeap :=
  if decide (new_item ∈ items self) then Ok self
  else
    let items1 := {[new_item]} ∪ items self in
    let entry := {| value := new_value; item := new_item |} in
    if decide (Z.of_nat (length (heap self)) < max_size self) then
      heap1 ← heappush __lt__ (heap self) entry;
      Ok {| max_size := max_size self; heap := heap1; items := items1 |}
    else
      '(t, heap1) ← heappushpop __lt__ (heap self) entry;
      items2 ← set_remove items1 (item t);
      Ok {| max_size := max_size self; heap := heap1; items := items2 |}.

Fixpoint push_all (self : ContentHeap) (pushes : list (Val * Item))
  : result ContentHeap :=
  match pushes with
  | [] => Ok self
  | (new_value, new_item) :: pushes' =>
      self' ← push self new_value new_item; push_all self' pushes'
  end.

(** The items stored in the heap, in heap (array) order. *)
Definition stored_items (self : ContentHeap) : list Item :=
  item <$> heap self.

Definition heap_inv (m : Z) (self : ContentHeap) : Prop :=
  max_size self = m
  /\ Z.of_nat (length (heap self)) <= m
  /\ NoDup (stored_items self)
  /\ items self = list_to_set (stored_items self).

Lemma push_inv (m : Z) (self : ContentHeap) (v : Val) (i : Item) :
  0 <= m -> heap_inv m self ->
  exists self', push self v i = Ok self' /\ heap_inv m self'.
Proof.
  intros Hm (Hmax & Hlen & Hnd & Hitems). unfold push, stored_items in *.
  destruct (decide (i ∈ items self)) as [Hin|Hnin].
  { exists self. by repeat split. }
  assert (i ∉ item <$> heap self) as Hfresh.
  { rewrite Hitems in Hnin. set_solver. }
  set (entry := {| value := v; item := i |}).
  destruct (decide (Z.of_nat (length (heap self)) < max_size self))
    as [Hroom|Hfull].
  - destruct (heappush_perm __lt__ (heap self) entry)
      as (heap1 & -> & Hperm). simpl.
    eexists. split; [done|]. unfold heap_inv, stored_items. simpl.
    repeat split; [done|..].
    + rewrite Hperm. simpl. lia.
    + rewrite Hperm. simpl. by constructor.
    + rewrite Hperm. simpl. by rewrite Hitems.
  - destruct (heappushpop_perm __lt__ (heap self) entry)
      as (t & heap1 & -> & Hperm & Hlen1). simpl.
    assert (item t :: (item <$> heap1) ≡ₚ i :: (item <$> heap self))
      as Hperm'.
    { change (item <$> t :: heap1 ≡ₚ item <$> entry :: heap self).
      by rewrite Hperm. }
    assert (NoDup (item t :: (item <$> heap1))) as Hnd1.
    { rewrite Hperm'. by constructor. }
    apply NoDup_cons in Hnd1 as [Htnin Hnd1].
    assert (({[i]} ∪ items self : gset Item)
            = {[item t]} ∪ list_to_set (item <$> heap1)) as Heq.
    { rewrite Hitems.
      change (list_to_set (C:=gset Item) (i :: (item <$> heap self))
              = list_to_set (item t :: (item <$> heap1))).
      apply set_eq. intros x. rewrite !elem_of_list_to_set.
      by rewrite Hperm'. }
    unfold set_remove. rewrite decide_True by (rewrite Heq; set_solver).
    simpl. eexists. split; [done|]. unfold heap_inv, stored_items. simpl.
    repeat split; [done|lia|done|].
    rewrite Heq.
    assert (item t ∉ (list_to_set (item <$> heap1) : gset Item))
      by (by rewrite elem_of_list_to_set).
    set_solver.
Qed.

Lemma push_all_inv (m : Z) (pushes : list (Val * Item)) (self : ContentHeap) :
  0 <= m -> heap_inv m self ->
  exists self', push_all self pushes = Ok self' /\ heap_inv m self'.
Proof.
  intros Hm. revert self.
  induction pushes as [|[v i] pushes IH]; intros self Hinv; simpl;
    [by eexists|].
  destruct (push_inv m self v i Hm Hinv) as (self1 & -> & Hinv1).
  simpl. by apply IH.
Qed.

(** C10. For a heap of capacity [max_size], a size and so not negative,
    and any sequence of [push] calls, none of which raises: the number of
    stored entries never exceeds [max_size]; the
    [items] set is the set of the items stored in the heap; and pushing an
    item that is already stored changes nothing, whatever its value. *)
Theorem content_heap_invariants
    (max_size : Z) (pushes : list (Val * Item)) :
  0 <= max_size ->
  exists self,
    push_all (ContentHeap_init max_size) pushes = Ok self
    /\ Z.of_nat (ContentHeap_len self) <= max_size
    /\ items self = list_to_set (stored_items self)
    /\ (forall (new_value : Val) (new_item : Item),
          new_item ∈ stored_items self ->
          push self new_value new_item = Ok self).
Proof.
  intros Hm.
  destruct (push_all_inv max_size pushes (ContentHeap_init max_size) Hm)
    as (self & Hrun & (_ & Hlen & _ & Hitems)).
  { repeat split; simpl; [lia|constructor]. }
  exists self. repeat split; try done.
  intros v i Hin. unfold push.
  rewrite decide_True; [done|]. rewrite Hitems. set_solver.
Qed.

End ContentHeap.

Arguments ComparableTuple : clear implicits.
Arguments ContentHeap : clear implicits.
Arguments ContentHeap {Item _ _} Val.

Lemma content_heap_invariants_witness :
  exists self : ContentHeap (Item:=nat) Z,
    push_all Z.ltb (ContentHeap_init 2)
      [(5, 1%nat); (3, 2%nat); (4, 3%nat); (9, 2%nat)]
    = Ok self
    /\ Z.of_nat (ContentHeap_len self) <= 2
    /\ items self = list_to_set (stored_items self)
    /\ (forall (new_value : Z) (new_item : nat),
          new_item ∈ stored_items self ->
          push Z.ltb self new_value new_item = Ok self).
Proof.
  apply (content_heap_invariants Z.ltb 2
           [(5, 1%nat); (3, 2%nat); (4, 3%nat); (9, 2%nat)]).
  lia.
Defined.

(** Capacity 2: the entry of value 3 is pushed out by the one of value 4;
    the later push of item 2 is then a fresh insertion, which evicts 4. *)
Example content_heap_example :
  (self ← push_all Z.ltb (ContentHeap_init 2)
            [(5, 1%nat); (3, 2%nat); (4, 3%nat)];
   Ok (heap self))
  = Ok [{| value := 4; item := 3%nat |}; {| value := 5; item := 1%nat |}].
Proof. vm_compute. reflexivity. Qed.

End Helpers.

(** ** [rgfn/gfns/reaction_gfn/api/data_structures.py]: [Cache] *)

Module DataStructures.

Section Cache.
Context {K V : Type} `{EqDecision K}.

(** A Python [dict]: keys are kept in insertion order and are unique. *)
Definition dict : Type := list (K * V).

(** [d[key] = value]: an existing key keeps its position. *)
Fixpoint dict_set (d : dict) (key : K) (value : V) : dict :=
  match d with
  | [] => [(key, value)]
  | (k, v) :: d' =>
      if decide (k = key) then (k, value) :: d'
      else (k, v) :: dict_set d' key value
  end.

(** [d.get(key, None)] *)
Fixpoint dict_get (d : dict) (key : K) : option V :=
  match d with
  | [] => None
  | (k, v) :: d' => if decide (k = key) then Some v else dict_get d' key
  end.

(** [d.pop(key)]: raises [KeyError] when the key is absent. *)
Fixpoint dict_pop (d : dict) (key : K) : result dict :=
  match d with
  | [] => Raise KeyError
  | (k, v) :: d' =>
      if decide (k = key) then Ok d'
      else d'' ← dict_pop d' key; Ok ((k, v) :: d'')
  end.

(** [d.pop(key, None)] *)
Definition dict_pop_default (d : dict) (key : K) : dict :=
  match dict_pop d key with
  | Ok d' => d'
  | Raise _ => d
  end.

(** [real_max_size] is [None] for [float("inf")]. *)
Record Cache : Type := {
  _cache : dict;
  max_size : option Z;
  real_max_size : option Z
}.

(** *** [int(1.05 * self.max_size)] in double precision

    [1.05 * self.max_size] converts the [int] to a double and multiplies
    two doubles; each step rounds to the nearest double, ties to even.
    [int] then truncates the product towards zero. *)

(** The nearest integer with at most 53 significant bits, ties to even:
    the double nearest to a non-negative integer, and to a non-negative
    multiple of a power of two counted in units of that power. *)
Definition round53 (n : Z) : Z :=
  let s := Z.log2 n - 52 in
  if decide (s <= 0) then n
  else
    let q := n / 2 ^ s in
    let r := n mod 2 ^ s in
    let half := 2 ^ (s - 1) in
    if decide (r < half) then q * 2 ^ s
    else if decide (half < r) then (q + 1) * 2 ^ s
    else if Z.even q then q * 2 ^ s
    else (q + 1) * 2 ^ s.

(** The double [1.05] is [4728779608739021 / 2^52]. *)
Definition float_1_05_scaled : Z := 4728779608739021.

(** The double [1.05 * max_size], in units of [2^-52]. *)
Definition product_1_05_scaled (m : Z) : Z :=
  Z.sgn m * round53 (float_1_05_scaled * round53 (Z.abs m)).

(** [int(1.05 * max_size)] raises [OverflowError]: [max_size] is beyond
    the doubles, or the product is infinite. No cache is constructed
    then. *)
Definition overflows (m : Z) : bool :=
  bool_decide (2 ^ 1024 <= round53 (Z.abs m))
  || bool_decide
       (2 ^ 1076 <= round53 (float_1_05_scaled * round53 (Z.abs m))).

(** [int(1.05 * max_size)], for a [max_size] that does not overflow. *)
Definition int_1_05_times (m : Z) : Z :=
  Z.quot (product_1_05_scaled m) (2 ^ 52).

(** [__init__], for a [max_size] that is [None] or does not overflow. *)
Definition __init__ (max_size : option Z) : Cache :=
  {| _cache := [];
     max_size := max_size;
     real_max_size := int_1_05_times <$> max_size |}.

Definition __getitem__ (self : Cache) (key : K) : option V :=
  dict_get (_cache self) key.

Definition __len__ (self : Cache) : nat := length (_cache self).

(** [for key in keys_to_remove: cache.pop(key)] *)
Fixpoint pop_all (cache : dict) (keys_to_remove : list K) : result dict :=
  match keys_to_remove with
  | [] => Ok cache
  | key :: keys => cache' ← dict_pop cache key; pop_all cache' keys
  end.

Definition _limit_the_size (self : Cache) (cache : dict) : result dict :=
  match max_size self with
  | None => Ok cache
  | Some m =>
      if decide (Z.of_nat (length cache) <= m) then Ok cache
      else
        let cache_oversize := Z.of_nat (length cache) - m in
        let keys_to_remove := take (Z.to_nat cache_oversize) (fst <$> cache) in
        pop_all cache keys_to_remove
  end.

Definition with_cache (self : Cache) (d : dict) : Cache :=
  {| _cache := d;
     max_size := max_size self;
     real_max_size := real_max_size self |}.

Definition __setitem__ (self : Cache) (key : K) (value : V) : result Cache :=
  let cache := dict_set (_cache self) key value in
  match real_max_size self with
  | None => Ok (with_cache self cache)
  | Some r =>
      if decide (r <= Z.of_nat (length cache))
      then with_cache self <$> _limit_the_size self cache
      else Ok (with_cache self cache)
  end.

Definition clear (self : Cache) : Cache := with_cache self [].

Definition pop (self : Cache) (key : K) : Cache :=
  with_cache self (dict_pop_default (_cache self) key).

(** The mutating calls a client can make, and a run of them. *)
Inductive cache_op : Type :=
  | SetItem (key : K) (value : V)
  | Pop (key : K)
  | Clear.

Definition apply_op (self : Cache) (op : cache_op) : result Cache :=
  match op with
  | SetItem key value => __setitem__ self key value
  | Pop key => Ok (pop self key)
  | Clear => Ok (clear self)
  end.

Fixpoint run_ops (self : Cache) (ops : list cache_op) : result Cache :=
  match ops with
  | [] => Ok self
  | op :: ops' => self' ← apply_op self op; run_ops self' ops'
  end.

(** The bound of the cache: [max(int(1.05 * M) - 1, M)]. *)
Definition size_bound (m : Z) : Z := Z.max (int_1_05_times m - 1) m.

(** Rounding to 53 bits loses less than one part in [2^53]. *)
Lemma round53_lower (n : Z) :
  0 <= n -> (2 ^ 53 - 1) * n <= 2 ^ 53 * round53 n.
Proof.
  intros Hn. unfold round53.
  destruct (decide (Z.log2 n - 52 <= 0)) as [Hs|Hs]; [lia|].
  assert (0 < n) as Hpos.
  { destruct (decide (n = 0)) as [->|Hne]; [|lia]. simpl in Hs. lia. }
  destruct (Z.log2_spec n Hpos) as [Hlow _].
  set (s := Z.log2 n - 52) in *.
  assert (2 ^ Z.log2 n = 2 ^ 53 * 2 ^ (s - 1)) as Hpow.
  { rewrite <- Z.pow_add_r by lia. f_equal. lia. }
  assert (2 ^ s = 2 * 2 ^ (s - 1)) as Hs2.
  { rewrite <- Z.pow_succ_r by lia. f_equal. lia. }
  assert (0 < 2 ^ (s - 1)) as Hh by (apply Z.pow_pos_nonneg; lia).
  rewrite Hpow in Hlow. rewrite Hs2.
  set (h := 2 ^ (s - 1)) in *.
  pose proof (Z.div_mod n (2 * h) ltac:(lia)) as Hdm.
  pose proof (Z.mod_pos_bound n (2 * h) ltac:(lia)) as Hr.
  set (q := n / (2 * h)) in *. set (r := n mod (2 * h)) in *.
  assert (2 ^ 53 = 9007199254740992) as E by reflexivity.
  rewrite E in *.
  repeat case_decide; try destruct (Z.even q); nia.
Qed.

Lemma round53_upper (n : Z) :
  0 <= n -> 2 ^ 53 * round53 n <= (2 ^ 53 + 1) * n.
Proof.
  intros Hn. unfold round53.
  destruct (decide (Z.log2 n - 52 <= 0)) as [Hs|Hs]; [lia|].
  assert (0 < n) as Hpos.
  { destruct (decide (n = 0)) as [->|Hne]; [|lia]. simpl in Hs. lia. }
  destruct (Z.log2_spec n Hpos) as [Hlow _].
  set (s := Z.log2 n - 52) in *.
  assert (2 ^ Z.log2 n = 2 ^ 53 * 2 ^ (s - 1)) as Hpow.
  { rewrite <- Z.pow_add_r by lia. f_equal. lia. }
  assert (2 ^ s = 2 * 2 ^ (s - 1)) as Hs2.
  { rewrite <- Z.pow_succ_r by lia. f_equal. lia. }
  assert (0 < 2 ^ (s - 1)) as Hh by (apply Z.pow_pos_nonneg; lia).
  rewrite Hpow in Hlow. rewrite Hs2.
  set (h := 2 ^ (s - 1)) in *.
  pose proof (Z.div_mod n (2 * h) ltac:(lia)) as Hdm.
  pose proof (Z.mod_pos_bound n (2 * h) ltac:(lia)) as Hr.
  set (q := n / (2 * h)) in *. set (r := n mod (2 * h)) in *.
  assert (2 ^ 53 = 9007199254740992) as E by reflexivity.
  rewrite E in *.
  repeat case_decide; try destruct (Z.even q); nia.
Qed.

Lemma round53_nonneg (n : Z) : 0 <= n -> 0 <= round53 n.
Proof.
  intros Hn. pose proof (round53_lower n Hn) as Hlow.
  assert (2 ^ 53 = 9007199254740992) as E by reflexivity.
  rewrite E in Hlow. lia.
Qed.

(** The threshold is never below [max_size]. *)
Lemma int_1_05_times_ge (m : Z) : 0 <= m -> m <= int_1_05_times m.
Proof.
  intros Hm. unfold int_1_05_times, product_1_05_scaled.
  destruct (decide (m = 0)) as [->|Hne]; [done|].
  rewrite Z.sgn_pos, Z.abs_eq, Z.mul_1_l by lia.
  apply Z.quot_le_lower_bound; [done|].
  pose proof (round53_lower m Hm) as Hd.
  pose proof (round53_nonneg m Hm) as Hd0.
  pose proof (round53_lower (float_1_05_scaled * round53 m)) as Hp.
  unfold float_1_05_scaled in *.
  assert (2 ^ 53 = 9007199254740992) as E53 by reflexivity.
  assert (2 ^ 52 = 4503599627370496) as E52 by reflexivity.
  rewrite E53 in *. rewrite E52. lia.
Qed.

(** Every size below [2^1023] can be given to the constructor. *)
Lemma overflows_below (m : Z) : 0 <= m < 2 ^ 1023 -> overflows m = false.
Proof.
  intros [Hm Hlt]. unfold overflows. rewrite Z.abs_eq by done.
  pose proof (round53_upper m Hm) as Hd.
  pose proof (round53_nonneg m Hm) as Hd0.
  pose proof (round53_upper (float_1_05_scaled * round53 m)) as Hp.
  unfold float_1_05_scaled in *.
  assert (2 ^ 53 = 9007199254740992) as E53 by reflexivity.
  rewrite E53 in *.
  apply orb_false_intro; apply bool_decide_eq_false.
  - assert (2 ^ 1024 = 2 * 2 ^ 1023) as -> by reflexivity. lia.
  - assert (2 ^ 1076 = 9007199254740992 * 2 ^ 1023) as -> by reflexivity.
    lia.
Qed.

Lemma int_1_05_times_nonpos (m : Z) : m <= 0 -> int_1_05_times m <= 0.
Proof.
  intros Hm. unfold int_1_05_times, product_1_05_scaled.
  destruct (decide (m = 0)) as [->|Hne]; [done|].
  rewrite Z.sgn_neg by lia.
  pose proof (round53_nonneg (Z.abs m) ltac:(lia)) as Hd0.
  assert (0 <= round53 (float_1_05_scaled * round53 (Z.abs m))) as Hp0
    by (apply round53_nonneg; unfold float_1_05_scaled; lia).
  set (p := round53 (float_1_05_scaled * round53 (Z.abs m))) in *.
  replace (-1 * p) with (- p) by lia.
  rewrite Z.quot_opp_l by done.
  pose proof (Z.quot_pos p (2 ^ 52) Hp0 ltac:(done)) as Hq. lia.
Qed.

Lemma dict_set_length (d : dict) (key : K) (value : V) :
  (length d <= length (dict_set d key value) <= S (length d))%nat.
Proof.
  induction d as [|[k v] d IH]; simpl; [lia|].
  destruct (decide (k = key)); simpl; lia.
Qed.

Lemma dict_set_fresh (d : dict) (key : K) (value : V) :
  key ∉ d.*1 -> dict_set d key value = d ++ [(key, value)].
Proof.
  induction d as [|[k v] d IH]; simpl; [done|].
  intros [Hne Hnin]%not_elem_of_cons.
  destruct (decide (k = key)); [congruence|]. by rewrite IH.
Qed.

Lemma dict_set_present (d : dict) (key : K) (value : V) :
  key ∈ d.*1 -> (dict_set d key value).*1 = d.*1.
Proof.
  induction d as [|[k v] d IH]; [by intros ?%elem_of_nil|].
  rewrite fmap_cons. intros Hin. cbn [dict_set].
  destruct (decide (k = key)); [done|].
  apply elem_of_cons in Hin as [?|Hin]; [simpl in *; congruence|].
  rewrite fmap_cons. f_equal. by apply IH.
Qed.

Lemma dict_pop_length (d d' : dict) (key : K) :
  dict_pop d key = Ok d' -> S (length d') = length d.
Proof.
  revert d'. induction d as [|[k v] d IH]; intros d'; simpl; [done|].
  destruct (decide (k = key)); [by intros [= ->]|].
  destruct (dict_pop d key) as [d''|e] eqn:Hpop; simpl; [|done].
  intros [= <-]. simpl. f_equal. by apply IH.
Qed.

Lemma dict_pop_default_length (d : dict) (key : K) :
  (length (dict_pop_default d key) <= length d)%nat.
Proof.
  unfold dict_pop_default.
  destruct (dict_pop d key) as [d'|e] eqn:Hpop; [|done].
  apply dict_pop_length in Hpop. lia.
Qed.

(** Popping the first [n] keys, oldest first, leaves the newest entries. *)
Lemma pop_all_oldest (n : nat) (d : dict) :
  pop_all d (take n d.*1) = Ok (drop n d).
Proof.
  revert d. induction n as [|n IH]; intros [|[k v] d]; simpl; try done.
  destruct (decide (k = k)); [|done]. simpl. apply IH.
Qed.

Lemma _limit_the_size_spec (self : Cache) (m : Z) (cache : dict) :
  max_size self = Some m -> 0 <= m ->
  _limit_the_size self cache
  = Ok (drop (Z.to_nat (Z.of_nat (length cache) - m)) cache).
Proof.
  intros Hmax Hm. unfold _limit_the_size. rewrite Hmax.
  destruct (decide (Z.of_nat (length cache) <= m)) as [Hle|Hgt].
  - replace (Z.to_nat _) with 0%nat by lia. done.
  - apply pop_all_oldest.
Qed.

(** What every cache built by [__init__ (Some m)] satisfies. *)
Definition cache_inv (m : Z) (self : Cache) : Prop :=
  max_size self = Some m
  /\ real_max_size self = Some (int_1_05_times m)
  /\ Z.of_nat (length (_cache self)) <= size_bound m.

Lemma __setitem___spec (m : Z) (self : Cache) (key : K) (value : V) :
  0 <= m ->
  max_size self = Some m ->
  real_max_size self = Some (int_1_05_times m) ->
  let cache := dict_set (_cache self) key value in
  let n := Z.of_nat (length cache) in
  exists self',
    __setitem__ self key value = Ok self'
    /\ max_size self' = Some m
    /\ real_max_size self' = Some (int_1_05_times m)
    /\ (n < int_1_05_times m -> _cache self' = cache)
    /\ (int_1_05_times m <= n ->
        _cache self' = drop (Z.to_nat (n - m)) cache
        /\ Z.of_nat (length (_cache self')) = m).
Proof.
  intros Hm Hmax Hreal cache n. unfold __setitem__. rewrite Hreal.
  fold cache. pose proof (int_1_05_times_ge m Hm) as Hge.
  destruct (decide (int_1_05_times m <= Z.of_nat (length cache))) as [Hle|Hlt].
  - rewrite (_limit_the_size_spec self m cache Hmax Hm).
    eexists. split; [reflexivity|]. simpl.
    repeat split; try done; [subst n; lia|].
    rewrite length_drop. subst n. lia.
  - eexists. split; [reflexivity|]. simpl.
    repeat split; try done; subst n; lia.
Qed.

Lemma __setitem___inv (m : Z) (self : Cache) (key : K) (value : V) :
  0 <= m -> cache_inv m self ->
  exists self', __setitem__ self key value = Ok self' /\ cache_inv m self'.
Proof.
  intros Hm (Hmax & Hreal & Hlen).
  destruct (__setitem___spec m self key value Hm Hmax Hreal)
    as (self' & Hset & Hmax' & Hreal' & Hkeep & Hevict).
  exists self'. split; [done|]. repeat split; try done.
  pose proof (dict_set_length (_cache self) key value) as Hd.
  unfold size_bound in *.
  destruct (decide (int_1_05_times m
                    <= Z.of_nat (length (dict_set (_cache self) key value))))
    as [Hle|Hlt].
  - destruct (Hevict Hle) as [_ ->]. lia.
  - rewrite Hkeep by lia. lia.
Qed.

Lemma run_ops_inv (m : Z) (ops : list cache_op) (self : Cache) :
  0 <= m -> cache_inv m self ->
  exists self', run_ops self ops = Ok self' /\ cache_inv m self'.
Proof.
  intros Hm. revert self.
  induction ops as [|op ops IH]; intros self Hinv; simpl; [by eexists|].
  assert (exists self1, apply_op self op = Ok self1 /\ cache_inv m self1)
    as (self1 & -> & Hinv1).
  { destruct op as [key value|key|]; simpl.
    - by apply __setitem___inv.
    - eexists. split; [done|]. destruct Hinv as (? & ? & Hlen).
      repeat split; try done. simpl.
      pose proof (dict_pop_default_length (_cache self) key). lia.
    - eexists. split; [done|]. destruct Hinv as (? & ? & Hlen).
      repeat split; try done. simpl. unfold size_bound. lia. }
  simpl. by apply IH.
Qed.

Lemma __init___inv (m : Z) : 0 <= m -> cache_inv m (__init__ (Some m)).
Proof. intros Hm. repeat split. simpl. unfold size_bound. lia. Qed.

(** C9. In a cache constructed with a finite [max_size = M], a size and
    so not negative, and one for which [int(1.05 * M)] does not raise
    [OverflowError], after any run of calls, [__setitem__] evicts once
    the entry count reaches [int(1.05 * M)], the truncated double
    product: the oldest-inserted keys go first (the stored order is
    insertion order; reads and overwrites do not move a key) and exactly
    [M] entries remain; below that count nothing is evicted. So after every
    [__setitem__] the cache holds at most [max(int(1.05 * M) - 1, M)]
    entries. *)
Theorem cache_bounded_growth
    (M : Z) (ops : list cache_op) (key : K) (value : V) :
  0 <= M ->
  overflows M = false ->
  exists self self',
    run_ops (__init__ (Some M)) ops = Ok self
    /\ __setitem__ self key value = Ok self'
    /\ (key ∉ (_cache self).*1 ->
        dict_set (_cache self) key value = _cache self ++ [(key, value)])
    /\ (let cache := dict_set (_cache self) key value in
        let n := Z.of_nat (length cache) in
        (n < int_1_05_times M -> _cache self' = cache)
        /\ (int_1_05_times M <= n ->
            _cache self' = drop (Z.to_nat (n - M)) cache
            /\ Z.of_nat (length (_cache self')) = M))
    /\ Z.of_nat (__len__ self') <= size_bound M.
Proof.
  intros Hm _.
  destruct (run_ops_inv M ops (__init__ (Some M)) Hm (__init___inv M Hm))
    as (self & Hrun & Hinv).
  destruct (__setitem___inv M self key value Hm Hinv)
    as (self' & Hset & (_ & _ & Hlen')).
  destruct Hinv as (Hmax & Hreal & _).
  destruct (__setitem___spec M self key value Hm Hmax Hreal)
    as (self'' & Hset' & _ & _ & Hkeep & Hevict).
  assert (self'' = self') as -> by congruence.
  exists self, self'. repeat split; try done.
  - apply dict_set_fresh.
  - by apply Hevict.
  - by apply Hevict.
Qed.

End Cache.

Arguments dict : clear implicits.
Arguments Cache : clear implicits.
Arguments cache_op : clear implicits.

Lemma cache_bounded_growth_witness :
  exists self self' : Cache nat nat,
    run_ops (__init__ (Some 2)) [SetItem 7%nat 70%nat; SetItem 8%nat 80%nat]
    = Ok self
    /\ __setitem__ self 9%nat 90%nat = Ok self'
    /\ (9%nat ∉ (_cache self).*1 ->
        dict_set (_cache self) 9%nat 90%nat = _cache self ++ [(9, 90)%nat])
    /\ (let cache := dict_set (_cache self) 9%nat 90%nat in
        let n := Z.of_nat (length cache) in
        (n < int_1_05_times 2 -> _cache self' = cache)
        /\ (int_1_05_times 2 <= n ->
            _cache self' = drop (Z.to_nat (n - 2)) cache
            /\ Z.of_nat (length (_cache self')) = 2))
    /\ Z.of_nat (__len__ self') <= size_bound 2.
Proof.
  apply (cache_bounded_growth 2
           [SetItem 7%nat 70%nat; SetItem 8%nat 80%nat] 9%nat 90%nat).
  - lia.
  - vm_compute. reflexivity.
Defined.

(** Insertion order, not access order: overwriting the oldest key does not
    save it from eviction. *)
Example cache_evicts_oldest :
  (self ← run_ops (__init__ (Some 2))
            [SetItem 7 70; SetItem 8 80; SetItem 7 71; SetItem 9 90]%nat;
   Ok (_cache self))
  = Ok [(8, 80); (9, 90)]%nat.
Proof. reflexivity. Qed.

(** With [M = 20] the threshold is [21]: the cache grows to [20] entries
    and the twenty-first insertion brings it back to [20]. *)
Example cache_threshold_20 :
  int_1_05_times 20 = 21
  /\ (self ← run_ops (K:=nat) (V:=nat) (__init__ (Some 20))
                ((fun k => SetItem k k) <$> seq 0 21);
      Ok ((_cache self).*1))
     = Ok (seq 1 20).
Proof. split; reflexivity. Qed.

(** The threshold is the truncated double product, not the truncated
    rational [21 * M / 20]: at large sizes the product is rounded up past
    an integer, and the conversion of a size of more than 53 bits to a
    double rounds the size itself. *)
Example int_1_05_times_rounds :
  int_1_05_times 422234119394099 = 443345825363804
  /\ Z.quot (21 * 422234119394099) 20 = 443345825363803
  /\ int_1_05_times (2 ^ 53 + 1) = int_1_05_times (2 ^ 53)
  /\ int_1_05_times (- 21) = - 22.
Proof. repeat split; vm_compute; reflexivity. Qed.

(** Sizes of [1024] bits and more have no double, and just below them
    the product is infinite: the constructor raises there. *)
Example overflows_examples :
  overflows (2 ^ 1023) = false
  /\ overflows (2 ^ 1024) = true
  /\ overflows (2 ^ 1024 - 2 ^ 1019) = true
  /\ overflows (- 2 ^ 1024) = true.
Proof. repeat split; vm_compute; reflexivity. Qed.

End DataStructures.

(** ** Scalars and 1-D tensors *)

Module Torch.

(** The float operations the code uses. No law is imposed on them: the
    theorems that need one state it. *)
Class Float (R : Type) : Type := {
  f_zero : R;
  f_neg_inf : R;
  f_of_nat : nat -> R;
  f_add : R -> R -> R;
  f_sub : R -> R -> R;
  f_mul : R -> R -> R;
  f_div : R -> R -> R;
  f_neg : R -> R;
  f_abs : R -> R;
  f_exp : R -> R;
  f_log : R -> R;
  f_ltb : R -> R -> bool
}.

Section Tensor.
Context {R : Type} `{Float R}.

(** [torch.clamp(x, min=m)] on one entry: a NaN [x] compares false and is
    kept. *)
Definition clamp_min (m x : R) : R := if f_ltb x m then m else x.

(** [a - b] on 1-D tensors, with broadcasting of a one-entry operand;
    other size mismatches raise. *)
Definition tensor_sub (a b : list R) : result (list R) :=
  if decide (length a = length b) then Ok (zip_with f_sub a b)
  else match a, b with
       | [x], _ => Ok (f_sub x <$> b)
       | _, [y] => Ok ((fun x => f_sub x y) <$> a)
       | _, _ => Raise RuntimeError
       end.

(** [t.pow(2)]: torch evaluates the square as [x * x]. *)
Definition tensor_pow2 (t : list R) : list R := (fun x => f_mul x x) <$> t.

Definition tensor_sum (t : list R) : R := foldl f_add f_zero t.

(** [t.mean()] *)
Definition tensor_mean (t : list R) : R :=
  f_div (tensor_sum t) (f_of_nat (length t)).

(** [torch.scatter_add(input, dim=0, index, src)] on 1-D tensors:
    [out = input.clone(); out[index[k]] += src[k]] for every [k], in order.
    An index outside [input], or an index tensor longer than [src],
    raises. *)
Fixpoint scatter_add (input : list R) (index : list nat) (src : list R)
  : result (list R) :=
  match index with
  | [] => Ok input
  | i :: index' =>
      match src with
      | [] => Raise RuntimeError
      | s :: src' =>
          match input !! i with
          | None => Raise RuntimeError
          | Some x => scatter_add (<[i:=f_add x s]> input) index' src'
          end
      end
  end.

(** [torch.cat(tensors, dim=0)]: an empty list of tensors raises. *)
Definition cat {A} (tensors : list (list A)) : result (list A) :=
  match tensors with
  | [] => Raise RuntimeError
  | _ => Ok (concat tensors)
  end.

(** [torch.index_select(t, dim=0, index)] with an [int64] index tensor. *)
Definition index_select {A} (t : list A) (index : list Z) : result (list A) :=
  mapM (fun i => if decide (0 <= i)
                 then match t !! Z.to_nat i with
                      | Some x => Ok x
                      | None => Raise IndexError
                      end
                 else Raise IndexError) index.

(** A 2-D tensor: its shape and its row-major content ([t.view(-1)]). *)
Record Tensor2 : Type := {
  shape0 : nat;
  shape1 : nat;
  view_flat : list R
}.

Definition tensor2_exp (t : Tensor2) : Tensor2 :=
  {| shape0 := shape0 t; shape1 := shape1 t;
     view_flat := f_exp <$> view_flat t |}.

Definition tensor2_rows (t : Tensor2) : list (list R) :=
  (fun r => take (shape1 t) (drop (r * shape1 t) (view_flat t)))
    <$> seq 0 (shape0 t).

End Tensor.

Arguments Tensor2 : clear implicits.

(** *** A concrete scalar type to run the model on

    Integers with the two infinities and NaN. The arithmetic follows the
    IEEE rules for the special values; [f_div] is the floor quotient,
    [f_exp] and [f_log] are the base-2 power and logarithm. *)
Inductive xnum : Set :=
  | NInf
  | Fin (z : Z)
  | PInf
  | NaN.

Definition xsign (z : Z) (pos : xnum) : xnum :=
  if decide (z = 0) then NaN
  else if decide (0 < z) then pos
  else match pos with NInf => PInf | PInf => NInf | x => x end.

Definition xneg (a : xnum) : xnum :=
  match a with
  | NInf => PInf
  | Fin z => Fin (- z)
  | PInf => NInf
  | NaN => NaN
  end.

Definition xadd (a b : xnum) : xnum :=
  match a, b with
  | NaN, _ | _, NaN => NaN
  | Fin x, Fin y => Fin (x + y)
  | PInf, NInf | NInf, PInf => NaN
  | PInf, _ | _, PInf => PInf
  | NInf, _ | _, NInf => NInf
  end.

Definition xmul (a b : xnum) : xnum :=
  match a, b with
  | NaN, _ | _, NaN => NaN
  | Fin x, Fin y => Fin (x * y)
  | Fin x, PInf | PInf, Fin x => xsign x PInf
  | Fin x, NInf | NInf, Fin x => xsign x NInf
  | PInf, PInf | NInf, NInf => PInf
  | PInf, NInf | NInf, PInf => NInf
  end.

Definition xdiv (a b : xnum) : xnum :=
  match a, b with
  | NaN, _ | _, NaN => NaN
  | Fin x, Fin y => if decide (y = 0) then xsign x PInf else Fin (x / y)
  | Fin _, _ => Fin 0
  | PInf, Fin y => if decide (0 <= y) then PInf else NInf
  | NInf, Fin y => if decide (0 <= y) then NInf else PInf
  | _, _ => NaN
  end.

Definition xexp (a : xnum) : xnum :=
  match a with
  | NInf => Fin 0
  | Fin z => Fin (2 ^ z)
  | PInf => PInf
  | NaN => NaN
  end.

Definition xlog (a : xnum) : xnum :=
  match a with
  | NInf => NaN
  | Fin z => if decide (z < 0) then NaN
             else if decide (z = 0) then NInf else Fin (Z.log2 z)
  | PInf => PInf
  | NaN => NaN
  end.

Definition xltb (a b : xnum) : bool :=
  match a, b with
  | NaN, _ | _, NaN => false
  | Fin x, Fin y => bool_decide (x < y)
  | NInf, NInf | PInf, PInf => false
  | NInf, _ | _, PInf => true
  | _, _ => false
  end.

#[global] Instance xnum_float : Float xnum := {|
  f_zero := Fin 0;
  f_neg_inf := NInf;
  f_of_nat := fun n => Fin (Z.of_nat n);
  f_add := xadd;
  f_sub := fun a b => xadd a (xneg b);
  f_mul := xmul;
  f_div := xdiv;
  f_neg := xneg;
  f_abs := fun a => if xltb a (Fin 0) then xneg a else a;
  f_exp := xexp;
  f_log := xlog;
  f_ltb := xltb
|}.

Lemma xmul_comm (a b : xnum) : xmul a b = xmul b a.
Proof. destruct a, b; simpl; try done. f_equal. lia. Qed.

End Torch.

(** ** [rgfn/api/reward.py]: [Reward] *)

Module RewardApi.
Import Torch.

Section Reward.
Context {R : Type} `{Float R}.
Context {State Components : Type}.

(** Modelled from the spec: the output of the absent
    [ProxyBase.compute_proxy_output], a [value] tensor and optional named
    [components]. *)
Record ProxyOutput : Type := {
  value : list R;
  components : option Components
}.

(** Modelled from the spec: the proxy contract of the absent [ProxyBase],
    [compute_proxy_output] and the flags [is_non_negative] and
    [higher_is_better]. *)
Record ProxyBase : Type := {
  compute_proxy_output : list State -> ProxyOutput;
  is_non_negative : bool;
  higher_is_better : bool
}.

(** Modelled from the spec: the absent [RewardOutput] dataclass, built in
    the source as [RewardOutput(log_reward, reward, proxy,
    proxy_components)]; the [proxy] entry is called [proxy_value] here. *)
Record RewardOutput : Type := {
  log_reward : list R;
  reward : list R;
  proxy_value : list R;
  proxy_components : option Components
}.

Record Reward : Type := {
  proxy : ProxyBase;
  reward_boosting : string;
  min_reward : R;
  min_log_reward : R;
  beta : R
}.

Definition __init__
    (proxy : ProxyBase) (reward_boosting : string) (min_reward beta : R)
  : result Reward :=
  if decide (reward_boosting ∈ ["linear"; "exponential"]) then
    if decide (reward_boosting = "linear" /\ is_non_negative proxy = false)
    then Raise ValueError
    else Ok {| proxy := proxy;
               reward_boosting := reward_boosting;
               min_reward := min_reward;
               min_log_reward :=
                 if f_ltb f_zero min_reward then f_log min_reward
                 else f_neg_inf;
               beta := beta |}
  else Raise AssertionError.

Definition compute_reward_output (self : Reward) (states : list State)
  : RewardOutput :=
  let proxy_output := compute_proxy_output (proxy self) states in
  let value := value proxy_output in
  let signed_value :=
    if higher_is_better (proxy self) then value else f_neg <$> value in
  if decide (reward_boosting self = "linear") then
    let reward := (fun x => f_mul x (beta self)) <$> signed_value in
    let reward := clamp_min (min_reward self) <$> reward in
    let log_reward := f_log <$> reward in
    {| log_reward := log_reward;
       reward := reward;
       proxy_value := value;
       proxy_components := components proxy_output |}
  else
    let log_reward := (fun x => f_mul x (beta self)) <$> signed_value in
    let log_reward := clamp_min (min_log_reward self) <$> log_reward in
    let reward := f_exp <$> log_reward in
    {| log_reward := log_reward;
       reward := reward;
       proxy_value := value;
       proxy_components := components proxy_output |}.

(** C6. With exponential boosting, [log_reward] is
    [clamp(beta * signed_value, min = log(min_reward) if min_reward > 0
    else -inf)] and [reward] is [exp(log_reward)], where [signed_value] is
    the proxy value, negated when the proxy's [higher_is_better] is false.
    The code multiplies as [signed_value * beta]; the product is
    commutative on floats, which is the hypothesis. *)
Theorem exponential_reward_output
    (proxy : ProxyBase) (min_reward beta : R) (states : list State) :
  (forall a b : R, f_mul a b = f_mul b a) ->
  exists self,
    __init__ proxy "exponential" min_reward beta = Ok self
    /\ let output := compute_reward_output self states in
       let value := value (compute_proxy_output proxy states) in
       let signed_value :=
         if higher_is_better proxy then value else f_neg <$> value in
       let floor :=
         if f_ltb f_zero min_reward then f_log min_reward else f_neg_inf in
       log_reward output
       = (fun v => clamp_min floor (f_mul beta v)) <$> signed_value
       /\ reward output = f_exp <$> log_reward output
       /\ proxy_value output = value.
Proof.
  intros Hcomm. eexists. split; [reflexivity|]. simpl.
  unfold compute_reward_output. simpl.
  rewrite <- list_fmap_compose.
  repeat split. apply list_fmap_ext. intros _ v _. simpl.
  by rewrite Hcomm.
Qed.

(** C7. With one of the two boosting modes, construction raises exactly
    when the mode is ["linear"] and the proxy is not non-negative, and
    the error is a [ValueError]; every other combination of mode and
    proxy flags constructs a [Reward]. *)
Theorem reward_init_spec
    (proxy : ProxyBase) (reward_boosting : string) (min_reward beta : R) :
  reward_boosting ∈ ["linear"; "exponential"] ->
  (reward_boosting = "linear" /\ is_non_negative proxy = false ->
   __init__ proxy reward_boosting min_reward beta = Raise ValueError)
  /\ (~ (reward_boosting = "linear" /\ is_non_negative proxy = false) ->
      is_Ok (__init__ proxy reward_boosting min_reward beta)).
Proof.
  intros Hmode. unfold __init__. rewrite decide_True by done.
  split; intros Hcase.
  - by rewrite decide_True.
  - rewrite decide_False by done. by eexists.
Qed.

End Reward.

Arguments ProxyOutput : clear implicits.
Arguments ProxyBase : clear implicits.
Arguments RewardOutput : clear implicits.
Arguments Reward : clear implicits.

(** A proxy on integer states: the state is its own score. *)
Definition id_proxy (non_negative higher : bool) : ProxyBase xnum Z unit :=
  {| compute_proxy_output := fun states =>
       {| value := Fin <$> states; components := None |};
     is_non_negative := non_negative;
     higher_is_better := higher |}.

Lemma exponential_reward_output_witness :
  exists self,
    __init__ (id_proxy false false) "exponential" (Fin 0) (Fin 2) = Ok self
    /\ let output := compute_reward_output self [3; -1] in
       let value :=
         value (compute_proxy_output (id_proxy false false) [3; -1]) in
       let signed_value :=
         if higher_is_better (id_proxy false false) then value
         else f_neg <$> value in
       let floor :=
         if f_ltb f_zero (Fin 0) then f_log (Fin 0) else f_neg_inf in
       log_reward output
       = (fun v => clamp_min floor (f_mul (Fin 2) v)) <$> signed_value
       /\ reward output = f_exp <$> log_reward output
       /\ proxy_value output = value.
Proof.
  apply (exponential_reward_output (id_proxy false false) (Fin 0) (Fin 2)
           [3; -1]).
  apply xmul_comm.
Defined.

Lemma reward_init_spec_witness :
  ("linear" = "linear" /\ is_non_negative (id_proxy false true) = false ->
   __init__ (id_proxy false true) "linear" (Fin 0) (Fin 1)
   = Raise ValueError)
  /\ (~ ("linear" = "linear" /\ is_non_negative (id_proxy false true) = false)
      -> is_Ok (__init__ (id_proxy false true) "linear" (Fin 0) (Fin 1))).
Proof.
  apply (reward_init_spec (id_proxy false true) "linear" (Fin 0) (Fin 1)).
  set_solver.
Defined.

Example reward_init_linear_signed :
  __init__ (id_proxy false true) "linear" (Fin 0) (Fin 1) = Raise ValueError.
Proof. reflexivity. Qed.

Example reward_exponential_example :
  (self ← __init__ (id_proxy false false) "exponential" (Fin 0) (Fin 2);
   Ok (log_reward (compute_reward_output self [3; -1]),
       reward (compute_reward_output self [3; -1])))
  = Ok ([Fin (-6); Fin 2], [Fin 0; Fin 4]).
Proof. reflexivity. Qed.

End RewardApi.

(** ** [rgfn/shared/policies/few_phase_policy.py]: [FewPhasePolicyBase] *)

Module FewPhasePolicy.
Import Torch.

Section FewPhasePolicyBase.
Context {R : Type} `{Float R}.
Context {State ActionSpace Action ASType SharedEmbeddings Rng : Type}.

(** [isinstance(action_space, action_space_type)] *)
Context (isinstance : ActionSpace -> ASType -> bool).
(** The indexed action space interface; both lookups may raise. *)
Context (get_action_at_idx : ActionSpace -> nat -> result Action).
Context (get_idx_of_action : ActionSpace -> Action -> result nat).
(** One categorical draw from a row of probabilities; it advances the
    state of the random number generator. *)
Context (draw : Rng -> list R -> nat * Rng).
(** What [torch.empty] finds in memory at each position. *)
Context (uninitialized : nat -> Z).

Definition forward_fn_type : Type :=
  list State -> list ActionSpace -> SharedEmbeddings -> result (Tensor2 R).

(** The abstract members of the class. The dispatch table is a [dict]:
    its entries are visited in insertion order. *)
Record FewPhasePolicyBase : Type := {
  get_shared_embeddings :
    list State -> list ActionSpace -> result SharedEmbeddings;
  action_space_to_forward_fn : list (ASType * forward_fn_type)
}.

(** [[idx for idx, action_space in enumerate(action_spaces)
      if isinstance(action_space, action_space_type)]] *)
Definition phase_indices_of
    (action_spaces : list ActionSpace) (action_space_type : ASType)
  : list nat :=
  fst <$> filter (fun p => isinstance p.2 action_space_type = true)
                 (enumerate action_spaces).

(** [Categorical(probs=probs).sample()]: one draw per row. *)
Fixpoint categorical_sample (rng : Rng) (rows : list (list R))
  : list nat * Rng :=
  match rows with
  | [] => ([], rng)
  | row :: rows' =>
      let '(idx, rng1) := draw rng row in
      let '(indices, rng2) := categorical_sample rng1 rows' in
      (idx :: indices, rng2)
  end.

Definition _sample_actions_from_log_probs
    (rng : Rng) (log_probs : Tensor2 R) (action_spaces : list ActionSpace)
  : result (list Action * Rng) :=
  let '(action_indices, rng') :=
    categorical_sample rng (tensor2_rows (tensor2_exp log_probs)) in
  actions ← mapM (fun p => get_action_at_idx p.1 p.2)
                 (zip action_spaces action_indices);
  Ok (actions, rng').

Definition _select_actions_log_probs
    (log_probs : Tensor2 R) (action_spaces : list ActionSpace)
    (actions : list Action)
  : result (list R) :=
  action_indices ← mapM (fun p => get_idx_of_action p.1 p.2)
                        (zip action_spaces actions);
  let max_num_actions := shape1 log_probs in
  let action_indices :=
    (fun p => (p.1 * max_num_actions + p.2)%nat)
      <$> enumerate action_indices in
  index_select (view_flat log_probs) (Z.of_nat <$> action_indices).

(** One pass of the body of the [for ... in
    self.action_space_to_forward_fn.items()] loop of [sample_actions], for
    a non-empty phase. *)
Definition sample_phase
    (forward_fn : forward_fn_type) (phase_indices : list nat)
    (states : list State) (action_spaces : list ActionSpace)
    (shared_embeddings : SharedEmbeddings) (rng : Rng)
  : result (list Action * Rng) :=
  phase_states ← mapM (py_index states) phase_indices;
  phase_action_spaces ← mapM (py_index action_spaces) phase_indices;
  log_probs ← forward_fn phase_states phase_action_spaces shared_embeddings;
  _sample_actions_from_log_probs rng log_probs phase_action_spaces.

Fixpoint sample_actions_loop
    (table : list (ASType * forward_fn_type))
    (states : list State) (action_spaces : list ActionSpace)
    (shared_embeddings : SharedEmbeddings)
    (actions : list Action) (action_to_state_idx : list nat) (rng : Rng)
  : result (list Action * list nat * Rng) :=
  match table with
  | [] => Ok (actions, action_to_state_idx, rng)
  | (action_space_type, forward_fn) :: table' =>
      let phase_indices := phase_indices_of action_spaces action_space_type in
      if decide (length phase_indices = 0%nat) then
        sample_actions_loop table' states action_spaces shared_embeddings
          actions action_to_state_idx rng
      else
        '(phase_actions, rng') ←
          sample_phase forward_fn phase_indices states action_spaces
            shared_embeddings rng;
        sample_actions_loop table' states action_spaces shared_embeddings
          (actions ++ phase_actions) (action_to_state_idx ++ phase_indices)
          rng'
  end.

(** [for action_idx, state_idx in enumerate(action_to_state_idx):
       state_to_action_idx[state_idx] = action_idx] *)
Fixpoint fill_state_to_action_idx {A}
    (of_idx : nat -> A) (state_to_action_idx : list A)
    (action_idx : nat) (action_to_state_idx : list nat)
  : result (list A) :=
  match action_to_state_idx with
  | [] => Ok state_to_action_idx
  | state_idx :: rest =>
      state_to_action_idx' ←
        py_setitem state_to_action_idx state_idx (of_idx action_idx);
      fill_state_to_action_idx of_idx state_to_action_idx'
        (S action_idx) rest
  end.

Definition sample_actions
    (self : FewPhasePolicyBase) (rng : Rng)
    (states : list State) (action_spaces : list ActionSpace)
  : result (list Action * Rng) :=
  shared_embeddings ← get_shared_embeddings self states action_spaces;
  '(actions, action_to_state_idx, rng') ←
    sample_actions_loop (action_space_to_forward_fn self)
      states action_spaces shared_embeddings [] [] rng;
  state_to_action_idx ←
    fill_state_to_action_idx id (replicate (length states) 0%nat)
      0 action_to_state_idx;
  out ← mapM (fun state_idx =>
                action_idx ← py_index state_to_action_idx state_idx;
                py_index actions action_idx)
             (seq 0 (length states));
  Ok (out, rng').

(** The loop body of [compute_action_log_probs] for a non-empty phase. *)
Definition log_probs_phase
    (forward_fn : forward_fn_type) (phase_indices : list nat)
    (states : list State) (action_spaces : list ActionSpace)
    (actions : list Action) (shared_embeddings : SharedEmbeddings)
  : result (list R) :=
  phase_states ← mapM (py_index states) phase_indices;
  phase_action_spaces ← mapM (py_index action_spaces) phase_indices;
  phase_actions ← mapM (py_index actions) phase_indices;
  log_probs ← forward_fn phase_states phase_action_spaces shared_embeddings;
  _select_actions_log_probs log_probs phase_action_spaces phase_actions.

Fixpoint log_probs_loop
    (table : list (ASType * forward_fn_type))
    (states : list State) (action_spaces : list ActionSpace)
    (actions : list Action) (shared_embeddings : SharedEmbeddings)
    (log_probs_list : list (list R)) (log_probs_to_state_idx : list nat)
  : result (list (list R) * list nat) :=
  match table with
  | [] => Ok (log_probs_list, log_probs_to_state_idx)
  | (action_space_type, forward_fn) :: table' =>
      let phase_indices := phase_indices_of action_spaces action_space_type in
      if decide (length phase_indices = 0%nat) then
        log_probs_loop table' states action_spaces actions shared_embeddings
          log_probs_list log_probs_to_state_idx
      else
        phase_log_probs ←
          log_probs_phase forward_fn phase_indices states action_spaces
            actions shared_embeddings;
        log_probs_loop table' states action_spaces actions shared_embeddings
          (log_probs_list ++ [phase_log_probs])
          (log_probs_to_state_idx ++ phase_indices)
  end.

(** [torch.empty(n, dtype=torch.long)] *)
Definition torch_empty (n : nat) : list Z := uninitialized <$> seq 0 n.

Definition compute_action_log_probs
    (self : FewPhasePolicyBase)
    (states : list State) (action_spaces : list ActionSpace)
    (actions : list Action)
  : result (list R) :=
  shared_embeddings ← get_shared_embeddings self states action_spaces;
  '(log_probs_list, log_probs_to_state_idx) ←
    log_probs_loop (action_space_to_forward_fn self)
      states action_spaces actions shared_embeddings [] [];
  log_probs ← cat log_probs_list;
  state_to_action_idx ←
    fill_state_to_action_idx Z.of_nat (torch_empty (length states))
      0 log_probs_to_state_idx;
  index_select log_probs state_to_action_idx.

(** *** The partition *)

Lemma elem_of_enumerate {A} (l : list A) (i : nat) (x : A) :
  (i, x) ∈ enumerate l <-> l !! i = Some x.
Proof.
  unfold enumerate. rewrite list_elem_of_lookup. split.
  - intros (k & Hk). apply lookup_zip_with_Some in Hk
      as (j & y & [= -> ->] & Hj & Hy).
    apply lookup_seq in Hj as [-> _]. done.
  - intros Hi. exists i. apply lookup_zip_with_Some.
    exists i, x. split; [done|]. split; [|done].
    apply lookup_seq. split; [done|]. by eapply lookup_lt_Some.
Qed.

Lemma elem_of_phase_indices_of
    (action_spaces : list ActionSpace) (T : ASType) (s : nat) :
  s ∈ phase_indices_of action_spaces T <->
  exists a, action_spaces !! s = Some a /\ isinstance a T = true.
Proof.
  unfold phase_indices_of. rewrite list_elem_of_fmap. split.
  - intros ([i a] & -> & [Hinst Hin%elem_of_enumerate]%list_elem_of_filter).
    by exists a.
  - intros (a & Hs & Hinst). exists (s, a). split; [done|].
    apply list_elem_of_filter. split; [done|]. by apply elem_of_enumerate.
Qed.

Lemma phase_indices_of_lt (action_spaces : list ActionSpace) (T : ASType) :
  Forall (fun s => (s < length action_spaces)%nat)
         (phase_indices_of action_spaces T).
Proof.
  apply Forall_forall. intros s (a & Hs & _)%elem_of_phase_indices_of.
  by eapply lookup_lt_Some.
Qed.

Lemma phase_indices_of_NoDup (action_spaces : list ActionSpace) (T : ASType) :
  NoDup (phase_indices_of action_spaces T).
Proof.
  unfold phase_indices_of, enumerate.
  eapply sublist_NoDup; [|apply fmap_sublist, sublist_filter].
  rewrite fst_zip by (rewrite length_seq; lia). apply NoDup_seq.
Qed.

(** The positions recorded by the loop: the phases' indices, in the
    order of the dispatch table. *)
Fixpoint all_phase_indices
    (table : list (ASType * forward_fn_type))
    (action_spaces : list ActionSpace) : list nat :=
  match table with
  | [] => []
  | (action_space_type, _) :: table' =>
      phase_indices_of action_spaces action_space_type
      ++ all_phase_indices table' action_spaces
  end.

Lemma all_phase_indices_lt
    (table : list (ASType * forward_fn_type))
    (action_spaces : list ActionSpace) :
  Forall (fun s => (s < length action_spaces)%nat)
         (all_phase_indices table action_spaces).
Proof.
  induction table as [|[T fn] table IH]; simpl; [done|].
  apply Forall_app. split; [apply phase_indices_of_lt|done].
Qed.

Lemma elem_of_all_phase_indices
    (table : list (ASType * forward_fn_type))
    (action_spaces : list ActionSpace) (s : nat) :
  s ∈ all_phase_indices table action_spaces <->
  exists a T fn,
    action_spaces !! s = Some a /\ (T, fn) ∈ table /\ isinstance a T = true.
Proof.
  induction table as [|[T fn] table IH]; simpl.
  - split; [by intros ?%elem_of_nil|].
    by intros (a & T & fn & _ & ?%elem_of_nil & _).
  - rewrite elem_of_app, IH, elem_of_phase_indices_of. split.
    + intros [(a & Hs & Hinst)|(a & T' & fn' & Hs & Hin & Hinst)].
      * exists a, T, fn. repeat split; [done|left|done].
      * exists a, T', fn'. repeat split; [done|by right|done].
    + intros (a & T' & fn' & Hs & Hin & Hinst).
      apply elem_of_cons in Hin as [[= -> ->]|Hin].
      * left. by exists a.
      * right. by exists a, T', fn'.
Qed.

(** *** The index map *)

Lemma last_occurrence (l : list nat) (s : nat) :
  s ∈ l ->
  exists j, l !! j = Some s /\ forall j', (j < j')%nat -> l !! j' <> Some s.
Proof.
  induction l as [|x l IH]; [by intros ?%elem_of_nil|].
  intros Hin. destruct (decide (s ∈ l)) as [Hl|Hnl].
  - destruct (IH Hl) as (j & Hj & Hlast). exists (S j). split; [done|].
    intros [|j'] Hlt; [lia|]. simpl. apply Hlast. lia.
  - apply elem_of_cons in Hin as [->|?]; [|done]. exists 0%nat.
    split; [done|]. intros [|j'] Hlt; [lia|]. simpl.
    intros Hj'. apply Hnl. by eapply list_elem_of_lookup_2.
Qed.

Lemma fill_state_to_action_idx_spec {A}
    (of_idx : nat -> A) (action_to_state_idx : list nat)
    (init : list A) (k : nat) :
  Forall (fun s => (s < length init)%nat) action_to_state_idx ->
  exists state_to_action_idx,
    fill_state_to_action_idx of_idx init k action_to_state_idx
    = Ok state_to_action_idx
    /\ length state_to_action_idx = length init
    /\ (forall s, s ∉ action_to_state_idx ->
                  state_to_action_idx !! s = init !! s)
    /\ (forall j s,
          action_to_state_idx !! j = Some s ->
          (forall j', (j < j')%nat -> action_to_state_idx !! j' <> Some s) ->
          state_to_action_idx !! s = Some (of_idx (k + j)%nat)).
Proof.
  revert init k.
  induction action_to_state_idx as [|s0 idxs IH]; intros init k Hall; simpl.
  - exists init. split; [done|]. split; [done|]. split; [done|].
    by intros j s.
  - apply Forall_cons in Hall as [Hs0 Hall].
    rewrite py_setitem_lt by done. simpl.
    destruct (IH (<[s0:=of_idx k]> init) (S k))
      as (st & -> & Hlen & Hout & Hin).
    { by rewrite length_insert. }
    exists st. split; [done|]. split; [by rewrite Hlen, length_insert|].
    split.
    + intros s [Hne Hnin]%not_elem_of_cons.
      rewrite Hout by done. by rewrite list_lookup_insert_ne.
    + intros [|j] s Hj Hlast; simpl in Hj.
      * injection Hj as ->. rewrite Hout.
        -- rewrite list_lookup_insert_eq by done. do 2 f_equal. lia.
        -- intros (j' & Hj')%list_elem_of_lookup_1.
           apply (Hlast (S j')); [lia|done].
      * replace (k + S j)%nat with (S k + j)%nat by lia.
        apply Hin; [done|]. intros j' Hlt. apply (Hlast (S j')). lia.
Qed.

(** *** The two loops *)

(** Every non-empty phase is processed without an exception and yields
    one result per state of the phase. *)
Definition sample_phases_ok
    (table : list (ASType * forward_fn_type))
    (states : list State) (action_spaces : list ActionSpace)
    (shared_embeddings : SharedEmbeddings) : Prop :=
  forall T fn rng,
    (T, fn) ∈ table -> phase_indices_of action_spaces T <> [] ->
    exists phase_actions rng',
      sample_phase fn (phase_indices_of action_spaces T) states action_spaces
        shared_embeddings rng
      = Ok (phase_actions, rng')
      /\ length phase_actions = length (phase_indices_of action_spaces T).

Definition log_probs_phases_ok
    (table : list (ASType * forward_fn_type))
    (states : list State) (action_spaces : list ActionSpace)
    (actions : list Action) (shared_embeddings : SharedEmbeddings) : Prop :=
  forall T fn,
    (T, fn) ∈ table -> phase_indices_of action_spaces T <> [] ->
    exists phase_log_probs,
      log_probs_phase fn (phase_indices_of action_spaces T) states
        action_spaces actions shared_embeddings
      = Ok phase_log_probs
      /\ length phase_log_probs = length (phase_indices_of action_spaces T).

Lemma sample_phases_ok_cons entry table states action_spaces shared :
  sample_phases_ok (entry :: table) states action_spaces shared ->
  sample_phases_ok table states action_spaces shared.
Proof. intros Hok T fn rng Hin. apply Hok. by right. Qed.

Lemma log_probs_phases_ok_cons entry table states action_spaces actions shared :
  log_probs_phases_ok (entry :: table) states action_spaces actions shared ->
  log_probs_phases_ok table states action_spaces actions shared.
Proof. intros Hok T fn Hin. apply Hok. by right. Qed.

Lemma sample_actions_loop_spec table states action_spaces shared :
  sample_phases_ok table states action_spaces shared ->
  forall actions action_to_state_idx rng,
  exists new_actions rng',
    sample_actions_loop table states action_spaces shared
      actions action_to_state_idx rng
    = Ok (actions ++ new_actions,
          action_to_state_idx ++ all_phase_indices table action_spaces,
          rng')
    /\ length new_actions = length (all_phase_indices table action_spaces).
Proof.
  induction table as [|[T fn] table IH]; intros Hok actions idx rng; simpl.
  - exists [], rng. by rewrite !app_nil_r.
  - specialize (IH (sample_phases_ok_cons _ _ _ _ _ Hok)).
    destruct (decide (length (phase_indices_of action_spaces T) = 0%nat))
      as [Hempty|Hne].
    + apply nil_length_inv in Hempty. rewrite Hempty. simpl. apply IH.
    + destruct (Hok T fn rng) as (pa & rng1 & -> & Hlen); [by left|..].
      { intros Heq. by rewrite Heq in Hne. }
      simpl. destruct (IH (actions ++ pa)
                          (idx ++ phase_indices_of action_spaces T) rng1)
        as (new & rng2 & -> & Hlen').
      exists (pa ++ new), rng2. rewrite !app_assoc. split; [done|].
      rewrite !length_app. lia.
Qed.

Lemma log_probs_loop_spec table states action_spaces actions shared :
  log_probs_phases_ok table states action_spaces actions shared ->
  forall log_probs_list log_probs_to_state_idx,
  exists new_log_probs,
    log_probs_loop table states action_spaces actions shared
      log_probs_list log_probs_to_state_idx
    = Ok (log_probs_list ++ new_log_probs,
          log_probs_to_state_idx ++ all_phase_indices table action_spaces)
    /\ length (concat new_log_probs)
       = length (all_phase_indices table action_spaces)
    /\ Forall (fun t => t <> []) new_log_probs.
Proof.
  induction table as [|[T fn] table IH]; intros Hok lpl idx; simpl.
  - exists []. by rewrite !app_nil_r.
  - specialize (IH (log_probs_phases_ok_cons _ _ _ _ _ _ Hok)).
    destruct (decide (length (phase_indices_of action_spaces T) = 0%nat))
      as [Hempty|Hne].
    + apply nil_length_inv in Hempty. rewrite Hempty. simpl. apply IH.
    + destruct (Hok T fn) as (lp & -> & Hlen); [by left|..].
      { intros Heq. by rewrite Heq in Hne. }
      simpl. destruct (IH (lpl ++ [lp])
                          (idx ++ phase_indices_of action_spaces T))
        as (new & -> & Hlen' & Hne').
      exists (lp :: new). rewrite <- !app_assoc. split; [done|].
      simpl. rewrite !length_app. split; [lia|].
      constructor; [|done]. intros ->. simpl in Hlen. lia.
Qed.

(** *** Recombination *)

(** [out] holds, for every state position [s < n], the per-phase result
    that the loop recorded for [s]: [action_to_state_idx] lists every
    position, and the result recorded last for [s] sits at [out[s]]. *)
Definition recombined {A}
    (n : nat) (action_to_state_idx : list nat) (per_phase out : list A)
  : Prop :=
  length out = n
  /\ length per_phase = length action_to_state_idx
  /\ (forall s, (s < n)%nat -> s ∈ action_to_state_idx)
  /\ (forall k s,
        action_to_state_idx !! k = Some s ->
        (forall k', (k < k')%nat -> action_to_state_idx !! k' <> Some s) ->
        is_Some (out !! s) /\ out !! s = per_phase !! k).

Lemma sample_recombine (n : nat) (actions : list Action) (idx : list nat) :
  length actions = length idx ->
  Forall (fun s => (s < n)%nat) idx ->
  (forall s, (s < n)%nat -> s ∈ idx) \/ idx <> [] ->
  exists state_to_action_idx out,
    fill_state_to_action_idx id (replicate n 0%nat) 0 idx
    = Ok state_to_action_idx
    /\ mapM (fun state_idx =>
               action_idx ← py_index state_to_action_idx state_idx;
               py_index actions action_idx) (seq 0 n)
       = Ok out
    /\ length out = n
    /\ (forall k s,
          idx !! k = Some s ->
          (forall k', (k < k')%nat -> idx !! k' <> Some s) ->
          is_Some (out !! s) /\ out !! s = actions !! k)
    /\ (forall s, (s < n)%nat -> s ∉ idx ->
          is_Some (out !! s) /\ out !! s = actions !! 0%nat).
Proof.
  intros Hlen Hlt Hcover.
  destruct (fill_state_to_action_idx_spec id idx (replicate n 0%nat) 0)
    as (st & Hfill & Hstlen & Hkeep & Hst).
  { by rewrite length_replicate. }
  set (f := fun state_idx =>
              action_idx ← py_index st state_idx;
              py_index actions action_idx).
  assert (forall k s, idx !! k = Some s ->
            (forall k', (k < k')%nat -> idx !! k' <> Some s) ->
            exists a, actions !! k = Some a /\ f s = Ok a) as Hat.
  { intros k s Hk Hlast.
    destruct (lookup_lt_is_Some_2 actions k) as [a Ha].
    { rewrite Hlen. by eapply lookup_lt_Some. }
    exists a. split; [done|].
    specialize (Hst k s Hk Hlast). simpl in Hst.
    apply py_index_Ok in Hst. unfold f. rewrite Hst. simpl.
    by apply py_index_Ok. }
  assert (forall s, (s < n)%nat -> s ∉ idx ->
            exists a, actions !! 0%nat = Some a /\ f s = Ok a) as Hmiss.
  { intros s Hs Hnin.
    destruct Hcover as [Hcover|Hne]; [by destruct (Hnin (Hcover s Hs))|].
    destruct (lookup_lt_is_Some_2 actions 0) as [a Ha].
    { rewrite Hlen. destruct idx; [done|simpl; lia]. }
    exists a. split; [done|].
    assert (st !! s = Some 0%nat) as Hs0.
    { rewrite Hkeep by done. by apply lookup_replicate_2. }
    apply py_index_Ok in Hs0. unfold f. rewrite Hs0. simpl.
    by apply py_index_Ok. }
  destruct (mapM_exists f (seq 0 n)) as (out & Hout & Houtlen & Hlook).
  { intros i s [-> Hs]%lookup_seq. simpl.
    destruct (decide (i ∈ idx)) as [Hin|Hnin].
    - destruct (last_occurrence idx i Hin) as (k & Hk & Hlast).
      destruct (Hat k i Hk Hlast) as (a & _ & Ha). by exists a.
    - destruct (Hmiss i Hs Hnin) as (a & _ & Ha). by exists a. }
  exists st, out. split; [done|]. split; [done|].
  split; [by rewrite Houtlen, length_seq|]. split.
  - intros k s Hk Hlast.
    assert (s < n)%nat as Hs.
    { eapply Forall_forall in Hlt; [done|]. by eapply list_elem_of_lookup_2. }
    destruct (Hlook s s) as (y & Hy & Hfy); [by apply lookup_seq|].
    destruct (Hat k s Hk Hlast) as (a & Ha & Hfa).
    rewrite Hy, Ha. split; [done|]. congruence.
  - intros s Hs Hnin.
    destruct (Hlook s s) as (y & Hy & Hfy); [by apply lookup_seq|].
    destruct (Hmiss s Hs Hnin) as (a & Ha & Hfa).
    rewrite Hy, Ha. split; [done|]. congruence.
Qed.

Lemma log_probs_recombine
    (n : nat) (log_probs : list R) (idx : list nat) (init : list Z) :
  length init = n ->
  length log_probs = length idx ->
  Forall (fun s => (s < n)%nat) idx ->
  (forall s, (s < n)%nat -> s ∈ idx) ->
  exists state_to_action_idx out,
    fill_state_to_action_idx Z.of_nat init 0 idx = Ok state_to_action_idx
    /\ index_select log_probs state_to_action_idx = Ok out
    /\ recombined n idx log_probs out.
Proof.
  intros Hinit Hlen Hlt Hcover.
  destruct (fill_state_to_action_idx_spec Z.of_nat idx init 0)
    as (st & Hfill & Hstlen & _ & Hst).
  { by rewrite Hinit. }
  set (g := fun i : Z =>
              if decide (0 <= i)
              then match log_probs !! Z.to_nat i with
                   | Some x => Ok x
                   | None => Raise IndexError
                   end
              else Raise IndexError).
  assert (forall k s, idx !! k = Some s ->
            (forall k', (k < k')%nat -> idx !! k' <> Some s) ->
            exists x, log_probs !! k = Some x
              /\ st !! s = Some (Z.of_nat k) /\ g (Z.of_nat k) = Ok x)
    as Hat.
  { intros k s Hk Hlast.
    destruct (lookup_lt_is_Some_2 log_probs k) as [x Hx].
    { rewrite Hlen. by eapply lookup_lt_Some. }
    exists x. split; [done|]. split; [by apply (Hst k s)|].
    unfold g. rewrite decide_True by lia. by rewrite Nat2Z.id, Hx. }
  destruct (mapM_exists g st) as (out & Hout & Houtlen & Hlook).
  { intros s z Hz.
    assert (s < n)%nat as Hs.
    { rewrite <- Hinit, <- Hstlen. by eapply lookup_lt_Some. }
    destruct (last_occurrence idx s (Hcover s Hs)) as (k & Hk & Hlast).
    destruct (Hat k s Hk Hlast) as (x & _ & Hsk & Hg).
    exists x. congruence. }
  exists st, out. split; [done|]. split; [done|].
  split; [by rewrite Houtlen, Hstlen|]. split; [done|].
  split; [done|]. intros k s Hk Hlast.
  destruct (Hat k s Hk Hlast) as (x & Hx & Hsk & Hg).
  destruct (Hlook s _ Hsk) as (y & Hy & Hgy).
  rewrite Hy, Hx. split; [done|]. congruence.
Qed.

(** *** Dispatch and recombination *)

(** Every action space of the batch is an instance of a registered type. *)
Definition all_registered
    (table : list (ASType * forward_fn_type))
    (action_spaces : list ActionSpace) : Prop :=
  forall a, a ∈ action_spaces ->
    exists T fn, (T, fn) ∈ table /\ isinstance a T = true.

(** No action space of the batch is an instance of a registered type. *)
Definition none_registered
    (table : list (ASType * forward_fn_type))
    (action_spaces : list ActionSpace) : Prop :=
  forall a T fn, a ∈ action_spaces -> (T, fn) ∈ table ->
    isinstance a T = false.

Lemma all_registered_cover table action_spaces n :
  length action_spaces = n ->
  all_registered table action_spaces ->
  forall s, (s < n)%nat -> s ∈ all_phase_indices table action_spaces.
Proof.
  intros <- Hreg s Hs.
  destruct (lookup_lt_is_Some_2 action_spaces s Hs) as [a Ha].
  destruct (Hreg a) as (T & fn & Hin & Hinst);
    [by eapply list_elem_of_lookup_2|].
  apply elem_of_all_phase_indices. by exists a, T, fn.
Qed.

Lemma none_registered_indices table action_spaces :
  none_registered table action_spaces ->
  all_phase_indices table action_spaces = [].
Proof.
  intros Hnone.
  destruct (all_phase_indices table action_spaces) as [|s l] eqn:Hidx;
    [done|].
  assert (s ∈ all_phase_indices table action_spaces) as Hin
    by (rewrite Hidx; left).
  apply elem_of_all_phase_indices in Hin as (a & T & fn & Hs & Hin & Hinst).
  rewrite (Hnone a T fn) in Hinst; [done| |done].
  by eapply list_elem_of_lookup_2.
Qed.

(** A loop over a table none of whose phases has a state leaves the
    accumulators as they are, whatever the phase functions do. *)
Lemma sample_actions_loop_no_phase table states action_spaces shared
    actions idx rng :
  all_phase_indices table action_spaces = [] ->
  sample_actions_loop table states action_spaces shared actions idx rng
  = Ok (actions, idx, rng).
Proof.
  induction table as [|[T fn] table IH]; simpl; [done|].
  intros [Hp Hrest]%app_eq_nil. rewrite Hp. simpl. by apply IH.
Qed.

Lemma log_probs_loop_no_phase table states action_spaces actions shared
    lpl idx :
  all_phase_indices table action_spaces = [] ->
  log_probs_loop table states action_spaces actions shared lpl idx
  = Ok (lpl, idx).
Proof.
  induction table as [|[T fn] table IH]; simpl; [done|].
  intros [Hp Hrest]%app_eq_nil. rewrite Hp. simpl. by apply IH.
Qed.

Lemma sample_actions_loop_skip table1 T fn table2 states action_spaces
    shared actions idx rng :
  phase_indices_of action_spaces T = [] ->
  sample_actions_loop (table1 ++ (T, fn) :: table2) states action_spaces
    shared actions idx rng
  = sample_actions_loop (table1 ++ table2) states action_spaces
      shared actions idx rng.
Proof.
  intros Hempty. revert actions idx rng.
  induction table1 as [|[T1 fn1] table1 IH]; intros actions idx rng; simpl.
  - by rewrite Hempty.
  - destruct (decide _); [apply IH|].
    destruct (sample_phase _ _ _ _ _ _) as [[pa rng1]|e]; simpl; [|done].
    apply IH.
Qed.

Lemma log_probs_loop_skip table1 T fn table2 states action_spaces actions
    shared lpl idx :
  phase_indices_of action_spaces T = [] ->
  log_probs_loop (table1 ++ (T, fn) :: table2) states action_spaces actions
    shared lpl idx
  = log_probs_loop (table1 ++ table2) states action_spaces actions
      shared lpl idx.
Proof.
  intros Hempty. revert lpl idx.
  induction table1 as [|[T1 fn1] table1 IH]; intros lpl idx; simpl.
  - by rewrite Hempty.
  - destruct (decide _); [apply IH|].
    destruct (log_probs_phase _ _ _ _ _ _) as [lp|e]; simpl; [|done].
    apply IH.
Qed.

(** When no action space of the batch is an instance of two registered
    types, the phases partition the batch: every position is recorded
    exactly once. *)
Lemma all_phase_indices_partition table action_spaces :
  NoDup table.*1 ->
  all_registered table action_spaces ->
  (forall a T1 T2, a ∈ action_spaces ->
     isinstance a T1 = true -> isinstance a T2 = true -> T1 = T2) ->
  all_phase_indices table action_spaces ≡ₚ seq 0 (length action_spaces).
Proof.
  intros Hkeys Hreg Hdisj. apply NoDup_Permutation; [|apply NoDup_seq|].
  - clear Hreg. induction table as [|[T fn] table IH]; simpl; [constructor|].
    apply NoDup_cons in Hkeys as [HT Hkeys].
    apply NoDup_app. split; [apply phase_indices_of_NoDup|]. split; [|by apply IH].
    intros s (a & Hs & Hinst)%elem_of_phase_indices_of
           (a' & T' & fn' & Hs' & Hin & Hinst')%elem_of_all_phase_indices.
    assert (a' = a) as -> by congruence.
    assert (T = T') as <-.
    { eapply Hdisj; [|done..]. by eapply list_elem_of_lookup_2. }
    apply HT. apply list_elem_of_fmap. by exists (T, fn').
  - intros s. rewrite elem_of_seq. split.
    + intros Hin. eapply Forall_forall in Hin; [|apply all_phase_indices_lt].
      simpl in Hin. lia.
    + intros [_ Hs]. by eapply all_registered_cover.
Qed.

(** For a non-empty batch whose action spaces are all of a registered
    type and whose phases are processed without an exception, both
    methods partition, process and recombine: the output has one entry
    per state, the entry of state [s] being the result its phase
    computed for it. *)
Theorem dispatch_recombine
    (self : FewPhasePolicyBase) (rng : Rng)
    (states : list State) (action_spaces : list ActionSpace)
    (actions : list Action) (shared : SharedEmbeddings) :
  let table := action_space_to_forward_fn self in
  let n := length states in
  length action_spaces = n ->
  get_shared_embeddings self states action_spaces = Ok shared ->
  all_registered table action_spaces ->
  sample_phases_ok table states action_spaces shared ->
  log_probs_phases_ok table states action_spaces actions shared ->
  (exists per_phase out rng',
      sample_actions_loop table states action_spaces shared [] [] rng
      = Ok (per_phase, all_phase_indices table action_spaces, rng')
      /\ sample_actions self rng states action_spaces = Ok (out, rng')
      /\ recombined n (all_phase_indices table action_spaces) per_phase out)
  /\ (states <> [] ->
      exists log_probs_list out,
        log_probs_loop table states action_spaces actions shared [] []
        = Ok (log_probs_list, all_phase_indices table action_spaces)
        /\ compute_action_log_probs self states action_spaces actions = Ok out
        /\ recombined n (all_phase_indices table action_spaces)
             (concat log_probs_list) out).
Proof.
  intros table n Hlen Hshared Hreg Hsample Hlog.
  pose proof (all_registered_cover table action_spaces n Hlen Hreg) as Hcover.
  pose proof (all_phase_indices_lt table action_spaces) as Hlt.
  rewrite Hlen in Hlt. split.
  - destruct (sample_actions_loop_spec table states action_spaces shared
                Hsample [] [] rng) as (pp & rng' & Hloop & Hpp).
    simpl in Hloop.
    destruct (sample_recombine n pp (all_phase_indices table action_spaces)
                Hpp Hlt (or_introl Hcover))
      as (st & out & Hfill & Hout & Houtlen & Hpos & _).
    exists pp, out, rng'. split; [done|]. split.
    + unfold sample_actions. rewrite Hshared. simpl.
      fold table. rewrite Hloop. simpl. fold n. rewrite Hfill. simpl.
      by rewrite Hout.
    + split; [done|]. split; [done|]. by split.
  - intros Hne.
    destruct (log_probs_loop_spec table states action_spaces actions shared
                Hlog [] []) as (lpl & Hloop & Hlpl & Hnonempty).
    simpl in Hloop.
    destruct (log_probs_recombine n (concat lpl)
                (all_phase_indices table action_spaces) (torch_empty n))
      as (st & out & Hfill & Hout & Hrec); try done.
    { unfold torch_empty. by rewrite length_fmap, length_seq. }
    exists lpl, out. split; [done|]. split; [|done].
    unfold compute_action_log_probs. rewrite Hshared. simpl.
    fold table. rewrite Hloop. simpl.
    assert (lpl <> []) as Hlpl_ne.
    { intros ->. simpl in Hlpl.
      assert (0 < n)%nat as Hn by (subst n; destruct states; simpl; [done|lia]).
      specialize (Hcover 0%nat Hn). symmetry in Hlpl.
      apply nil_length_inv in Hlpl. rewrite Hlpl in Hcover.
      by apply elem_of_nil in Hcover. }
    unfold cat. destruct lpl as [|lp lpl]; [done|]. simpl.
    fold n. rewrite Hfill. simpl. done.
Qed.

(** C2 at the empty batch: [sample_actions] returns the empty list, but
    in [compute_action_log_probs] no phase appends a tensor and
    [torch.cat] of the empty list raises. *)
Theorem compute_action_log_probs_empty_batch
    (self : FewPhasePolicyBase) (rng : Rng) :
  is_Raise (compute_action_log_probs self [] [] [])
  /\ sample_actions self rng [] []
     = (_ ← get_shared_embeddings self [] []; Ok ([], rng)).
Proof.
  unfold compute_action_log_probs, sample_actions.
  destruct (get_shared_embeddings self [] []) as [shared|e]; simpl;
    [|split; [by eexists|done]].
  rewrite log_probs_loop_no_phase, sample_actions_loop_no_phase.
  - simpl. split; [by eexists|done].
  - by apply none_registered_indices; intros a T fn ?%elem_of_nil.
  - by apply none_registered_indices; intros a T fn ?%elem_of_nil.
Qed.

(** C8. A registered type with no state in the batch is skipped: its
    function is not run and nothing is appended for it, neither to the
    actions nor to [log_probs_list] (so no empty tensor reaches
    [torch.cat]); both methods return what they return without that
    entry in the dispatch table. *)
Theorem empty_phase_skipped
    (get_shared :
       list State -> list ActionSpace -> result SharedEmbeddings)
    (table1 table2 : list (ASType * forward_fn_type))
    (T : ASType) (fn : forward_fn_type) (rng : Rng)
    (states : list State) (action_spaces : list ActionSpace)
    (actions : list Action) :
  phase_indices_of action_spaces T = [] ->
  let self := {| get_shared_embeddings := get_shared;
                 action_space_to_forward_fn := table1 ++ (T, fn) :: table2 |} in
  let self' := {| get_shared_embeddings := get_shared;
                  action_space_to_forward_fn := table1 ++ table2 |} in
  (forall shared acts idx rng,
      sample_actions_loop ((T, fn) :: table2) states action_spaces shared
        acts idx rng
      = sample_actions_loop table2 states action_spaces shared acts idx rng)
  /\ (forall shared log_probs_list idx,
        log_probs_loop ((T, fn) :: table2) states action_spaces actions
          shared log_probs_list idx
        = log_probs_loop table2 states action_spaces actions shared
            log_probs_list idx)
  /\ sample_actions self rng states action_spaces
     = sample_actions self' rng states action_spaces
  /\ compute_action_log_probs self states action_spaces actions
     = compute_action_log_probs self' states action_spaces actions.
Proof.
  intros Hempty self self'. repeat split.
  - intros shared acts idx rng0. simpl. by rewrite Hempty.
  - intros shared lpl idx. simpl. by rewrite Hempty.
  - unfold sample_actions. simpl.
    destruct (get_shared _ _) as [shared|e]; simpl; [|done].
    by rewrite sample_actions_loop_skip.
  - unfold compute_action_log_probs. simpl.
    destruct (get_shared _ _) as [shared|e]; simpl; [|done].
    by rewrite log_probs_loop_skip.
Qed.

(** C3, as the code has it. The policy checks no registration. A
    non-empty batch none of whose action spaces is of a registered type
    makes both methods raise. In a batch that also holds states of
    registered types, [sample_actions] raises nothing by itself: it
    returns one action per state, and a state of an unregistered type
    receives the first entry of the concatenated per-phase actions. *)
Theorem unregistered_type_behaviour
    (self : FewPhasePolicyBase) (rng : Rng)
    (states : list State) (action_spaces : list ActionSpace)
    (actions : list Action) :
  let table := action_space_to_forward_fn self in
  let n := length states in
  length action_spaces = n ->
  states <> [] ->
  (none_registered table action_spaces ->
   is_Raise (sample_actions self rng states action_spaces)
   /\ is_Raise (compute_action_log_probs self states action_spaces actions))
  /\ (forall shared,
        get_shared_embeddings self states action_spaces = Ok shared ->
        sample_phases_ok table states action_spaces shared ->
        all_phase_indices table action_spaces <> [] ->
        exists per_phase out rng',
          sample_actions_loop table states action_spaces shared [] [] rng
          = Ok (per_phase, all_phase_indices table action_spaces, rng')
          /\ sample_actions self rng states action_spaces = Ok (out, rng')
          /\ length out = n
          /\ forall s a,
               action_spaces !! s = Some a ->
               (forall T fn, (T, fn) ∈ table -> isinstance a T = false) ->
               is_Some (out !! s) /\ out !! s = per_phase !! 0%nat).
Proof.
  intros table n Hlen Hne. split.
  - intros Hnone%none_registered_indices.
    unfold sample_actions, compute_action_log_probs. fold table.
    destruct (get_shared_embeddings self states action_spaces)
      as [shared|e]; simpl; [|split; by eexists].
    rewrite sample_actions_loop_no_phase, log_probs_loop_no_phase by done.
    simpl. split; [|by eexists].
    destruct states as [|st states]; [done|]. simpl. by eexists.
  - intros shared Hshared Hsample Hidx.
    pose proof (all_phase_indices_lt table action_spaces) as Hlt.
    rewrite Hlen in Hlt.
    destruct (sample_actions_loop_spec table states action_spaces shared
                Hsample [] [] rng) as (pp & rng' & Hloop & Hpp).
    simpl in Hloop.
    destruct (sample_recombine n pp (all_phase_indices table action_spaces)
                Hpp Hlt (or_intror Hidx))
      as (st & out & Hfill & Hout & Houtlen & _ & Hmiss).
    exists pp, out, rng'. split; [done|]. split; [|split; [done|]].
    + unfold sample_actions. rewrite Hshared. simpl.
      fold table. rewrite Hloop. simpl. fold n. rewrite Hfill. simpl.
      by rewrite Hout.
    + intros s a Hs Hunreg. apply Hmiss.
      * rewrite <- Hlen. by eapply lookup_lt_Some.
      * intros (a' & T & fn & Hs' & Hin & Hinst)%elem_of_all_phase_indices.
        assert (a' = a) as -> by congruence.
        by rewrite (Hunreg T fn Hin) in Hinst.
Qed.

End FewPhasePolicyBase.

Arguments FewPhasePolicyBase : clear implicits.
Arguments forward_fn_type : clear implicits.

(** *** A policy to run the model on

    States and actions are numbers, an action space is its type tag with
    the list of its actions, the phase function is uniform and the random
    number generator always draws index 0. *)
Record toy_space : Set := {
  space_type : nat;
  possible_actions : list nat
}.

Definition toy_isinstance (a : toy_space) (T : nat) : bool :=
  bool_decide (space_type a = T).

Definition toy_get_action_at_idx (a : toy_space) (idx : nat) : result nat :=
  py_index (possible_actions a) idx.

(** [list.index(x)]: raises [ValueError] when [x] is absent. *)
Fixpoint list_index (l : list nat) (x : nat) : result nat :=
  match l with
  | [] => Raise ValueError
  | y :: l' => if decide (y = x) then Ok 0%nat else S <$> list_index l' x
  end.

Definition toy_get_idx_of_action (a : toy_space) (action : nat) : result nat :=
  list_index (possible_actions a) action.

Definition toy_draw (rng : nat) (row : list xnum) : nat * nat := (0%nat, S rng).

Definition toy_uninitialized (position : nat) : Z := -1.

Definition toy_forward_fn : Type := forward_fn_type xnum nat toy_space unit.

Definition uniform_forward : toy_forward_fn :=
  fun states action_spaces shared =>
    let max_num_actions :=
      max_list ((fun a => length (possible_actions a)) <$> action_spaces) in
    Ok {| shape0 := length action_spaces;
          shape1 := max_num_actions;
          view_flat :=
            replicate (length action_spaces * max_num_actions) (Fin 0) |}.

Definition failing_forward : toy_forward_fn :=
  fun states action_spaces shared => Raise RuntimeError.

Definition toy_policy (table : list (nat * toy_forward_fn))
  : FewPhasePolicyBase xnum nat toy_space nat unit :=
  {| get_shared_embeddings := fun states action_spaces => Ok tt;
     action_space_to_forward_fn := table |}.

Definition toy_sample_actions :=
  sample_actions (R:=xnum) (State:=nat) (SharedEmbeddings:=unit)
    toy_isinstance toy_get_action_at_idx toy_draw.

Definition toy_compute_action_log_probs :=
  compute_action_log_probs (R:=xnum) (State:=nat) (SharedEmbeddings:=unit)
    toy_isinstance toy_get_idx_of_action toy_uninitialized.

(** Two types interleaved in one batch: every state gets the action of
    its own space, at its own position. *)
Example sample_actions_two_types :
  toy_sample_actions
    (toy_policy [(1%nat, uniform_forward); (0%nat, uniform_forward)]) 0%nat
    [10; 11; 12]%nat
    [ {| space_type := 0; possible_actions := [5; 6]%nat |};
      {| space_type := 1; possible_actions := [7; 8; 9]%nat |};
      {| space_type := 0; possible_actions := [4]%nat |} ]
  = Ok ([5; 7; 4]%nat, 3%nat).
Proof. reflexivity. Qed.

Example compute_action_log_probs_two_types :
  toy_compute_action_log_probs
    (toy_policy [(1%nat, uniform_forward); (0%nat, uniform_forward)])
    [10; 11; 12]%nat
    [ {| space_type := 0; possible_actions := [5; 6]%nat |};
      {| space_type := 1; possible_actions := [7; 8; 9]%nat |};
      {| space_type := 0; possible_actions := [4]%nat |} ]
    [6; 9; 4]%nat
  = Ok [Fin 0; Fin 0; Fin 0].
Proof. reflexivity. Qed.

Definition mixed_batch : list toy_space :=
  [ {| space_type := 0; possible_actions := [5; 6]%nat |};
    {| space_type := 1; possible_actions := [7; 8; 9]%nat |};
    {| space_type := 0; possible_actions := [4]%nat |} ].

Definition two_phase_table : list (nat * toy_forward_fn) :=
  [(1%nat, uniform_forward); (0%nat, uniform_forward)].

(** The hypotheses of [dispatch_recombine] hold of the two-type batch. *)
Lemma dispatch_recombine_witness :
  let n := 3%nat in
  let positions := all_phase_indices toy_isinstance two_phase_table mixed_batch in
  (exists per_phase out rng',
      sample_actions_loop toy_isinstance toy_get_action_at_idx toy_draw
        two_phase_table [10; 11; 12]%nat mixed_batch tt [] [] 0%nat
      = Ok (per_phase, positions, rng')
      /\ toy_sample_actions (toy_policy two_phase_table) 0%nat
           [10; 11; 12]%nat mixed_batch
         = Ok (out, rng')
      /\ recombined n positions per_phase out)
  /\ ([10; 11; 12]%nat <> [] ->
      exists log_probs_list out,
        log_probs_loop toy_isinstance toy_get_idx_of_action
          two_phase_table [10; 11; 12]%nat mixed_batch [6; 9; 4]%nat tt [] []
        = Ok (log_probs_list, positions)
        /\ toy_compute_action_log_probs (toy_policy two_phase_table)
             [10; 11; 12]%nat mixed_batch [6; 9; 4]%nat
           = Ok out
        /\ recombined n positions (concat log_probs_list) out).
Proof.
  apply (dispatch_recombine toy_isinstance toy_get_action_at_idx
           toy_get_idx_of_action toy_draw toy_uninitialized
           (toy_policy two_phase_table) 0%nat [10; 11; 12]%nat mixed_batch
           [6; 9; 4]%nat tt).
  - reflexivity.
  - reflexivity.
  - intros a Ha. unfold mixed_batch in Ha.
    repeat (apply elem_of_cons in Ha as [->|Ha]);
      [exists 0%nat|exists 1%nat|exists 0%nat|by apply elem_of_nil in Ha];
      exists uniform_forward; (split; [|reflexivity]);
      unfold two_phase_table; simpl; set_solver.
  - intros T fn rng Hin _. simpl in Hin. unfold two_phase_table in Hin.
    repeat (apply elem_of_cons in Hin as [[= -> ->]|Hin]);
      [| |by apply elem_of_nil in Hin];
      eexists _, _; (split; [reflexivity|reflexivity]).
  - intros T fn Hin _. simpl in Hin. unfold two_phase_table in Hin.
    repeat (apply elem_of_cons in Hin as [[= -> ->]|Hin]);
      [| |by apply elem_of_nil in Hin];
      eexists; (split; [reflexivity|reflexivity]).
Defined.

(** C3 fails on the code: the second state has type 1, which is not in
    the dispatch table, yet [sample_actions] returns normally and hands
    that state the action 5 of the first state's phase, which its own
    action space [{7, 8}] does not even contain. *)
Lemma unregistered_type_not_rejected :
  let table := [(0%nat, uniform_forward)] in
  let unregistered := {| space_type := 1; possible_actions := [7; 8]%nat |} in
  let action_spaces :=
    [ {| space_type := 0; possible_actions := [5; 6]%nat |}; unregistered ] in
  unregistered ∈ action_spaces
  /\ (forall T fn, (T, fn) ∈ table -> toy_isinstance unregistered T = false)
  /\ toy_sample_actions (toy_policy table) 0%nat [10; 11]%nat action_spaces
     = Ok ([5; 5]%nat, 1%nat)
  /\ ~ is_Raise
        (toy_sample_actions (toy_policy table) 0%nat [10; 11]%nat
           action_spaces).
Proof.
  simpl. split; [set_solver|]. split.
  - intros T fn [= -> ->]%list_elem_of_singleton. reflexivity.
  - split; [reflexivity|]. intros [e He]. vm_compute in He. discriminate.
Qed.

Lemma unregistered_type_behaviour_witness :
  let self := toy_policy [(0%nat, uniform_forward)] in
  let states := [10; 11]%nat in
  let action_spaces :=
    [ {| space_type := 0; possible_actions := [5; 6]%nat |};
      {| space_type := 1; possible_actions := [7; 8]%nat |} ] in
  let table := action_space_to_forward_fn self in
  (none_registered toy_isinstance table action_spaces ->
   is_Raise (toy_sample_actions self 0%nat states action_spaces)
   /\ is_Raise (toy_compute_action_log_probs self states action_spaces
                  [5; 7]%nat))
  /\ (forall shared,
        get_shared_embeddings self states action_spaces = Ok shared ->
        sample_phases_ok toy_isinstance toy_get_action_at_idx toy_draw
          table states action_spaces shared ->
        all_phase_indices toy_isinstance table action_spaces <> [] ->
        exists per_phase out rng',
          sample_actions_loop toy_isinstance toy_get_action_at_idx toy_draw
            table states action_spaces shared [] [] 0%nat
          = Ok (per_phase,
                all_phase_indices toy_isinstance table action_spaces, rng')
          /\ toy_sample_actions self 0%nat states action_spaces
             = Ok (out, rng')
          /\ length out = length states
          /\ forall s a,
               action_spaces !! s = Some a ->
               (forall T fn, (T, fn) ∈ table -> toy_isinstance a T = false) ->
               is_Some (out !! s) /\ out !! s = per_phase !! 0%nat).
Proof.
  apply (unregistered_type_behaviour toy_isinstance toy_get_action_at_idx
           toy_get_idx_of_action toy_draw toy_uninitialized
           (toy_policy [(0%nat, uniform_forward)]) 0%nat [10; 11]%nat
           [ {| space_type := 0; possible_actions := [5; 6]%nat |};
             {| space_type := 1; possible_actions := [7; 8]%nat |} ]
           [5; 7]%nat).
  - reflexivity.
  - discriminate.
Defined.

Lemma empty_phase_skipped_witness :
  let states := [10; 11]%nat in
  let action_spaces :=
    [ {| space_type := 0; possible_actions := [5; 6]%nat |};
      {| space_type := 0; possible_actions := [4]%nat |} ] in
  phase_indices_of toy_isinstance action_spaces 7%nat = []
  /\ toy_sample_actions
       (toy_policy [(7%nat, failing_forward); (0%nat, uniform_forward)])
       0%nat states action_spaces
     = toy_sample_actions (toy_policy [(0%nat, uniform_forward)])
         0%nat states action_spaces
  /\ toy_compute_action_log_probs
       (toy_policy [(7%nat, failing_forward); (0%nat, uniform_forward)])
       states action_spaces [6; 4]%nat
     = toy_compute_action_log_probs (toy_policy [(0%nat, uniform_forward)])
         states action_spaces [6; 4]%nat.
Proof.
  split; [reflexivity|].
  apply (empty_phase_skipped toy_isinstance toy_get_action_at_idx
           toy_get_idx_of_action toy_draw toy_uninitialized
           (fun _ _ => Ok tt) [] [(0%nat, uniform_forward)]
           7%nat failing_forward 0%nat [10; 11]%nat
           [ {| space_type := 0; possible_actions := [5; 6]%nat |};
             {| space_type := 0; possible_actions := [4]%nat |} ]
           [6; 4]%nat).
  reflexivity.
Defined.

(** The empty batch: an empty list of actions, but an exception from
    [compute_action_log_probs]. *)
Example empty_batch_example :
  toy_sample_actions (toy_policy [(0%nat, uniform_forward)]) 0%nat [] []
  = Ok ([], 0%nat)
  /\ toy_compute_action_log_probs (toy_policy [(0%nat, uniform_forward)])
       [] [] []
     = Raise RuntimeError.
Proof. split; reflexivity. Qed.

End FewPhasePolicy.

(** ** The trajectories container and the policy contract

    [rgfn/api/trajectories.py] and [rgfn/api/policy_base.py] are not among
    the sources; the sampler and the objective only call them. *)

Module TrajectoriesApi.
Import Torch.

Section Trajectories.
Context {R : Type} `{Float R}.
Context {State ActionSpace Action Components Rng : Type}.

(** Modelled from the spec: the policy contract ([sample_actions],
    [compute_action_log_probs], [compute_states_log_flow]) of the absent
    [PolicyBase]. Sampling reads and advances the random number generator. *)
Record PolicyBase : Type := {
  sample_actions :
    Rng -> list State -> list ActionSpace -> result (list Action * Rng);
  compute_action_log_probs :
    list State -> list ActionSpace -> list Action -> result (list R);
  compute_states_log_flow : list State -> result (list R)
}.

(** Modelled from the spec: the absent [Trajectories] container, with the
    per-trajectory lists the tests fill in ([_states_list],
    [_forward_action_spaces_list], [_backward_action_spaces_list],
    [_actions_list], [_reward_outputs]) and the flat per-action
    log-probabilities once assigned. *)
Record Trajectories : Type := {
  _states_list : list (list State);
  _forward_action_spaces_list : list (list ActionSpace);
  _backward_action_spaces_list : list (list ActionSpace);
  _actions_list : list (list Action);
  _reward_outputs : option (RewardApi.RewardOutput R Components);
  _forward_log_probs_flat : option (list R);
  _backward_log_probs_flat : option (list R)
}.

(** Modelled from the spec: [Trajectories()], created empty. *)
Definition Trajectories_init : Trajectories :=
  {| _states_list := [];
     _forward_action_spaces_list := [];
     _backward_action_spaces_list := [];
     _actions_list := [];
     _reward_outputs := None;
     _forward_log_probs_flat := None;
     _backward_log_probs_flat := None |}.

(** Modelled from the spec: [add_source_states], each trajectory
    initialized with one state. *)
Definition add_source_states
    (self : Trajectories) (source_states : list State) : Trajectories :=
  {| _states_list := _states_list self ++ ((fun s => [s]) <$> source_states);
     _forward_action_spaces_list :=
       _forward_action_spaces_list self ++ ((fun _ => []) <$> source_states);
     _backward_action_spaces_list :=
       _backward_action_spaces_list self ++ ((fun _ => []) <$> source_states);
     _actions_list := _actions_list self ++ ((fun _ => []) <$> source_states);
     _reward_outputs := _reward_outputs self;
     _forward_log_probs_flat := _forward_log_probs_flat self;
     _backward_log_probs_flat := _backward_log_probs_flat self |}.

(** Python's [l[0]]. *)
Definition py_first {A} (l : list A) : result A := py_index l 0.

(** Python's [l[-1]]. *)
Definition py_last {A} (l : list A) : result A :=
  match last l with
  | Some x => Ok x
  | None => Raise IndexError
  end.

(** Modelled from the spec: the absent [get_last_states_flat], the
    frontier (last) state of every trajectory. *)
Definition get_last_states_flat (self : Trajectories) : result (list State) :=
  mapM py_last (_states_list self).

(** Modelled from the spec: the absent [get_source_states_flat], the
    first state of every trajectory. *)
Definition get_source_states_flat (self : Trajectories)
  : result (list State) :=
  mapM py_first (_states_list self).

(** Modelled from the spec: the absent [get_non_last_states_flat], the
    flat stream of the states an action was taken from. *)
Definition get_non_last_states_flat (self : Trajectories) : list State :=
  concat ((fun states => take (length states - 1) states)
            <$> _states_list self).

(** Modelled from the spec: the absent [get_non_source_states_flat], the
    flat stream of the states an action led to. *)
Definition get_non_source_states_flat (self : Trajectories) : list State :=
  concat (drop 1 <$> _states_list self).

(** Modelled from the spec: the absent [get_actions_flat]. *)
Definition get_actions_flat (self : Trajectories) : list Action :=
  concat (_actions_list self).

(** Modelled from the spec: the absent
    [get_forward_action_spaces_flat]. *)
Definition get_forward_action_spaces_flat (self : Trajectories)
  : list ActionSpace :=
  concat (_forward_action_spaces_list self).

(** Modelled from the spec: the absent
    [get_backward_action_spaces_flat]. *)
Definition get_backward_action_spaces_flat (self : Trajectories)
  : list ActionSpace :=
  concat (_backward_action_spaces_list self).

(** Modelled from the spec: the absent [get_index_flat], the index tensor
    recording, per flattened action, the trajectory it belongs to; it is
    [to_indices] of the numbers of actions of the trajectories. *)
Definition get_index_flat (self : Trajectories) : result (list nat) :=
  Helpers.to_indices ((fun actions => Z.of_nat (length actions))
                        <$> _actions_list self).

(** Reading an attribute that was never assigned. *)
Definition of_option {A} (o : option A) : result A :=
  match o with
  | Some x => Ok x
  | None => Raise AttributeError
  end.

(** Modelled from the spec: the absent [get_forward_log_probs_flat]. *)
Definition get_forward_log_probs_flat (self : Trajectories)
  : result (list R) :=
  of_option (_forward_log_probs_flat self).

(** Modelled from the spec: the absent [get_backward_log_probs_flat]. *)
Definition get_backward_log_probs_flat (self : Trajectories)
  : result (list R) :=
  of_option (_backward_log_probs_flat self).

(** Modelled from the spec: the absent [get_reward_outputs]. *)
Definition get_reward_outputs (self : Trajectories)
  : result (RewardApi.RewardOutput R Components) :=
  of_option (_reward_outputs self).

(** Modelled from the spec: the absent [set_forward_log_probs_flat]. *)
Definition set_forward_log_probs_flat
    (self : Trajectories) (log_probs : list R) : Trajectories :=
  {| _states_list := _states_list self;
     _forward_action_spaces_list := _forward_action_spaces_list self;
     _backward_action_spaces_list := _backward_action_spaces_list self;
     _actions_list := _actions_list self;
     _reward_outputs := _reward_outputs self;
     _forward_log_probs_flat := Some log_probs;
     _backward_log_probs_flat := _backward_log_probs_flat self |}.

(** Modelled from the spec: the absent [set_backward_log_probs_flat]. *)
Definition set_backward_log_probs_flat
    (self : Trajectories) (log_probs : list R) : Trajectories :=
  {| _states_list := _states_list self;
     _forward_action_spaces_list := _forward_action_spaces_list self;
     _backward_action_spaces_list := _backward_action_spaces_list self;
     _actions_list := _actions_list self;
     _reward_outputs := _reward_outputs self;
     _forward_log_probs_flat := _forward_log_probs_flat self;
     _backward_log_probs_flat := Some log_probs |}.

(** Modelled from the spec: the absent [set_reward_outputs], attaching a
    [RewardOutput] to the batch. *)
Definition set_reward_outputs
    (self : Trajectories)
    (reward_outputs : RewardApi.RewardOutput R Components) : Trajectories :=
  {| _states_list := _states_list self;
     _forward_action_spaces_list := _forward_action_spaces_list self;
     _backward_action_spaces_list := _backward_action_spaces_list self;
     _actions_list := _actions_list self;
     _reward_outputs := Some reward_outputs;
     _forward_log_probs_flat := _forward_log_probs_flat self;
     _backward_log_probs_flat := _backward_log_probs_flat self |}.

(** Modelled from the spec: the appending step of the absent
    [add_actions_states]. [new[r]] is appended to the [r]-th list whose
    mask entry is [True]; the other lists are left alone. Mismatched
    lengths are a fatal invariant violation. *)
Fixpoint append_to_active {A}
    (lists : list (list A)) (new : list A) (mask : list bool)
  : result (list (list A)) :=
  match lists, mask with
  | [], [] => match new with [] => Ok [] | _ => Raise AssertionError end
  | l :: lists', true :: mask' =>
      match new with
      | x :: new' =>
          rest ← append_to_active lists' new' mask'; Ok ((l ++ [x]) :: rest)
      | [] => Raise AssertionError
      end
  | l :: lists', false :: mask' =>
      rest ← append_to_active lists' new mask'; Ok (l :: rest)
  | _, _ => Raise AssertionError
  end.

(** Modelled from the spec: [add_actions_states] appends the action, the
    state and the two action spaces only to the still-active trajectories,
    those marked by [not_terminated_mask]. *)
Definition add_actions_states
    (self : Trajectories)
    (forward_action_spaces backward_action_spaces : list ActionSpace)
    (actions : list Action) (states : list State)
    (not_terminated_mask : list bool)
  : result Trajectories :=
  states_list ←
    append_to_active (_states_list self) states not_terminated_mask;
  forward_list ←
    append_to_active (_forward_action_spaces_list self)
      forward_action_spaces not_terminated_mask;
  backward_list ←
    append_to_active (_backward_action_spaces_list self)
      backward_action_spaces not_terminated_mask;
  actions_list ←
    append_to_active (_actions_list self) actions not_terminated_mask;
  Ok {| _states_list := states_list;
        _forward_action_spaces_list := forward_list;
        _backward_action_spaces_list := backward_list;
        _actions_list := actions_list;
        _reward_outputs := _reward_outputs self;
        _forward_log_probs_flat := _forward_log_probs_flat self;
        _backward_log_probs_flat := _backward_log_probs_flat self |}.

(** Modelled from the spec: the reversal of a flat per-action tensor
    inside the absent [reversed], segment by segment. *)
Fixpoint rev_segments {A} (counts : list nat) (flat : list A) : list A :=
  match counts with
  | [] => []
  | c :: counts' =>
      reverse (take c flat) ++ rev_segments counts' (drop c flat)
  end.

(** Modelled from the spec: [reversed] swaps the forward and backward
    roles of the action spaces and of the log-probabilities and reverses
    the order of states and actions. *)
Definition reversed (self : Trajectories) : Trajectories :=
  let counts := length <$> _actions_list self in
  {| _states_list := reverse <$> _states_list self;
     _forward_action_spaces_list := reverse <$> _backward_action_spaces_list self;
     _backward_action_spaces_list := reverse <$> _forward_action_spaces_list self;
     _actions_list := reverse <$> _actions_list self;
     _reward_outputs := _reward_outputs self;
     _forward_log_probs_flat :=
       rev_segments counts <$> _backward_log_probs_flat self;
     _backward_log_probs_flat :=
       rev_segments counts <$> _forward_log_probs_flat self |}.

End Trajectories.

Arguments PolicyBase : clear implicits.
Arguments Trajectories : clear implicits.

End TrajectoriesApi.

(** ** [rgfn/api/objective_base.py] and
    [rgfn/shared/objectives/conditioned_trajectory_balance_objective.py] *)

Module Objective.
Import Torch TrajectoriesApi.

Section ConditionedTrajectoryBalanceObjective.
Context {R : Type} `{Float R}.
Context {State ActionSpace Action Components Rng : Type}.

Abbreviation Policy := (PolicyBase R State ActionSpace Action Rng).
Abbreviation Trajs := (Trajectories R State ActionSpace Action Components).

Record ObjectiveOutput : Type := {
  loss : R;
  metrics : list (string * R)
}.

Record ObjectiveBase : Type := {
  forward_policy : Policy;
  backward_policy : Policy
}.

(** [ObjectiveBase.assign_log_probs]; the container is modified in place,
    so the new container is returned. *)
Definition assign_log_probs (self : ObjectiveBase) (trajectories : Trajs)
  : result Trajs :=
  let actions := get_actions_flat trajectories in
  let forward_states := get_non_last_states_flat trajectories in
  let forward_action_spaces := get_forward_action_spaces_flat trajectories in
  forward_log_prob ←
    compute_action_log_probs (forward_policy self)
      forward_states forward_action_spaces actions;
  let backward_states := get_non_source_states_flat trajectories in
  let backward_action_spaces := get_backward_action_spaces_flat trajectories in
  backward_log_prob ←
    compute_action_log_probs (backward_policy self)
      backward_states backward_action_spaces actions;
  let trajectories :=
    set_forward_log_probs_flat trajectories forward_log_prob in
  Ok (set_backward_log_probs_flat trajectories backward_log_prob).

(** [ConditionedTrajectoryBalanceObjective.compute_objective_output] *)
Definition compute_objective_output (self : ObjectiveBase) (trajectories : Trajs)
  : result (ObjectiveOutput * Trajs) :=
  trajectories ← assign_log_probs self trajectories;
  source_states ← get_source_states_flat trajectories;
  source_log_flow ←
    compute_states_log_flow (forward_policy self) source_states;
  forward_log_prob ← get_forward_log_probs_flat trajectories;
  backward_log_prob ← get_backward_log_probs_flat trajectories;
  reward_outputs ← get_reward_outputs trajectories;
  let log_reward := RewardApi.log_reward reward_outputs in
  index ← get_index_flat trajectories;
  input ← tensor_sub source_log_flow log_reward;
  src ← tensor_sub forward_log_prob backward_log_prob;
  loss ← scatter_add input index src;
  let loss := tensor_mean (tensor_pow2 loss) in
  Ok ({| loss := loss;
         metrics :=
           [("mean_log_flow", tensor_mean source_log_flow);
            ("abs_mean_log_flow", tensor_mean (f_abs <$> source_log_flow))] |},
      trajectories).

(** The loss as the specification words it: the residual of trajectory
    [t] starts from [source_log_flow[t] - log_reward[t]] and accumulates
    [forward_log_prob[k] - backward_log_prob[k]] for every action [k] whose
    index entry is [t], in the order of the flat stream. *)
Definition trajectory_deltas
    (source_log_flow log_reward : list R) (index : list nat)
    (forward_log_prob backward_log_prob : list R) : list R :=
  imap (fun t initial =>
          foldl f_add initial
            (Helpers.select_group index
               (zip_with f_sub forward_log_prob backward_log_prob) t))
       (zip_with f_sub source_log_flow log_reward).

Definition mean_squared (deltas : list R) : R :=
  tensor_mean ((fun delta => f_mul delta delta) <$> deltas).

Lemma scatter_add_spec (index : list nat) (input src : list R) :
  Forall (fun i => (i < length input)%nat) index ->
  (length index <= length src)%nat ->
  scatter_add input index src
  = Ok (imap (fun t x => foldl f_add x (Helpers.select_group index src t))
             input).
Proof.
  revert input src.
  induction index as [|i index IH]; intros input src Hlt Hlen; simpl.
  - f_equal. apply list_eq. intros j. rewrite list_lookup_imap.
    by destruct (input !! j).
  - destruct src as [|s src]; [simpl in Hlen; lia|].
    apply Forall_cons in Hlt as [Hi Hlt].
    destruct (lookup_lt_is_Some_2 input i Hi) as [x Hx]. rewrite Hx.
    rewrite IH; [|by rewrite length_insert|simpl in Hlen; lia].
    f_equal. apply list_eq. intros j. rewrite !list_lookup_imap.
    unfold Helpers.select_group. simpl.
    destruct (decide (i = j)) as [->|Hne].
    + rewrite list_lookup_insert_eq by done. rewrite Hx. simpl.
      by rewrite filter_cons_True by done.
    + rewrite list_lookup_insert_ne by done.
      by rewrite filter_cons_False by done.
Qed.

Lemma tensor_sub_same_length (a b : list R) :
  length a = length b -> tensor_sub a b = Ok (zip_with f_sub a b).
Proof. intros Hlen. unfold tensor_sub. by rewrite decide_True. Qed.

Lemma get_index_flat_spec (trajectories : Trajs) :
  exists index,
    get_index_flat trajectories = Ok index
    /\ length index = length (get_actions_flat trajectories)
    /\ Forall (fun t => (t < length (_actions_list trajectories))%nat) index.
Proof.
  unfold get_index_flat, get_actions_flat, Helpers.to_indices, Helpers.arange.
  set (counts := (fun actions : list Action => Z.of_nat (length actions))
                   <$> _actions_list trajectories).
  assert (Forall (fun c => 0 <= c) counts) as Hnn.
  { apply Forall_fmap, Forall_forall. intros l _. simpl. lia. }
  exists (Helpers.repeat_from 0 counts).
  split; [by apply Helpers.repeat_interleave_seq|]. split.
  - apply Nat2Z.inj. rewrite Helpers.repeat_from_length by done.
    subst counts. clear Hnn.
    induction (_actions_list trajectories) as [|l ls IH]; [done|].
    rewrite fmap_cons. cbn [foldr concat].
    rewrite length_app, Nat2Z.inj_add, IH. done.
  - apply Forall_forall. intros t Ht%Helpers.repeat_from_bounds.
    subst counts. rewrite length_fmap in Ht. lia.
Qed.

(** C1. For a batch with an attached [log_reward], whose policies assign
    the per-action forward and backward log-probabilities and the
    per-trajectory source log-flows, [compute_objective_output] returns as
    loss the mean over the trajectories of [delta^2], the deltas being the
    scatter-add residuals keyed by the trajectory index tensor. *)
Theorem trajectory_balance_loss
    (self : ObjectiveBase) (trajectories : Trajs)
    (reward_outputs : RewardApi.RewardOutput R Components)
    (source_states : list State)
    (source_log_flow forward_log_prob backward_log_prob : list R) :
  let n_trajectories := length (_states_list trajectories) in
  let actions := get_actions_flat trajectories in
  length (_actions_list trajectories) = n_trajectories ->
  _reward_outputs trajectories = Some reward_outputs ->
  length (RewardApi.log_reward reward_outputs) = n_trajectories ->
  get_source_states_flat trajectories = Ok source_states ->
  compute_states_log_flow (forward_policy self) source_states
  = Ok source_log_flow ->
  length source_log_flow = n_trajectories ->
  compute_action_log_probs (forward_policy self)
    (get_non_last_states_flat trajectories)
    (get_forward_action_spaces_flat trajectories) actions
  = Ok forward_log_prob ->
  length forward_log_prob = length actions ->
  compute_action_log_probs (backward_policy self)
    (get_non_source_states_flat trajectories)
    (get_backward_action_spaces_flat trajectories) actions
  = Ok backward_log_prob ->
  length backward_log_prob = length actions ->
  exists output trajectories' index,
    compute_objective_output self trajectories = Ok (output, trajectories')
    /\ get_index_flat trajectories = Ok index
    /\ loss output
       = mean_squared
           (trajectory_deltas source_log_flow
              (RewardApi.log_reward reward_outputs) index
              forward_log_prob backward_log_prob).
Proof.
  intros n actions Hacts Hro Hlr Hsrc Hflow Hflowlen Hf Hflen Hb Hblen.
  destruct (get_index_flat_spec trajectories) as (index & Hidx & Hilen & Hilt).
  unfold compute_objective_output, assign_log_probs.
  fold actions. rewrite Hf. simpl. rewrite Hb. simpl.
  unfold get_source_states_flat in *. simpl. rewrite Hsrc. simpl.
  rewrite Hflow. simpl.
  unfold get_reward_outputs. simpl. rewrite Hro. simpl.
  unfold get_index_flat in *. simpl. rewrite Hidx. simpl.
  rewrite (tensor_sub_same_length source_log_flow) by congruence. simpl.
  rewrite (tensor_sub_same_length forward_log_prob) by congruence. simpl.
  rewrite scatter_add_spec; cycle 1.
  { rewrite length_zip_with, Hflowlen, Hlr, Nat.min_id. by rewrite <- Hacts. }
  { rewrite length_zip_with, Hflen, Hblen, Nat.min_id. fold actions in Hilen.
    lia. }
  simpl. eexists _, _, index. split; [done|]. split; [done|]. done.
Qed.

End ConditionedTrajectoryBalanceObjective.

Arguments ObjectiveOutput : clear implicits.
Arguments ObjectiveBase : clear implicits.

(** A batch of two trajectories and a policy that is uniform over three
    actions ([log 1/3] is [-1] in the integer stand-in). *)
Definition toy_uniform_policy : PolicyBase xnum nat (list nat) nat unit :=
  {| sample_actions := fun rng states action_spaces =>
       Ok ((fun _ => 0%nat) <$> states, rng);
     compute_action_log_probs := fun states action_spaces actions =>
       Ok ((fun _ => Fin (-1)) <$> actions);
     compute_states_log_flow := fun states =>
       Ok ((fun s => Fin (Z.of_nat s)) <$> states) |}.

Definition toy_backward_policy : PolicyBase xnum nat (list nat) nat unit :=
  {| sample_actions := fun rng states action_spaces =>
       Ok ((fun _ => 0%nat) <$> states, rng);
     compute_action_log_probs := fun states action_spaces actions =>
       Ok ((fun _ => Fin 0) <$> actions);
     compute_states_log_flow := fun states => Raise RuntimeError |}.

Definition toy_reward_outputs : RewardApi.RewardOutput xnum unit :=
  {| RewardApi.log_reward := [Fin 1; Fin 2];
     RewardApi.reward := [Fin 2; Fin 4];
     RewardApi.proxy_value := [Fin 1; Fin 2];
     RewardApi.proxy_components := None |}.

Definition toy_trajectories : Trajectories xnum nat (list nat) nat unit :=
  {| _states_list := [[5; 2; 4; 6]; [7; 3; 6]]%nat;
     _forward_action_spaces_list :=
       [[[0; 1; 2]; [0; 1; 2]; [0; 1; 2]]; [[0; 1; 2]; [0; 1; 2]]]%nat;
     _backward_action_spaces_list :=
       [[[0; 1; 2]; [0; 1; 2]; [0; 1; 2]]; [[0; 1; 2]; [0; 1; 2]]]%nat;
     _actions_list := [[2; 2; 2]; [3; 3]]%nat;
     _reward_outputs := Some toy_reward_outputs;
     _forward_log_probs_flat := None;
     _backward_log_probs_flat := None |}.

Definition toy_objective : ObjectiveBase xnum nat (list nat) nat unit :=
  {| forward_policy := toy_uniform_policy;
     backward_policy := toy_backward_policy |}.

Lemma trajectory_balance_loss_witness :
  exists output trajectories' index,
    compute_objective_output toy_objective toy_trajectories
    = Ok (output, trajectories')
    /\ get_index_flat toy_trajectories = Ok index
    /\ loss output
       = mean_squared
           (trajectory_deltas [Fin 5; Fin 7] [Fin 1; Fin 2] index
              (replicate 5 (Fin (-1))) (replicate 5 (Fin 0))).
Proof.
  apply (trajectory_balance_loss toy_objective toy_trajectories
           toy_reward_outputs [5; 7]%nat
           [Fin 5; Fin 7] (replicate 5 (Fin (-1))) (replicate 5 (Fin 0)));
    reflexivity.
Defined.

(** The deltas are [5 - 1 - 3 = 1] and [7 - 2 - 2 = 3]; the loss is
    [(1 + 9) / 2]. *)
Example trajectory_balance_loss_example :
  (r ← compute_objective_output toy_objective toy_trajectories;
   Ok (loss r.1))
  = Ok (Fin 5).
Proof. reflexivity. Qed.

End Objective.

(** ** [rgfn/api/sampler_base.py]: [SamplerBase] *)

Module Sampler.
Import Torch TrajectoriesApi.

Section SamplerBase.
Context {R : Type} `{Float R}.
Context {State ActionSpace Action Components Rng : Type}.

Abbreviation Policy := (PolicyBase R State ActionSpace Action Rng).
Abbreviation Trajs := (Trajectories R State ActionSpace Action Components).

(** Modelled from the spec: the environment contract of the absent
    [EnvBase], pure functions over batches and the [is_reversed] flag. *)
Record EnvBase : Type := {
  get_terminal_mask : list State -> list bool;
  get_forward_action_spaces : list State -> list ActionSpace;
  get_backward_action_spaces : list State -> list ActionSpace;
  apply_forward_actions : list State -> list Action -> list State;
  is_reversed : bool
}.

Record SamplerBase : Type := {
  policy : Policy;
  env : EnvBase;
  reward : option (RewardApi.Reward R State Components)
}.

(** [itertools.compress(data, selectors)] *)
Definition compress {A} (data : list A) (selectors : list bool) : list A :=
  fst <$> filter (fun p => p.2 = true) (zip data selectors).

(** [all(mask)] *)
Definition py_all (mask : list bool) : bool := forallb id mask.

(** One pass of the body of the [while True] loop, after the test of the
    terminal mask. *)
Definition loop_body
    (self : SamplerBase) (trajectories : Trajs) (rng : Rng)
    (current_states : list State)
  : result (Trajs * Rng) :=
  let terminal_mask := get_terminal_mask (env self) current_states in
  let non_terminal_mask := negb <$> terminal_mask in
  let non_terminal_states := compress current_states non_terminal_mask in
  let forward_action_spaces :=
    get_forward_action_spaces (env self) non_terminal_states in
  '(new_actions, rng') ←
    sample_actions (policy self) rng non_terminal_states forward_action_spaces;
  let new_states :=
    apply_forward_actions (env self) non_terminal_states new_actions in
  let backward_action_spaces :=
    get_backward_action_spaces (env self) new_states in
  trajectories' ←
    add_actions_states trajectories forward_action_spaces
      backward_action_spaces new_actions new_states non_terminal_mask;
  Ok (trajectories', rng').

(** The [while True] loop. [None] means that the loop is still running
    when the fuel is used up. *)
Fixpoint rollout_loop
    (fuel : nat) (self : SamplerBase) (trajectories : Trajs) (rng : Rng)
  : option (result (Trajs * Rng)) :=
  match fuel with
  | O => None
  | S fuel' =>
      match get_last_states_flat trajectories with
      | Raise e => Some (Raise e)
      | Ok current_states =>
          let terminal_mask := get_terminal_mask (env self) current_states in
          if py_all terminal_mask then Some (Ok (trajectories, rng))
          else
            match loop_body self trajectories rng current_states with
            | Raise e => Some (Raise e)
            | Ok (trajectories', rng') =>
                rollout_loop fuel' self trajectories' rng'
            end
      end
  end.

(** What follows the loop: the reversal, then the reward. *)
Definition finalize (self : SamplerBase) (trajectories : Trajs)
  : result Trajs :=
  let trajectories :=
    if is_reversed (env self) then reversed trajectories else trajectories in
  match reward self with
  | Some reward =>
      last_states ← get_last_states_flat trajectories;
      let reward_outputs :=
        RewardApi.compute_reward_output reward last_states in
      Ok (set_reward_outputs trajectories reward_outputs)
  | None => Ok trajectories
  end.

Definition sample_trajectories_from_sources
    (fuel : nat) (self : SamplerBase) (rng : Rng) (source_states : list State)
  : option (result (Trajs * Rng)) :=
  let trajectories := add_source_states Trajectories_init source_states in
  match rollout_loop fuel self trajectories rng with
  | None => None
  | Some (Raise e) => Some (Raise e)
  | Some (Ok (trajectories, rng')) =>
      Some (trajectories ← finalize self trajectories;
            Ok (trajectories, rng'))
  end.

(** A run of the loop of [k] passes: every pass starts from a frontier
    that is not all terminal, and the run ends on the first container
    whose frontier is. *)
Inductive rollout_run (self : SamplerBase)
  : Trajs -> Rng -> nat -> Trajs -> Rng -> Prop :=
  | run_stop trajectories rng current_states :
      get_last_states_flat trajectories = Ok current_states ->
      py_all (get_terminal_mask (env self) current_states) = true ->
      rollout_run self trajectories rng 0 trajectories rng
  | run_step trajectories rng current_states trajectories1 rng1
             k trajectories' rng' :
      get_last_states_flat trajectories = Ok current_states ->
      py_all (get_terminal_mask (env self) current_states) = false ->
      loop_body self trajectories rng current_states
      = Ok (trajectories1, rng1) ->
      rollout_run self trajectories1 rng1 k trajectories' rng' ->
      rollout_run self trajectories rng (S k) trajectories' rng'.

(** The number of active trajectories before position [i]: the position,
    in the compressed batch, of the data of trajectory [i]. *)
Definition rank (mask : list bool) (i : nat) : nat :=
  length (filter (fun b => b = true) (take i mask)).
#[local] Arguments rank : simpl never.

(** [new_lists] is [old] with [new[rank i]] appended to the list of
    every position [i] that the mask marks, and nothing else changed. *)
Definition appended_only_to_active {A}
    (old new_lists : list (list A)) (new : list A) (mask : list bool)
  : Prop :=
  length new_lists = length old
  /\ forall i l, old !! i = Some l ->
       (mask !! i = Some false -> new_lists !! i = Some l)
       /\ (mask !! i = Some true ->
           exists x, new !! rank mask i = Some x
                     /\ new_lists !! i = Some (l ++ [x])).

Lemma rank_cons_true (mask : list bool) (i : nat) :
  rank (true :: mask) (S i) = S (rank mask i).
Proof.
  unfold rank. change (take (S i) (true :: mask)) with (true :: take i mask).
  by rewrite filter_cons_True.
Qed.

Lemma rank_cons_false (mask : list bool) (i : nat) :
  rank (false :: mask) (S i) = rank mask i.
Proof.
  unfold rank. change (take (S i) (false :: mask)) with (false :: take i mask).
  by rewrite filter_cons_False.
Qed.

Lemma append_to_active_spec {A}
    (lists : list (list A)) (new : list A) (mask : list bool)
    (lists' : list (list A)) :
  append_to_active lists new mask = Ok lists' ->
  appended_only_to_active lists lists' new mask.
Proof.
  revert new mask lists'.
  induction lists as [|l lists IH]; intros new mask lists' Happ.
  - destruct mask, new; simpl in Happ; try discriminate.
    injection Happ as <-. split; [done|]. by intros i l.
  - destruct mask as [|[|] mask]; simpl in Happ; try discriminate.
    + destruct new as [|x new]; [discriminate|].
      destruct (append_to_active lists new mask) as [rest|e] eqn:Hrest;
        simpl in Happ; [|discriminate].
      injection Happ as <-.
      destruct (IH _ _ _ Hrest) as [Hlen Hat]. split; [simpl; lia|].
      intros [|i] l0 Hl0; simpl in *.
      * injection Hl0 as <-. split; [done|]. intros _. by exists x.
      * destruct (Hat i l0 Hl0) as [Hf Ht]. split; [done|].
        intros Hm. destruct (Ht Hm) as (y & Hy & Hl').
        exists y. split; [exact Hy|exact Hl'].
    + destruct (append_to_active lists new mask) as [rest|e] eqn:Hrest;
        simpl in Happ; [|discriminate].
      injection Happ as <-.
      destruct (IH _ _ _ Hrest) as [Hlen Hat]. split; [simpl; lia|].
      intros [|i] l0 Hl0; simpl in *.
      * injection Hl0 as <-. split; [done|]. intros; discriminate.
      * destruct (Hat i l0 Hl0) as [Hf Ht]. split; [done|].
        intros Hm. destruct (Ht Hm) as (y & Hy & Hl').
        exists y. split; [exact Hy|exact Hl'].
Qed.

Lemma compress_rank {A} (data : list A) (selectors : list bool)
    (i : nat) (x : A) :
  data !! i = Some x -> selectors !! i = Some true ->
  compress data selectors !! rank selectors i = Some x.
Proof.
  revert selectors i.
  induction data as [|d data IH]; intros [|b selectors] [|i] Hd Hs;
    simpl in *; try discriminate.
  { injection Hd as ->. injection Hs as ->. done. }
  unfold compress in *. simpl. destruct b.
  - rewrite filter_cons_True by done. rewrite rank_cons_true. simpl.
    by apply IH.
  - rewrite filter_cons_False by (simpl; congruence).
    rewrite rank_cons_false. by apply IH.
Qed.

Lemma rollout_loop_run (self : SamplerBase) (fuel : nat)
    (trajectories : Trajs) (rng : Rng) (trajectories' : Trajs) (rng' : Rng) :
  rollout_loop fuel self trajectories rng = Some (Ok (trajectories', rng'))
  <-> exists k, (k < fuel)%nat
                /\ rollout_run self trajectories rng k trajectories' rng'.
Proof.
  split.
  - revert trajectories rng.
    induction fuel as [|fuel IH]; intros t rng; simpl; [done|].
    destruct (get_last_states_flat t) as [cs|e] eqn:Hcs; [|done].
    destruct (py_all _) eqn:Hall.
    + intros [= -> ->]. exists 0%nat. split; [lia|]. by eapply run_stop.
    + destruct (loop_body self t rng cs) as [[t1 rng1]|e] eqn:Hbody; [|done].
      intros (k & Hk & Hrun)%IH. exists (S k). split; [lia|].
      by eapply run_step.
  - intros (k & Hk & Hrun). revert fuel Hk.
    induction Hrun as [t rng cs Hcs Hall
                      |t rng cs t1 rng1 k t' rng' Hcs Hall Hbody _ IH];
      intros [|fuel] Hk; try lia; simpl; rewrite Hcs, Hall; [done|].
    rewrite Hbody. apply IH. lia.
Qed.

Lemma rollout_run_terminal (self : SamplerBase) trajectories rng k
    trajectories' rng' :
  rollout_run self trajectories rng k trajectories' rng' ->
  exists frontier,
    get_last_states_flat trajectories' = Ok frontier
    /\ py_all (get_terminal_mask (env self) frontier) = true.
Proof. induction 1; [by eexists|done]. Qed.

Lemma mapM_fmap {A B C} (f : B -> result C) (g : A -> B) (l : list A) :
  mapM f (g <$> l) = mapM (fun x => f (g x)) l.
Proof.
  induction l as [|x l IH]; [done|].
  rewrite fmap_cons. cbn [mapM]. by rewrite IH.
Qed.

Lemma mapM_ext {A B} (f g : A -> result B) (l : list A) :
  (forall x, f x = g x) -> mapM f l = mapM g l.
Proof.
  intros Hfg. induction l as [|x l IH]; simpl; [done|].
  by rewrite Hfg, IH.
Qed.

(** After the reversal the last states are the source states. *)
Lemma reversed_last_states (trajectories : Trajs) :
  get_last_states_flat (reversed trajectories)
  = get_source_states_flat trajectories.
Proof.
  unfold get_last_states_flat, get_source_states_flat. simpl.
  rewrite mapM_fmap. apply mapM_ext. intros l.
  unfold py_last, py_first, py_index.
  by rewrite last_reverse, head_lookup.
Qed.

Lemma loop_body_spec (self : SamplerBase) (trajectories : Trajs) (rng : Rng)
    (current_states : list State) (trajectories1 : Trajs) (rng1 : Rng) :
  loop_body self trajectories rng current_states
  = Ok (trajectories1, rng1) ->
  let terminal_mask := get_terminal_mask (env self) current_states in
  let active := negb <$> terminal_mask in
  let non_terminal_states := compress current_states active in
  let forward_action_spaces :=
    get_forward_action_spaces (env self) non_terminal_states in
  exists new_actions,
    sample_actions (policy self) rng non_terminal_states
      forward_action_spaces
    = Ok (new_actions, rng1)
    /\ let new_states :=
         apply_forward_actions (env self) non_terminal_states new_actions in
       let backward_action_spaces :=
         get_backward_action_spaces (env self) new_states in
       appended_only_to_active (_states_list trajectories)
         (_states_list trajectories1) new_states active
       /\ appended_only_to_active (_actions_list trajectories)
            (_actions_list trajectories1) new_actions active
       /\ appended_only_to_active (_forward_action_spaces_list trajectories)
            (_forward_action_spaces_list trajectories1)
            forward_action_spaces active
       /\ appended_only_to_active (_backward_action_spaces_list trajectories)
            (_backward_action_spaces_list trajectories1)
            backward_action_spaces active.
Proof.
  intros Hbody terminal_mask active nts fas.
  unfold loop_body in Hbody. fold terminal_mask active nts fas in Hbody.
  destruct (sample_actions (policy self) rng nts fas)
    as [[new_actions rng']|e] eqn:Hsample; [|done].
  simpl in Hbody. unfold add_actions_states in Hbody.
  destruct (append_to_active (_states_list trajectories) _ active)
    as [sl|e] eqn:Hs; [|done]. simpl in Hbody.
  destruct (append_to_active (_forward_action_spaces_list trajectories)
              _ active) as [fl|e] eqn:Hfl; [|done]. simpl in Hbody.
  destruct (append_to_active (_backward_action_spaces_list trajectories)
              _ active) as [bl|e] eqn:Hbl; [|done]. simpl in Hbody.
  destruct (append_to_active (_actions_list trajectories) _ active)
    as [al|e] eqn:Hal; [|done]. simpl in Hbody.
  injection Hbody as <- <-. exists new_actions. split; [done|]. simpl.
  split; [|split; [|split]]; by apply append_to_active_spec.
Qed.

(** The batch handed to the environment and the policy is the
    sub-batch of the frontier states that are not terminal, in order. *)
Definition only_non_terminal
    (current_states : list State) (terminal_mask : list bool)
    (non_terminal_states : list State) : Prop :=
  (forall i s,
      current_states !! i = Some s -> terminal_mask !! i = Some false ->
      non_terminal_states !! rank (negb <$> terminal_mask) i = Some s)
  /\ (forall s, s ∈ non_terminal_states ->
        exists i, current_states !! i = Some s
                  /\ terminal_mask !! i = Some false).

Lemma lookup_negb (mask : list bool) (i : nat) (b : bool) :
  (negb <$> mask) !! i = Some b <-> mask !! i = Some (negb b).
Proof.
  rewrite list_lookup_fmap. destruct (mask !! i) as [[|]|]; destruct b;
    simpl; split; congruence.
Qed.

Lemma compress_only_non_terminal
    (current_states : list State) (terminal_mask : list bool) :
  only_non_terminal current_states terminal_mask
    (compress current_states (negb <$> terminal_mask)).
Proof.
  split.
  - intros i s Hs Hm. apply compress_rank; [done|]. by apply lookup_negb.
  - intros s. unfold compress.
    intros ([s' b] & -> & [Hb Hin]%list_elem_of_filter)%list_elem_of_fmap.
    simpl in *. subst b.
    apply list_elem_of_lookup in Hin as [i Hi].
    apply lookup_zip_with_Some in Hi as (x & y & [= <- <-] & Hx & Hy).
    exists i. split; [done|]. by apply lookup_negb in Hy.
Qed.

(** C4. The rollout loop returns exactly the container reached by the
    run that stops on the first frontier whose states are all terminal.
    Each pass computes the forward action spaces, the sampled actions,
    the new states and their backward action spaces for the non-terminal
    frontier states only, and appends them to the trajectories of those
    states only. After the loop the container is reversed first when the
    environment's [is_reversed] is set, and only then, when a reward is
    configured, the reward output is computed on the last states of the
    resulting container and attached. *)
Theorem rollout_spec (self : SamplerBase) :
  (forall fuel trajectories rng trajectories' rng',
      rollout_loop fuel self trajectories rng
      = Some (Ok (trajectories', rng'))
      <-> exists k, (k < fuel)%nat
                    /\ rollout_run self trajectories rng k trajectories' rng')
  /\ (forall trajectories rng k trajectories' rng',
        rollout_run self trajectories rng k trajectories' rng' ->
        exists frontier,
          get_last_states_flat trajectories' = Ok frontier
          /\ py_all (get_terminal_mask (env self) frontier) = true)
  /\ (forall trajectories rng current_states trajectories1 rng1,
        loop_body self trajectories rng current_states
        = Ok (trajectories1, rng1) ->
        let terminal_mask := get_terminal_mask (env self) current_states in
        let active := negb <$> terminal_mask in
        let non_terminal_states := compress current_states active in
        let forward_action_spaces :=
          get_forward_action_spaces (env self) non_terminal_states in
        only_non_terminal current_states terminal_mask non_terminal_states
        /\ exists new_actions,
             sample_actions (policy self) rng non_terminal_states
               forward_action_spaces
             = Ok (new_actions, rng1)
             /\ let new_states :=
                  apply_forward_actions (env self) non_terminal_states
                    new_actions in
                let backward_action_spaces :=
                  get_backward_action_spaces (env self) new_states in
                appended_only_to_active (_states_list trajectories)
                  (_states_list trajectories1) new_states active
                /\ appended_only_to_active (_actions_list trajectories)
                     (_actions_list trajectories1) new_actions active
                /\ appended_only_to_active
                     (_forward_action_spaces_list trajectories)
                     (_forward_action_spaces_list trajectories1)
                     forward_action_spaces active
                /\ appended_only_to_active
                     (_backward_action_spaces_list trajectories)
                     (_backward_action_spaces_list trajectories1)
                     backward_action_spaces active)
  /\ (forall fuel rng source_states trajectories rng',
        rollout_loop fuel self
          (add_source_states Trajectories_init source_states) rng
        = Some (Ok (trajectories, rng')) ->
        let final :=
          if is_reversed (env self) then reversed trajectories
          else trajectories in
        sample_trajectories_from_sources fuel self rng source_states
        = Some (match reward self with
                | Some reward =>
                    last_states ← get_last_states_flat final;
                    Ok (set_reward_outputs final
                          (RewardApi.compute_reward_output reward last_states),
                        rng')
                | None => Ok (final, rng')
                end)
        /\ (is_reversed (env self) = true ->
            get_last_states_flat final
            = get_source_states_flat trajectories)).
Proof.
  split; [|split; [|split]].
  - intros fuel t rng t' rng'. apply rollout_loop_run.
  - intros t rng k t' rng'. apply rollout_run_terminal.
  - intros t rng cs t1 rng1 Hbody. simpl.
    split; [apply compress_only_non_terminal|].
    by apply loop_body_spec.
  - intros fuel rng sources t rng' Hloop. simpl. split.
    + unfold sample_trajectories_from_sources. rewrite Hloop.
      unfold finalize. destruct (reward self) as [r|]; [|done].
      by destruct (get_last_states_flat _).
    + intros ->. apply reversed_last_states.
Qed.

End SamplerBase.

Arguments EnvBase : clear implicits.
Arguments SamplerBase : clear implicits.

(** A counting environment: a state is a number, an action adds 1 or 2 to
    it, and a state from 3 on is terminal. The policy always adds 1. *)
Definition counting_env (reversed_env : bool) : EnvBase nat (list nat) nat :=
  {| get_terminal_mask := fun states =>
       (fun s => bool_decide (3 <= s)%nat) <$> states;
     get_forward_action_spaces := fun states => (fun _ => [1; 2]%nat) <$> states;
     get_backward_action_spaces := fun states => (fun _ => [1; 2]%nat) <$> states;
     apply_forward_actions := fun states actions => zip_with Nat.add states actions;
     is_reversed := reversed_env |}.

Definition add_one_policy : PolicyBase xnum nat (list nat) nat nat :=
  {| sample_actions := fun rng states action_spaces =>
       Ok ((fun _ => 1%nat) <$> states, S rng);
     compute_action_log_probs := fun states action_spaces actions =>
       Ok ((fun _ => Fin (-1)) <$> actions);
     compute_states_log_flow := fun states => Ok ((fun _ => Fin 0) <$> states) |}.

Definition state_proxy : RewardApi.ProxyBase xnum nat unit :=
  {| RewardApi.compute_proxy_output := fun states =>
       {| RewardApi.value := (fun s => Fin (Z.of_nat s)) <$> states;
          RewardApi.components := None |};
     RewardApi.is_non_negative := true;
     RewardApi.higher_is_better := true |}.

Definition state_reward : RewardApi.Reward xnum nat unit :=
  {| RewardApi.proxy := state_proxy;
     RewardApi.reward_boosting := "exponential";
     RewardApi.min_reward := Fin 0;
     RewardApi.min_log_reward := NInf;
     RewardApi.beta := Fin 1 |}.

Definition counting_sampler (reversed_env : bool)
  : SamplerBase xnum nat (list nat) nat unit nat :=
  {| policy := add_one_policy;
     env := counting_env reversed_env;
     reward := Some state_reward |}.

(** What the examples look at: the states, the actions, the attached
    log-rewards and the final state of the generator. *)
Definition run_summary
    (run : option (result (Trajectories xnum nat (list nat) nat unit * nat)))
  : option (result (list (list nat) * list (list nat)
                    * option (list xnum) * nat)) :=
  match run with
  | None => None
  | Some (Raise e) => Some (Raise e)
  | Some (Ok (trajectories, rng)) =>
      Some (Ok (_states_list trajectories, _actions_list trajectories,
                match _reward_outputs trajectories with
                | Some reward_outputs =>
                    Some (RewardApi.log_reward reward_outputs)
                | None => None
                end,
                rng))
  end.

(** Three sources; the third is terminal from the start and is never
    extended, the second stops after one pass, the first after three. *)
Example rollout_example :
  run_summary
    (sample_trajectories_from_sources 5 (counting_sampler false) 0%nat
       [0; 2; 3]%nat)
  = Some (Ok ([[0; 1; 2; 3]; [2; 3]; [3]]%nat,
              [[1; 1; 1]; [1]; []]%nat,
              Some [Fin 3; Fin 3; Fin 3],
              3%nat)).
Proof. reflexivity. Qed.

(** With [is_reversed] the reward is computed after the reversal, on the
    states the rollout started from. *)
Example rollout_reversed_example :
  run_summary
    (sample_trajectories_from_sources 5 (counting_sampler true) 0%nat
       [0; 2; 3]%nat)
  = Some (Ok ([[3; 2; 1; 0]; [3; 2]; [3]]%nat,
              [[1; 1; 1]; [1]; []]%nat,
              Some [Fin 0; Fin 2; Fin 3],
              3%nat)).
Proof. reflexivity. Qed.

(** Three passes are needed: with fuel 3 the loop is still running. *)
Example rollout_out_of_fuel :
  rollout_loop 3 (counting_sampler false)
    (add_source_states Trajectories_init [0; 2; 3]%nat) 0%nat
  = None.
Proof. reflexivity. Qed.

End Sampler.

(** ** The pieces together

    A few-phase policy used as the policy of the sampler and of the
    objective, on the counting environment. *)

Module Pipeline.
Import Torch TrajectoriesApi.

(** A [FewPhasePolicyBase] seen through the policy contract. The class
    leaves [compute_states_log_flow] to its subclasses; the backward
    policy of the repository raises [NotImplementedError], a
    [RuntimeError]. *)
Definition few_phase_policy
    (self : FewPhasePolicy.FewPhasePolicyBase xnum nat
              FewPhasePolicy.toy_space nat unit)
  : PolicyBase xnum nat FewPhasePolicy.toy_space nat nat :=
  {| sample_actions := FewPhasePolicy.toy_sample_actions self;
     compute_action_log_probs :=
       FewPhasePolicy.toy_compute_action_log_probs self;
     compute_states_log_flow := fun states => Raise RuntimeError |}.

Definition steps_policy :=
  few_phase_policy
    (FewPhasePolicy.toy_policy [(0%nat, FewPhasePolicy.uniform_forward)]).

Definition steps_env : Sampler.EnvBase nat FewPhasePolicy.toy_space nat :=
  {| Sampler.get_terminal_mask := fun states =>
       (fun s => bool_decide (3 <= s)%nat) <$> states;
     Sampler.get_forward_action_spaces := fun states =>
       (fun _ => {| FewPhasePolicy.space_type := 0;
                    FewPhasePolicy.possible_actions := [1; 2]%nat |})
         <$> states;
     Sampler.get_backward_action_spaces := fun states =>
       (fun _ => {| FewPhasePolicy.space_type := 0;
                    FewPhasePolicy.possible_actions := [1; 2]%nat |})
         <$> states;
     Sampler.apply_forward_actions := fun states actions =>
       zip_with Nat.add states actions;
     Sampler.is_reversed := false |}.

Definition steps_sampler
  : Sampler.SamplerBase xnum nat FewPhasePolicy.toy_space nat unit nat :=
  {| Sampler.policy := steps_policy;
     Sampler.env := steps_env;
     Sampler.reward := Some Sampler.state_reward |}.

Definition steps_objective
  : Objective.ObjectiveBase xnum nat FewPhasePolicy.toy_space nat nat :=
  {| Objective.forward_policy := steps_policy;
     Objective.backward_policy := steps_policy |}.

(** Sampling from sources and assigning the log-probabilities. *)
Definition sample_and_assign (source_states : list nat)
  : option (result (option (list xnum))) :=
  match Sampler.sample_trajectories_from_sources 5 steps_sampler 0%nat
          source_states with
  | None => None
  | Some (Raise e) => Some (Raise e)
  | Some (Ok (trajectories, rng)) =>
      Some (trajectories ←
              Objective.assign_log_probs steps_objective trajectories;
            Ok (_forward_log_probs_flat trajectories))
  end.

Example assign_after_sampling :
  sample_and_assign [0; 3]%nat = Some (Ok (Some [Fin 0; Fin 0; Fin 0])).
Proof. reflexivity. Qed.

(** Source states that are all terminal give a batch without any
    action; the empty batch then reaches [compute_action_log_probs],
    which raises. *)
Example empty_batch_reached_from_sampler :
  sample_and_assign [3; 4]%nat = Some (Raise RuntimeError).
Proof. reflexivity. Qed.

End Pipeline.

(** * More of the code

    The rest of the files above, with the behaviour their code shows. *)

(** ** [Cache]: lookups, removals and the sizes that store nothing *)

Module CacheFacts.
Import DataStructures.

Section CacheFacts.
Context {K V : Type} `{EqDecision K}.

(** [item in self._cache] *)
Definition __contains__ (self : Cache K V) (item : K) : bool :=
  bool_decide (item ∈ (_cache self).*1).

Lemma dict_get_None (d : dict K V) (key : K) :
  dict_get d key = None <-> key ∉ d.*1.
Proof.
  induction d as [|[k v] d IH]; simpl.
  - split; [intros _; apply not_elem_of_nil|done].
  - destruct (decide (k = key)) as [->|Hne].
    + split; [done|]. intros Hnin. destruct Hnin. left.
    + rewrite IH, not_elem_of_cons. naive_solver.
Qed.

Lemma dict_get_elem_of (d : dict K V) (key : K) (value : V) :
  dict_get d key = Some value -> (key, value) ∈ d.
Proof.
  induction d as [|[k v] d IH]; simpl; [done|].
  destruct (decide (k = key)) as [->|Hne].
  - intros [= ->]. left.
  - intros Hin. right. by apply IH.
Qed.

Lemma elem_of_dict_get (d : dict K V) (key : K) (value : V) :
  NoDup d.*1 -> (key, value) ∈ d -> dict_get d key = Some value.
Proof.
  induction d as [|[k v] d IH]; simpl; [by intros _ ?%elem_of_nil|].
  intros [Hk Hnd]%NoDup_cons [[= <- <-]|Hin]%elem_of_cons.
  - by rewrite decide_True.
  - destruct (decide (k = key)) as [->|Hne]; [|by apply IH].
    destruct Hk. apply list_elem_of_fmap. by exists (key, value).
Qed.

Lemma dict_get_dict_set_eq (d : dict K V) (key : K) (value : V) :
  dict_get (dict_set d key value) key = Some value.
Proof.
  induction d as [|[k v] d IH]; simpl.
  - by rewrite decide_True.
  - destruct (decide (k = key)) as [->|Hne]; simpl.
    + by rewrite decide_True.
    + by rewrite decide_False.
Qed.

Lemma dict_get_dict_set_ne (d : dict K V) (key key' : K) (value : V) :
  key' <> key -> dict_get (dict_set d key value) key' = dict_get d key'.
Proof.
  intros Hne. induction d as [|[k v] d IH]; simpl.
  - by rewrite decide_False.
  - destruct (decide (k = key)) as [->|Hk]; simpl.
    + by rewrite !decide_False.
    + destruct (decide (k = key')); [done|apply IH].
Qed.

Lemma dict_get_app_fresh (d : dict K V) (key : K) (value : V) :
  key ∉ d.*1 -> dict_get (d ++ [(key, value)]) key = Some value.
Proof.
  induction d as [|[k v] d IH]; simpl.
  - by rewrite decide_True.
  - intros [Hne Hnin]%not_elem_of_cons.
    rewrite decide_False by done. by apply IH.
Qed.

Lemma dict_set_NoDup (d : dict K V) (key : K) (value : V) :
  NoDup d.*1 -> NoDup (dict_set d key value).*1.
Proof.
  intros Hnd. destruct (decide (key ∈ d.*1)) as [Hin|Hnin].
  - by rewrite dict_set_present.
  - rewrite dict_set_fresh by done. rewrite fmap_app. simpl.
    apply NoDup_app. split; [done|]. split; [|apply NoDup_singleton].
    by intros k Hk ->%list_elem_of_singleton.
Qed.

Lemma drop_keys_NoDup (d : dict K V) (n : nat) :
  NoDup d.*1 -> NoDup (drop n d).*1.
Proof.
  intros Hnd. rewrite fmap_drop.
  eapply sublist_NoDup; [done|apply sublist_drop].
Qed.

Lemma dict_pop_sublist (d d' : dict K V) (key : K) :
  dict_pop d key = Ok d' -> d' `sublist_of` d.
Proof.
  revert d'. induction d as [|[k v] d IH]; intros d'; simpl; [done|].
  destruct (decide (k = key)).
  - intros [= ->]. by apply sublist_cons.
  - destruct (dict_pop d key) as [d''|e]; simpl; [|done].
    intros [= <-]. apply sublist_skip. by apply IH.
Qed.

Lemma dict_pop_Raise (d : dict K V) (key : K) :
  is_Raise (dict_pop d key) <-> key ∉ d.*1.
Proof.
  induction d as [|[k v] d IH]; simpl.
  - split; [intros _; apply not_elem_of_nil|by eexists].
  - rewrite not_elem_of_cons. destruct (decide (k = key)) as [->|Hne].
    + split; [by intros [e ?]|by intros [? _]].
    + destruct (dict_pop d key) as [d'|e]; simpl.
      * split; [by intros [e ?]|].
        intros [_ Hnin]. apply IH in Hnin as [e ?]. done.
      * split; [|by eexists]. intros _. split; [done|].
        apply IH. by eexists.
Qed.

Lemma dict_pop_gone (d d' : dict K V) (key : K) :
  NoDup d.*1 -> dict_pop d key = Ok d' ->
  (key ∉ d'.*1)
  /\ forall key', key' <> key -> dict_get d' key' = dict_get d key'.
Proof.
  revert d'. induction d as [|[k v] d IH]; intros d'; simpl; [done|].
  intros [Hk Hnd]%NoDup_cons. destruct (decide (k = key)) as [->|Hne].
  - intros [= ->]. split; [done|]. intros key' Hne.
    by rewrite decide_False.
  - destruct (dict_pop d key) as [d''|e] eqn:Hpop; simpl; [|done].
    intros [= <-]. destruct (IH d'' Hnd eq_refl) as [Hgone Hother].
    split.
    + simpl. apply not_elem_of_cons. done.
    + intros key' Hne'. simpl. destruct (decide (k = key')); [done|].
      by apply Hother.
Qed.

(** Whatever [max_size] is, [__setitem__] raises nothing and leaves a
    tail of the dict that holds the new entry. *)
Lemma __setitem___suffix (self : Cache K V) (key : K) (value : V) :
  exists self' n,
    __setitem__ self key value = Ok self'
    /\ _cache self' = drop n (dict_set (_cache self) key value)
    /\ max_size self' = max_size self
    /\ real_max_size self' = real_max_size self.
Proof.
  unfold __setitem__.
  destruct (real_max_size self) as [r|] eqn:Hreal;
    [|by exists (with_cache self (dict_set (_cache self) key value)), 0%nat].
  destruct (decide _);
    [|by exists (with_cache self (dict_set (_cache self) key value)), 0%nat].
  unfold _limit_the_size.
  destruct (max_size self) as [m|] eqn:Hmax;
    [|by exists (with_cache self (dict_set (_cache self) key value)), 0%nat].
  destruct (decide _);
    [by exists (with_cache self (dict_set (_cache self) key value)), 0%nat|].
  rewrite pop_all_oldest. simpl. by eexists _, _.
Qed.

(** What every cache reached from [__init__] satisfies, for any
    [max_size]. *)
Definition reachable_inv (size : option Z) (self : Cache K V) : Prop :=
  max_size self = size
  /\ real_max_size self = int_1_05_times <$> size
  /\ NoDup (_cache self).*1.

Lemma __setitem___reachable size (self : Cache K V) (key : K) (value : V) :
  reachable_inv size self ->
  exists self' n,
    __setitem__ self key value = Ok self'
    /\ _cache self' = drop n (dict_set (_cache self) key value)
    /\ reachable_inv size self'.
Proof.
  intros (Hmax & Hreal & Hnd).
  destruct (__setitem___suffix self key value)
    as (self' & n & Hset & Hcache & Hmax' & Hreal').
  exists self', n. split; [done|]. split; [done|].
  split; [congruence|]. split; [congruence|].
  rewrite Hcache. by apply drop_keys_NoDup, dict_set_NoDup.
Qed.

Lemma run_ops_reachable size (ops : list (cache_op K V)) (self : Cache K V) :
  reachable_inv size self ->
  exists self', run_ops self ops = Ok self' /\ reachable_inv size self'.
Proof.
  revert self.
  induction ops as [|op ops IH]; intros self Hinv; simpl; [by eexists|].
  assert (exists self1, apply_op self op = Ok self1 /\ reachable_inv size self1)
    as (self1 & -> & Hinv1).
  { destruct op as [key value|key|]; simpl.
    - destruct (__setitem___reachable size self key value Hinv)
        as (self1 & n & ? & _ & ?). by exists self1.
    - eexists. split; [done|]. destruct Hinv as (? & ? & Hnd).
      split; [done|]. split; [done|]. simpl. unfold dict_pop_default.
      destruct (dict_pop (_cache self) key) as [d'|e] eqn:Hpop; [|done].
      eapply sublist_NoDup; [done|]. by eapply fmap_sublist, dict_pop_sublist.
    - eexists. split; [done|]. destruct Hinv as (? & ? & Hnd).
      split; [done|]. split; [done|]. simpl. constructor. }
  simpl. by apply IH.
Qed.

Lemma __init___reachable size : reachable_inv size (__init__ size).
Proof. split; [done|]. split; [done|]. simpl. constructor. Qed.





End CacheFacts.

Arguments __contains__ {K V _} self item.



(** With room for one entry the cache keeps the entry written last. *)
Example cache_of_size_one :
  (self ← run_ops (K:=nat) (V:=nat) (__init__ (Some 1))
            [SetItem 7 70; SetItem 8 80; SetItem 9 90]%nat;
   Ok (_cache self))
  = Ok [(9, 90)]%nat.
Proof. reflexivity. Qed.

End CacheFacts.

(** ** [rgfn/utils/helpers.py]: errors of [to_indices], a full
    [ContentHeap], [dict_mean] *)

Module HelpersFacts.
Import Helpers Torch.

(** [to_indices] raises exactly on a tensor with a negative count. *)
Theorem to_indices_raises_iff (counts : list Z) :
  is_Raise (to_indices counts) <-> Exists (fun c => c < 0) counts.
Proof.
  split.
  - intros [e He].
    destruct (decide (Exists (fun c => c < 0) counts)) as [|Hno]; [done|].
    assert (Forall (fun c => 0 <= c) counts) as Hnn.
    { apply Forall_forall. intros c Hc.
      destruct (decide (0 <= c)) as [|Hneg]; [done|].
      destruct Hno. apply Exists_exists. exists c. split; [done|lia]. }
    unfold to_indices, arange in He.
    by rewrite repeat_interleave_seq in He.
  - apply repeat_interleave_negative.
Qed.

Section HeapqCases.
Context {E : Type} (lt : E -> E -> bool).

(** [heappushpop] on a heap whose root is smaller than the new entry: the
    root is returned and the new entry takes a place among the rest. *)
Lemma heappushpop_root (root : E) (rest : list E) (entry : E) :
  lt root entry = true ->
  exists heap',
    heappushpop lt (root :: rest) entry = Ok (root, heap')
    /\ heap' ≡ₚ entry :: rest.
Proof.
  intros Hlt. unfold heappushpop. rewrite Hlt.
  destruct (_siftup_perm lt (<[0%nat:=entry]> (root :: rest)) 0)
    as (heap' & -> & Hperm); [simpl; lia|].
  by exists heap'.
Qed.

End HeapqCases.

Section FullHeap.
Context {Item : Type} `{Countable Item}.
Context {Val : Type} (val_lt : Val -> Val -> bool).

(** A push of a new item on a heap that is at capacity. When the heap
    is empty (capacity 0) or the value is not above the value at the
    root, the push changes nothing: the new item is refused. Otherwise
    the root entry is the one that leaves: its item is forgotten and the
    new entry is stored with the others. *)
Theorem content_heap_push_when_full
    (capacity : Z) (pushes : list (Val * Item))
    (new_value : Val) (new_item : Item) :
  0 <= capacity ->
  exists self,
    push_all val_lt (ContentHeap_init capacity) pushes = Ok self
    /\ (Z.of_nat (ContentHeap_len self) = capacity ->
        new_item ∉ stored_items self ->
        match heap self with
        | [] => push val_lt self new_value new_item = Ok self
        | root :: rest =>
            if val_lt (value root) new_value then
              exists self',
                push val_lt self new_value new_item = Ok self'
                /\ heap self'
                   ≡ₚ {| value := new_value; item := new_item |} :: rest
                /\ items self' = {[new_item]} ∪ (items self ∖ {[item root]})
                /\ (item root ∉ stored_items self')
                /\ new_item ∈ stored_items self'
            else push val_lt self new_value new_item = Ok self
        end).
Proof.
  intros Hcap.
  destruct (push_all_inv val_lt capacity pushes (ContentHeap_init capacity)
              Hcap) as (self & Hrun & (Hmax & Hlen & Hnd & Hitems)).
  { repeat split; simpl; [lia|constructor]. }
  exists self. split; [done|]. intros Hfull Hfresh.
  unfold ContentHeap_len in Hfull.
  assert (new_item ∉ items self) as Hnin.
  { rewrite Hitems. by rewrite elem_of_list_to_set. }
  assert (forall heap1,
            heap1 = heap self ->
            ({[new_item]} ∪ items self) ∖ {[new_item]} = items self ->
            Ok {| max_size := max_size self; heap := heap1;
                  items := ({[new_item]} ∪ items self) ∖ {[new_item]} |}
            = Ok self) as Hsame.
  { intros heap1 -> ->. by destruct self. }
  assert (({[new_item]} ∪ items self) ∖ {[new_item]} = items self) as Hback
    by set_solver.
  unfold push, stored_items in *.
  rewrite decide_False by done.
  rewrite decide_False by lia.
  destruct (heap self) as [|root rest] eqn:Hheap.
  - simpl. unfold set_remove. rewrite decide_True by set_solver. simpl.
    apply Hsame; done.
  - unfold heappushpop at 1. simpl.
    destruct (val_lt (value root) new_value) eqn:Hlt.
    + destruct (heappushpop_root (__lt__ val_lt) root rest
                  {| value := new_value; item := new_item |})
        as (heap' & Hpp & Hperm); [done|].
      unfold heappushpop in Hpp. unfold __lt__ at 1 in Hpp. simpl in Hpp.
      rewrite Hlt in Hpp.
      destruct (_siftup _ _ _) as [heap1|e]; simpl in *; [|done].
      injection Hpp as ->.
      unfold __lt__ at 1. simpl. rewrite Hlt. simpl.
      rewrite Hitems. simpl in *.
      apply NoDup_cons in Hnd as [Hroot Hnd].
      unfold set_remove. rewrite decide_True by set_solver. simpl.
      eexists. split; [reflexivity|]. simpl.
      split; [done|]. split; [set_solver|].
      rewrite Hperm. simpl. split; [|left].
      apply not_elem_of_cons. split; [|done].
      intros Heq. apply Hfresh. rewrite <- Heq. left.
    + unfold __lt__ at 1. simpl. rewrite Hlt. simpl.
      unfold set_remove. rewrite decide_True by set_solver. simpl.
      apply Hsame; done.
Qed.

End FullHeap.

Lemma content_heap_push_when_full_witness :
  exists self : ContentHeap (Item:=nat) Z,
    push_all Z.ltb (ContentHeap_init 2) [(5, 1%nat); (3, 2%nat)] = Ok self
    /\ (Z.of_nat (ContentHeap_len self) = 2 ->
        7%nat ∉ stored_items self ->
        match heap self with
        | [] => push Z.ltb self 4 7%nat = Ok self
        | root :: rest =>
            if Z.ltb (value root) 4 then
              exists self',
                push Z.ltb self 4 7%nat = Ok self'
                /\ heap self' ≡ₚ {| value := 4; item := 7%nat |} :: rest
                /\ items self' = {[7%nat]} ∪ (items self ∖ {[item root]})
                /\ (item root ∉ stored_items self')
                /\ 7%nat ∈ stored_items self'
            else push Z.ltb self 4 7%nat = Ok self
        end).
Proof.
  apply (content_heap_push_when_full Z.ltb 2 [(5, 1%nat); (3, 2%nat)]
           4 7%nat).
  lia.
Defined.

(** *** [dict_mean] *)

Section DictMean.
Context {R : Type} `{Float R}.

Abbreviation metrics := (DataStructures.dict string R).

(** [d[key]]: raises [KeyError] when the key is absent. *)
Definition dict_getitem (d : metrics) (key : string) : result R :=
  match DataStructures.dict_get d key with
  | Some v => Ok v
  | None => Raise KeyError
  end.

(** [sum(values)]: the built-in starts from 0 and adds from the left. *)
Definition py_sum (values : list R) : R := foldl f_add f_zero values.

(** The body of [for key in dict_list[0].keys()]. *)
Fixpoint dict_mean_loop
    (dict_list : list metrics) (mean_dict : metrics) (keys : list string)
  : result metrics :=
  match keys with
  | [] => Ok mean_dict
  | key :: keys' =>
      values ← mapM (fun d => dict_getitem d key) dict_list;
      let mean := f_div (py_sum values) (f_of_nat (length dict_list)) in
      dict_mean_loop dict_list
        (DataStructures.dict_set mean_dict key mean) keys'
  end.

Definition dict_mean (dict_list : list metrics) : result metrics :=
  first ← py_index dict_list 0;
  dict_mean_loop dict_list [] first.*1.

(** The mean of the values a key has in the dicts that hold it. *)
Definition mean_of (dict_list : list metrics) (key : string) : R :=
  f_div (py_sum (omap (fun d => DataStructures.dict_get d key) dict_list))
        (f_of_nat (length dict_list)).

Lemma mapM_dict_getitem (dict_list : list metrics) (key : string) :
  Forall (fun d => key ∈ d.*1) dict_list ->
  mapM (fun d => dict_getitem d key) dict_list
  = Ok (omap (fun d => DataStructures.dict_get d key) dict_list).
Proof.
  induction 1 as [|d dl Hd _ IH]; [done|].
  cbn [mapM omap list_omap]. rewrite IH.
  unfold dict_getitem.
  destruct (DataStructures.dict_get d key) as [v|] eqn:Hget; [done|].
  by apply CacheFacts.dict_get_None in Hget.
Qed.

Lemma mapM_dict_getitem_missing (dict_list : list metrics) (key : string) :
  Exists (fun d => key ∉ d.*1) dict_list ->
  mapM (fun d => dict_getitem d key) dict_list = Raise KeyError.
Proof.
  induction 1 as [d dl Hd|d dl _ IH]; cbn [mapM].
  - unfold dict_getitem.
    apply CacheFacts.dict_get_None in Hd. by rewrite Hd.
  - rewrite IH. unfold dict_getitem.
    by destruct (DataStructures.dict_get d key).
Qed.

Lemma dict_mean_loop_ok
    (dict_list : list metrics) (keys : list string) (mean_dict : metrics) :
  NoDup (mean_dict.*1 ++ keys) ->
  Forall (fun key => Forall (fun d => key ∈ d.*1) dict_list) keys ->
  dict_mean_loop dict_list mean_dict keys
  = Ok (mean_dict ++ ((fun key => (key, mean_of dict_list key)) <$> keys)).
Proof.
  revert mean_dict.
  induction keys as [|key keys IH]; intros mean_dict Hnd Hall; simpl.
  - by rewrite app_nil_r.
  - apply Forall_cons in Hall as [Hkey Hall].
    rewrite mapM_dict_getitem by done. simpl.
    apply NoDup_app in Hnd as (Hnd1 & Hdisj & Hnd2).
    apply NoDup_cons in Hnd2 as [Hfresh Hnd2].
    rewrite DataStructures.dict_set_fresh
      by (intros Hin; apply (Hdisj key Hin); left).
    rewrite IH; [by rewrite <- app_assoc| |done].
    rewrite fmap_app. simpl. rewrite <- app_assoc. simpl.
    apply NoDup_app. split; [done|]. split; [|by constructor].
    intros k Hk. by apply Hdisj.
Qed.

Lemma dict_mean_loop_missing
    (dict_list : list metrics) (keys : list string) (mean_dict : metrics) :
  Exists (fun key => Exists (fun d => key ∉ d.*1) dict_list) keys ->
  dict_mean_loop dict_list mean_dict keys = Raise KeyError.
Proof.
  revert mean_dict.
  induction keys as [|key keys IH]; intros mean_dict Hex; simpl;
    [by apply Exists_nil in Hex|].
  destruct (mapM _ dict_list) as [values|e] eqn:Hvalues; simpl.
  - apply Exists_cons in Hex as [Hkey|Hex]; [|by apply IH].
    by rewrite mapM_dict_getitem_missing in Hvalues.
  - destruct (decide (Exists (fun d => key ∉ d.*1) dict_list)) as [Hk|Hk].
    + rewrite mapM_dict_getitem_missing in Hvalues by done. congruence.
    + rewrite mapM_dict_getitem in Hvalues; [done|].
      apply Forall_forall. intros d Hd.
      destruct (decide (key ∈ d.*1)) as [|Hnin]; [done|].
      destruct Hk. apply Exists_exists. by exists d.
Qed.

(** [dict_mean] raises [IndexError] on the empty list. On a list whose
    dicts all hold the keys of the first, it returns the keys of the
    first dict, in its order, each with the mean of its values: a key
    that only a later dict holds is dropped without notice. As soon as a
    dict lacks a key of the first, the call raises [KeyError]. *)
Theorem dict_mean_spec (first : metrics) (rest : list metrics) :
  NoDup first.*1 ->
  dict_mean [] = Raise IndexError
  /\ (Forall (fun key => Forall (fun d => key ∈ d.*1) rest) first.*1 ->
      dict_mean (first :: rest)
      = Ok ((fun key => (key, mean_of (first :: rest) key)) <$> first.*1))
  /\ (Exists (fun key => Exists (fun d => key ∉ d.*1) rest) first.*1 ->
      dict_mean (first :: rest) = Raise KeyError).
Proof.
  intros Hnd. split; [done|]. unfold dict_mean. simpl. split.
  - intros Hall. rewrite dict_mean_loop_ok; [done|done|].
    apply Forall_forall. intros key Hkey. constructor; [done|].
    eapply Forall_forall in Hall; done.
  - intros Hex. apply dict_mean_loop_missing.
    eapply Exists_impl; [done|]. intros key Hkey. by right.
Qed.

End DictMean.

Lemma dict_mean_spec_witness :
  let first : DataStructures.dict string xnum :=
    [("loss", Fin 4); ("acc", Fin 10)]%string in
  let rest : list (DataStructures.dict string xnum) :=
    [[("acc", Fin 20); ("mrr", Fin 1); ("loss", Fin 2)]]%string in
  dict_mean (R:=xnum) [] = Raise IndexError
  /\ (Forall (fun key => Forall (fun d => key ∈ d.*1) rest) first.*1 ->
      dict_mean (first :: rest)
      = Ok ((fun key => (key, mean_of (first :: rest) key)) <$> first.*1))
  /\ (Exists (fun key => Exists (fun d => key ∉ d.*1) rest) first.*1 ->
      dict_mean (first :: rest) = Raise KeyError).
Proof.
  apply (dict_mean_spec (R:=xnum) [("loss", Fin 4); ("acc", Fin 10)]%string).
  simpl. repeat constructor; set_solver.
Defined.

Example dict_mean_example :
  dict_mean (R:=xnum)
    [[("loss", Fin 4); ("acc", Fin 10)];
     [("acc", Fin 20); ("mrr", Fin 1); ("loss", Fin 2)]]%string
  = Ok [("loss", Fin 3); ("acc", Fin 15)]%string.
Proof. reflexivity. Qed.

Example dict_mean_missing_key :
  dict_mean (R:=xnum) [[("loss", Fin 4)]; [("acc", Fin 20)]]%string
  = Raise KeyError.
Proof. reflexivity. Qed.

End HelpersFacts.

(** ** [Reward]: linear boosting and the floor of the clamp *)

Module RewardFacts.
Import Torch RewardApi.

Section RewardFacts.
Context {R : Type} `{Float R}.
Context {State Components : Type}.

(** With linear boosting on a non-negative proxy, [reward] is
    [clamp(signed_value * beta, min = min_reward)] and [log_reward] is
    its logarithm; the proxy value is reported unsigned and the
    components are passed on. *)
Theorem linear_reward_output
    (proxy : ProxyBase R State Components) (min_reward beta : R)
    (states : list State) :
  is_non_negative proxy = true ->
  exists self,
    __init__ proxy "linear" min_reward beta = Ok self
    /\ let output := compute_reward_output self states in
       let proxy_output := compute_proxy_output proxy states in
       let signed_value :=
         if higher_is_better proxy then value proxy_output
         else f_neg <$> value proxy_output in
       reward output
       = (fun v => clamp_min min_reward (f_mul v beta)) <$> signed_value
       /\ log_reward output = f_log <$> reward output
       /\ proxy_value output = value proxy_output
       /\ proxy_components output = components proxy_output.
Proof.
  intros Hnn. unfold __init__. rewrite decide_True by set_solver.
  rewrite decide_False by (intros [_ ?]; congruence).
  eexists. split; [reflexivity|]. simpl.
  unfold compute_reward_output. simpl.
  by rewrite <- list_fmap_compose.
Qed.

(** Whatever the proxy returns, no [reward] is below [min_reward] under
    linear boosting and no [log_reward] is below [min_log_reward] under
    exponential boosting, for an order in which no value is below itself;
    and there is one reward and one log-reward per proxy value. *)
Theorem reward_never_below_floor
    (self : Reward R State Components) (states : list State) :
  (forall x : R, f_ltb x x = false) ->
  let output := compute_reward_output self states in
  (reward_boosting self = "linear" ->
   Forall (fun r => f_ltb r (min_reward self) = false) (reward output))
  /\ (reward_boosting self <> "linear" ->
      Forall (fun l => f_ltb l (min_log_reward self) = false)
             (log_reward output))
  /\ length (reward output) = length (proxy_value output)
  /\ length (log_reward output) = length (proxy_value output).
Proof.
  intros Hirr. unfold compute_reward_output.
  assert (forall m (l : list R),
            Forall (fun r => f_ltb r m = false) (clamp_min m <$> l))
    as Hclamp.
  { intros m l. apply Forall_fmap, Forall_forall. intros x _. simpl.
    unfold clamp_min. destruct (f_ltb x m) eqn:Hx; [apply Hirr|done]. }
  destruct (decide (reward_boosting self = "linear")) as [Hlin|Hexp]; simpl.
  - split; [intros _; apply Hclamp|]. split; [done|].
    rewrite !length_fmap. by destruct (higher_is_better _);
      rewrite ?length_fmap.
  - split; [done|]. split; [intros _; apply Hclamp|].
    rewrite !length_fmap. by destruct (higher_is_better _);
      rewrite ?length_fmap.
Qed.

End RewardFacts.

Lemma xltb_irrefl (x : xnum) : xltb x x = false.
Proof. destruct x; simpl; try done. apply bool_decide_eq_false. lia. Qed.

Lemma linear_reward_output_witness :
  exists self,
    __init__ (id_proxy true false) "linear" (Fin 1) (Fin 2) = Ok self
    /\ let output := compute_reward_output self [3; -1] in
       let proxy_output := compute_proxy_output (id_proxy true false) [3; -1] in
       let signed_value :=
         if higher_is_better (id_proxy true false) then value proxy_output
         else f_neg <$> value proxy_output in
       reward output
       = (fun v => clamp_min (Fin 1) (f_mul v (Fin 2))) <$> signed_value
       /\ log_reward output = f_log <$> reward output
       /\ proxy_value output = value proxy_output
       /\ proxy_components output = components proxy_output.
Proof.
  apply (linear_reward_output (id_proxy true false) (Fin 1) (Fin 2) [3; -1]).
  reflexivity.
Defined.

Lemma reward_never_below_floor_witness :
  let self := Sampler.state_reward in
  let output := compute_reward_output self [3; 0]%nat in
  (reward_boosting self = "linear" ->
   Forall (fun r => f_ltb r (min_reward self) = false) (reward output))
  /\ (reward_boosting self <> "linear" ->
      Forall (fun l => f_ltb l (min_log_reward self) = false)
             (log_reward output))
  /\ length (reward output) = length (proxy_value output)
  /\ length (log_reward output) = length (proxy_value output).
Proof.
  apply (reward_never_below_floor Sampler.state_reward [3; 0]%nat).
  apply xltb_irrefl.
Defined.

End RewardFacts.

(** ** [few_phase_policy.py]: which entries [_select_actions_log_probs]
    reads *)

Module FewPhaseFacts.
Import Torch FewPhasePolicy.

Section SelectActionsLogProbs.
Context {R : Type} `{Float R}.
Context {ActionSpace Action : Type}.
Context (get_idx_of_action : ActionSpace -> Action -> result nat).

(** The index of the chosen action lies inside the row, for every state
    of the phase. *)
Definition actions_in_range
    (log_probs : Tensor2 R) (action_spaces : list ActionSpace)
    (actions : list Action) : Prop :=
  forall i a action,
    action_spaces !! i = Some a -> actions !! i = Some action ->
    exists column,
      get_idx_of_action a action = Ok column
      /\ (column < shape1 log_probs)%nat.

Lemma tensor2_rows_lookup (log_probs : Tensor2 R) (i column : nat) :
  (i < shape0 log_probs)%nat -> (column < shape1 log_probs)%nat ->
  exists row,
    tensor2_rows log_probs !! i = Some row
    /\ row !! column
       = view_flat log_probs !! (i * shape1 log_probs + column)%nat.
Proof.
  intros Hi Hc. unfold tensor2_rows. eexists. split.
  - rewrite list_lookup_fmap, lookup_seq_lt by done. done.
  - simpl. rewrite lookup_take_lt by done. by rewrite lookup_drop.
Qed.

(** The flat positions read by [_select_actions_log_probs]: entry [i] of
    the result is the entry [i * W + column] of [log_probs.view(-1)]. *)
Lemma select_actions_log_probs_flat
    (log_probs : Tensor2 R) (action_spaces : list ActionSpace)
    (actions : list Action) :
  length (view_flat log_probs) = (shape0 log_probs * shape1 log_probs)%nat ->
  length action_spaces = shape0 log_probs ->
  length actions = shape0 log_probs ->
  actions_in_range log_probs action_spaces actions ->
  exists out,
    _select_actions_log_probs get_idx_of_action log_probs action_spaces actions
    = Ok out
    /\ length out = shape0 log_probs
    /\ forall i a action,
         action_spaces !! i = Some a -> actions !! i = Some action ->
         exists column,
           get_idx_of_action a action = Ok column
           /\ (column < shape1 log_probs)%nat
           /\ is_Some (out !! i)
           /\ out !! i
              = view_flat log_probs !! (i * shape1 log_probs + column)%nat.
Proof.
  intros Hflat Hspaces Hactions Hrange.
  set (W := shape1 log_probs) in *. set (N := shape0 log_probs) in *.
  unfold _select_actions_log_probs.
  destruct (mapM_exists (fun p : ActionSpace * Action =>
                           get_idx_of_action p.1 p.2)
              (zip action_spaces actions))
    as (columns & -> & Hclen & Hcols).
  { intros i [a action] Hi. simpl.
    apply lookup_zip_with_Some in Hi as (a' & act' & [= <- <-] & Ha & Hact).
    destruct (Hrange i a action Ha Hact) as (c & -> & _). by eexists. }
  simpl. rewrite length_zip_with, Hspaces, Hactions, Nat.min_id in Hclen.
  assert (forall i a action,
            action_spaces !! i = Some a -> actions !! i = Some action ->
            exists column,
              get_idx_of_action a action = Ok column
              /\ (column < W)%nat /\ columns !! i = Some column) as Hcol.
  { intros i a action Ha Hact.
    destruct (Hrange i a action Ha Hact) as (c & Hc & Hlt).
    exists c. split; [done|]. split; [done|].
    destruct (Hcols i (a, action)) as (c' & Hc' & Hget).
    { apply lookup_zip_with_Some. by exists a, action. }
    simpl in Hget. congruence. }
  set (flat_indices :=
         Z.of_nat <$> ((fun p : nat * nat => (p.1 * W + p.2)%nat)
                         <$> enumerate columns)).
  assert (forall k z, flat_indices !! k = Some z ->
            exists column,
              columns !! k = Some column
              /\ z = Z.of_nat (k * W + column)) as Hflatidx.
  { intros k z Hk. unfold flat_indices in Hk.
    rewrite !list_lookup_fmap in Hk.
    destruct (enumerate columns !! k) as [[k' c]|] eqn:Hen; [|done].
    simpl in Hk. injection Hk as <-.
    apply list_elem_of_lookup_2 in Hen as Hin.
    unfold enumerate in Hen.
    apply lookup_zip_with_Some in Hen as (k'' & c' & [= <- <-] & Hseq & Hc).
    apply lookup_seq in Hseq as [-> _]. by exists c. }
  assert (exists out,
            index_select (view_flat log_probs) flat_indices = Ok out
            /\ length out = length flat_indices
            /\ forall i z, flat_indices !! i = Some z ->
                 exists y, out !! i = Some y
                   /\ view_flat log_probs !! Z.to_nat z = Some y)
    as (out & Hout & Houtlen & Hlook).
  { unfold index_select.
    destruct (mapM_exists
              (fun i : Z =>
                 if decide (0 <= i)
                 then match view_flat log_probs !! Z.to_nat i with
                      | Some x => Ok x
                      | None => Raise IndexError
                      end
                 else Raise IndexError) flat_indices)
      as (out & Hout & Houtlen & Hlook); cycle 1.
    { exists out. split; [done|]. split; [done|]. intros k z Hk.
      destruct (Hlook k z Hk) as (y & Hy & Hgy). exists y. split; [done|].
      destruct (Hflatidx k z Hk) as (c & _ & ->).
      rewrite decide_True in Hgy by lia.
      destruct (view_flat log_probs !! Z.to_nat (Z.of_nat (k * W + c)));
        congruence. }
  { intros k z Hk. destruct (Hflatidx k z Hk) as (c & Hc & ->).
    rewrite decide_True by lia. rewrite Nat2Z.id.
    assert (k < N)%nat as HkN by (rewrite <- Hclen; by eapply lookup_lt_Some).
    assert (Some c = columns !! k) as Hck by done.
    destruct (lookup_lt_is_Some_2 action_spaces k) as [a Ha]; [lia|].
    destruct (lookup_lt_is_Some_2 actions k) as [act Hact]; [lia|].
    destruct (Hcol k a act Ha Hact) as (c' & _ & Hlt & Hc').
    assert (c' = c) as -> by congruence.
    destruct (lookup_lt_is_Some_2 (view_flat log_probs) (k * W + c))
      as [x Hx]; [rewrite Hflat; nia|].
    rewrite Hx. by eexists. } }
  exists out. split; [exact Hout|].
  assert (length flat_indices = N) as Hfl.
  { unfold flat_indices, enumerate.
    rewrite !length_fmap, length_zip_with, length_seq. lia. }
  split; [lia|]. intros i a action Ha Hact.
  destruct (Hcol i a action Ha Hact) as (c & Hc & Hlt & Hci).
  assert (i < N)%nat as HiN by (rewrite <- Hspaces; by eapply lookup_lt_Some).
  exists c. split; [done|]. split; [done|].
  destruct (lookup_lt_is_Some_2 flat_indices i) as [z Hz]; [lia|].
  destruct (Hflatidx i z Hz) as (c' & Hc' & ->).
  assert (c' = c) as -> by congruence.
  destruct (Hlook i _ Hz) as (y & Hy & Hgy).
  rewrite Nat2Z.id in Hgy.
  rewrite Hy, Hgy.
  split; [by eexists|done].
Qed.

(** For a dense [(N, W)] matrix, [N] action spaces and [N] actions whose
    indices lie below [W], [_select_actions_log_probs] returns [N]
    entries, the [i]-th being the entry of row [i] in the column of the
    [i]-th action. *)
Theorem select_actions_log_probs_spec
    (log_probs : Tensor2 R) (action_spaces : list ActionSpace)
    (actions : list Action) :
  length (view_flat log_probs) = (shape0 log_probs * shape1 log_probs)%nat ->
  length action_spaces = shape0 log_probs ->
  length actions = shape0 log_probs ->
  actions_in_range log_probs action_spaces actions ->
  exists out,
    _select_actions_log_probs get_idx_of_action log_probs action_spaces actions
    = Ok out
    /\ length out = shape0 log_probs
    /\ forall i a action,
         action_spaces !! i = Some a -> actions !! i = Some action ->
         exists column row,
           get_idx_of_action a action = Ok column
           /\ tensor2_rows log_probs !! i = Some row
           /\ is_Some (row !! column)
           /\ out !! i = row !! column.
Proof.
  intros Hflat Hspaces Hactions Hrange.
  destruct (select_actions_log_probs_flat log_probs action_spaces actions
              Hflat Hspaces Hactions Hrange) as (out & Hout & Hlen & Hsel).
  exists out. split; [done|]. split; [done|].
  intros i a action Ha Hact.
  destruct (Hsel i a action Ha Hact) as (column & Hc & Hlt & Hsome & Hentry).
  assert (i < shape0 log_probs)%nat as Hi
    by (rewrite <- Hspaces; by eapply lookup_lt_Some).
  destruct (tensor2_rows_lookup log_probs i column Hi Hlt)
    as (row & Hrow & Hrc).
  exists column, row. split; [done|]. split; [done|].
  rewrite Hrc, <- Hentry. done.
Qed.

End SelectActionsLogProbs.

(** The hypotheses of [select_actions_log_probs_spec] hold of a 2 x 3
    matrix and two toy action spaces. *)
Lemma select_actions_log_probs_spec_witness :
  let log_probs :=
    {| shape0 := 2; shape1 := 3;
       view_flat := [Fin 10; Fin 11; Fin 12; Fin 20; Fin 21; Fin 22] |} in
  let action_spaces :=
    [ {| space_type := 0; possible_actions := [5; 6]%nat |};
      {| space_type := 1; possible_actions := [7; 8; 9]%nat |} ] in
  exists out,
    _select_actions_log_probs toy_get_idx_of_action log_probs action_spaces
      [6; 9]%nat
    = Ok out
    /\ length out = 2%nat
    /\ forall i a action,
         action_spaces !! i = Some a -> [6; 9]%nat !! i = Some action ->
         exists column row,
           toy_get_idx_of_action a action = Ok column
           /\ tensor2_rows log_probs !! i = Some row
           /\ is_Some (row !! column)
           /\ out !! i = row !! column.
Proof.
  intros log_probs action_spaces.
  apply (select_actions_log_probs_spec toy_get_idx_of_action log_probs
           action_spaces [6; 9]%nat); [reflexivity..|].
  intros [|[|i]] a action Ha Hact; simpl in Ha, Hact; try discriminate.
  - injection Ha as <-. injection Hact as <-.
    exists 1%nat. split; [reflexivity|simpl; lia].
  - injection Ha as <-. injection Hact as <-.
    exists 2%nat. split; [reflexivity|simpl; lia].
Defined.

(** ** [reaction_backward_policy.py]: [_forward_deterministic] *)

(** [l[0]] on a list of integers. *)
Definition py_first (l : list Z) : result Z :=
  match l with
  | [] => Raise IndexError
  | x :: _ => Ok x
  end.

(** [max(iterable)]: [ValueError] on an empty iterable. *)
Definition py_max (l : list Z) : result Z :=
  match l with
  | [] => Raise ValueError
  | x :: l' => Ok (foldl Z.max x l')
  end.

(** [l[i] = x] with an [int] index: a negative index counts from the end,
    an index outside [-len(l) .. len(l) - 1] raises [IndexError]. *)
Definition py_setitem_int {A} (l : list A) (i : Z) (x : A) : result (list A) :=
  let n := Z.of_nat (length l) in
  if decide (0 <= i < n) then Ok (<[Z.to_nat i := x]> l)
  else if decide (- n <= i < 0) then Ok (<[Z.to_nat (n + i) := x]> l)
  else Raise IndexError.

Section ForwardDeterministic.
Context {R : Type} `{Float R}.
Context {State ActionSpace SharedEmbeddings : Type}.
Context (get_possible_actions_indices : ActionSpace -> list Z).

(** [torch.tensor(rows)] for a list of lists: the rows must all have the
    length of the first one. *)
Definition torch_tensor (rows : list (list R)) : result (Tensor2 R) :=
  let width := from_option length 0%nat (head rows) in
  if forallb (fun row => bool_decide (length row = width)) rows
  then Ok {| shape0 := length rows; shape1 := width;
             view_flat := mjoin rows |}
  else Raise ValueError.

Definition _forward_deterministic
    (states : list State) (action_spaces : list ActionSpace)
    (shared_embeddings : SharedEmbeddings) : result (Tensor2 R) :=
  firsts ← mapM (fun action_space =>
                   py_first (get_possible_actions_indices action_space))
                action_spaces;
  max_num_actions ← py_max firsts;
  log_probs_list ←
    mapM (fun action_space =>
            let log_probs :=
              replicate (Z.to_nat (max_num_actions + 1)) f_neg_inf in
            first ← py_first (get_possible_actions_indices action_space);
            py_setitem_int log_probs first f_zero)
         action_spaces;
  torch_tensor log_probs_list.

(** Every action space of the batch lists at least one index, and the
    first one is not negative. *)
Definition first_indices_ok (action_spaces : list ActionSpace) : Prop :=
  forall a, a ∈ action_spaces ->
    exists first rest,
      get_possible_actions_indices a = first :: rest /\ 0 <= first.

Lemma foldl_max_ge (l : list Z) (x : Z) :
  x <= foldl Z.max x l /\ forall y, y ∈ l -> y <= foldl Z.max x l.
Proof.
  revert x. induction l as [|z l IH]; intros x; simpl.
  - split; [lia|]. intros y Hy. by apply elem_of_nil in Hy.
  - destruct (IH (Z.max x z)) as [Hx Hl]. split; [lia|].
    intros y [->|Hy]%elem_of_cons; [lia|by apply Hl].
Qed.

Lemma foldl_max_elem (l : list Z) (x : Z) :
  foldl Z.max x l = x \/ foldl Z.max x l ∈ l.
Proof.
  revert x. induction l as [|z l IH]; intros x; simpl; [by left|].
  destruct (IH (Z.max x z)) as [Heq|Hin].
  - rewrite Heq. destruct (Z.max_spec x z) as [[_ ->]|[_ ->]].
    + right. apply elem_of_cons. by left.
    + by left.
  - right. apply elem_of_cons. by right.
Qed.

Lemma py_max_spec (l : list Z) :
  l <> [] ->
  exists m, py_max l = Ok m /\ m ∈ l /\ forall y, y ∈ l -> y <= m.
Proof.
  destruct l as [|x l]; [done|]. intros _. simpl. eexists. split; [done|].
  destruct (foldl_max_ge l x) as [Hx Hl]. split.
  - destruct (foldl_max_elem l x) as [->|Hin]; apply elem_of_cons;
      [by left|by right].
  - intros y [->|Hy]%elem_of_cons; [done|by apply Hl].
Qed.

Lemma mjoin_same_length_length {A} (n : nat) (ls : list (list A)) :
  Forall (fun l => length l = n) ls -> length (mjoin ls) = (length ls * n)%nat.
Proof.
  intros Hall. rewrite length_join, (sum_list_fmap_same n) by done. done.
Qed.

Lemma torch_tensor_same_length (n : nat) (rows : list (list R)) :
  rows <> [] -> Forall (fun row => length row = n) rows ->
  torch_tensor rows
  = Ok {| shape0 := length rows; shape1 := n; view_flat := mjoin rows |}.
Proof.
  intros Hne Hall. unfold torch_tensor.
  destruct rows as [|row rows]; [done|]. cbn [head from_option].
  apply Forall_cons in Hall as Hall'. destruct Hall' as [Hrow _].
  rewrite Hrow.
  assert (forallb (fun row0 : list R => bool_decide (length row0 = n))
            (row :: rows) = true) as ->; [|done].
  apply forallb_forall. intros r Hr. apply bool_decide_eq_true.
  rewrite Forall_forall in Hall. apply Hall. by apply list_elem_of_In.
Qed.

(** The matrix of [_forward_deterministic], entry by entry of its flat
    content. *)
Lemma forward_deterministic_entries
    (states : list State) (action_spaces : list ActionSpace)
    (shared_embeddings : SharedEmbeddings) :
  action_spaces <> [] ->
  first_indices_ok action_spaces ->
  exists log_probs max_num_actions,
    _forward_deterministic states action_spaces shared_embeddings
    = Ok log_probs
    /\ shape0 log_probs = length action_spaces
    /\ shape1 log_probs = S max_num_actions
    /\ length (view_flat log_probs)
       = (shape0 log_probs * shape1 log_probs)%nat
    /\ (exists a, a ∈ action_spaces
          /\ head (get_possible_actions_indices a)
             = Some (Z.of_nat max_num_actions))
    /\ forall i a first column,
         action_spaces !! i = Some a ->
         head (get_possible_actions_indices a) = Some first ->
         (column < S max_num_actions)%nat ->
         0 <= first <= Z.of_nat max_num_actions
         /\ view_flat log_probs !! (i * S max_num_actions + column)%nat
            = Some (if decide (Z.of_nat column = first)
                    then f_zero else f_neg_inf).
Proof.
  intros Hne Hok.
  unfold _forward_deterministic.
  destruct (mapM_exists
              (fun a => py_first (get_possible_actions_indices a))
              action_spaces) as (firsts & -> & Hflen & Hfirsts).
  { intros i a Hi. destruct (Hok a) as (k & rest & -> & _).
    - by eapply list_elem_of_lookup_2.
    - by eexists. }
  simpl.
  assert (firsts <> []) as Hfne.
  { intros ->. destruct action_spaces; [done|discriminate]. }
  destruct (py_max_spec firsts Hfne) as (m & -> & Hmin & Hmax). simpl.
  assert (forall k, k ∈ firsts -> 0 <= k) as Hnonneg.
  { intros k (i & Hi)%list_elem_of_lookup_1.
    destruct (lookup_lt_is_Some_2 action_spaces i) as [a Ha].
    { rewrite <- Hflen. by eapply lookup_lt_Some. }
    destruct (Hfirsts i a Ha) as (k' & Hk' & Hpf).
    destruct (Hok a) as (f & rest & Hg & Hf); [by eapply list_elem_of_lookup_2|].
    rewrite Hg in Hpf. simpl in Hpf. congruence. }
  assert (0 <= m) as Hm by (by apply Hnonneg).
  set (width := Z.to_nat (m + 1)).
  assert (width = S (Z.to_nat m)) as Hwidth by (unfold width; lia).
  destruct (mapM_exists
              (fun a : ActionSpace =>
                 first ← py_first (get_possible_actions_indices a);
                 py_setitem_int (replicate width f_neg_inf) first f_zero)
              action_spaces) as (rows & Hrows & Hrlen & Hrow).
  { intros i a Hi.
    destruct (Hok a) as (f & rest & Hg & Hf);
      [by eapply list_elem_of_lookup_2|].
    assert (f <= m) as Hfm.
    { apply Hmax. destruct (Hfirsts i a Hi) as (k & Hk & Hpf).
      rewrite Hg in Hpf. simpl in Hpf. injection Hpf as <-.
      by eapply list_elem_of_lookup_2. }
    rewrite Hg. simpl. unfold py_setitem_int. rewrite length_replicate.
    rewrite decide_True by lia. by eexists. }
  fold width. rewrite Hrows. simpl.
  assert (forall i a first,
            action_spaces !! i = Some a ->
            head (get_possible_actions_indices a) = Some first ->
            0 <= first <= m
            /\ rows !! i
               = Some (<[Z.to_nat first := f_zero]>
                         (replicate width f_neg_inf))) as Hrow'.
  { intros i a first Ha Hhead.
    destruct (Hrow i a Ha) as (row & Hr & Hset).
    destruct (Hfirsts i a Ha) as (k & Hk & Hpf).
    destruct (get_possible_actions_indices a) as [|f rest]; [done|].
    simpl in Hhead, Hpf, Hset. injection Hhead as ->. injection Hpf as <-.
    assert (0 <= first <= m) as Hrange.
    { split; [apply Hnonneg|apply Hmax]; by eapply list_elem_of_lookup_2. }
    split; [done|].
    unfold py_setitem_int in Hset. rewrite length_replicate in Hset.
    rewrite decide_True in Hset by lia. congruence. }
  assert (Forall (fun row => length row = width) rows) as Hall.
  { apply Forall_lookup. intros i row Hi.
    destruct (lookup_lt_is_Some_2 action_spaces i) as [a Ha].
    { rewrite <- Hrlen. by eapply lookup_lt_Some. }
    destruct (Hok a) as (f & rest & Hg & _); [by eapply list_elem_of_lookup_2|].
    destruct (Hrow' i a f Ha) as [_ Hr]; [by rewrite Hg|].
    rewrite Hr in Hi. injection Hi as <-.
    by rewrite length_insert, length_replicate. }
  rewrite (torch_tensor_same_length width) by
    (done || (intros ->; destruct action_spaces; [done|discriminate])).
  eexists _, (Z.to_nat m). split; [done|]. simpl.
  split; [done|]. split; [done|].
  split; [by apply mjoin_same_length_length|].
  split.
  { apply list_elem_of_lookup_1 in Hmin as (i & Hi).
    destruct (lookup_lt_is_Some_2 action_spaces i) as [a Ha].
    { rewrite <- Hflen. by eapply lookup_lt_Some. }
    exists a. split; [by eapply list_elem_of_lookup_2|].
    destruct (Hfirsts i a Ha) as (k & Hk & Hpf).
    destruct (get_possible_actions_indices a) as [|f rest]; [done|].
    simpl in *. rewrite Z2Nat.id by done. congruence. }
  intros i a first column Ha Hhead Hcol.
  destruct (Hrow' i a first Ha Hhead) as [Hrange Hr].
  split; [lia|].
  rewrite <- Hwidth.
  apply (join_lookup_Some_same_length' width); [done|lia|].
  eexists. split; [exact Hr|].
  destruct (decide (Z.of_nat column = first)) as [<-|Hne'].
  - rewrite Nat2Z.id. apply list_lookup_insert_eq.
    rewrite length_replicate. lia.
  - rewrite list_lookup_insert_ne by lia.
    apply lookup_replicate. split; [done|lia].
Qed.

(** On a non-empty batch whose action spaces each list a non-negative
    first index, [_forward_deterministic] returns a dense
    [(N, max + 1)] matrix, [max] being the largest first index of the
    batch; row [i] holds [0] in the column of the first index of the
    [i]-th action space and [-inf] in every other column. *)
Theorem forward_deterministic_spec
    (states : list State) (action_spaces : list ActionSpace)
    (shared_embeddings : SharedEmbeddings) :
  action_spaces <> [] ->
  first_indices_ok action_spaces ->
  exists log_probs max_num_actions,
    _forward_deterministic states action_spaces shared_embeddings
    = Ok log_probs
    /\ shape0 log_probs = length action_spaces
    /\ shape1 log_probs = S max_num_actions
    /\ (exists a, a ∈ action_spaces
          /\ head (get_possible_actions_indices a)
             = Some (Z.of_nat max_num_actions))
    /\ forall i a first,
         action_spaces !! i = Some a ->
         head (get_possible_actions_indices a) = Some first ->
         0 <= first <= Z.of_nat max_num_actions
         /\ tensor2_rows log_probs !! i
            = Some (<[Z.to_nat first := f_zero]>
                      (replicate (S max_num_actions) f_neg_inf)).
Proof.
  intros Hne Hok.
  destruct (forward_deterministic_entries states action_spaces
              shared_embeddings Hne Hok)
    as (lp & m & Hrun & Hs0 & Hs1 & Hflat & Hmax & Hentries).
  exists lp, m. split; [done|]. split; [done|]. split; [done|].
  split; [done|]. intros i a first Ha Hhead.
  destruct (Hentries i a first 0%nat Ha Hhead) as [Hrange _]; [lia|].
  split; [done|].
  assert (i < shape0 lp)%nat as Hi
    by (rewrite Hs0; by eapply lookup_lt_Some).
  unfold tensor2_rows. rewrite list_lookup_fmap, lookup_seq_lt by done.
  cbn [fmap option_fmap option_map Nat.add]. f_equal. rewrite Hs1.
  apply list_eq. intros column.
  destruct (decide (column < S m)%nat) as [Hlt|Hge].
  - rewrite lookup_take_lt, lookup_drop by done.
    destruct (Hentries i a first column Ha Hhead Hlt) as [_ ->].
    symmetry. destruct (decide (Z.of_nat column = first)) as [<-|Hne'].
    + rewrite Nat2Z.id. apply list_lookup_insert_eq.
      by rewrite length_replicate.
    + rewrite list_lookup_insert_ne by lia.
      by apply lookup_replicate.
  - rewrite lookup_take_ge by lia. symmetry. apply lookup_ge_None.
    rewrite length_insert, length_replicate. lia.
Qed.

(** An action space without any possible index makes
    [_forward_deterministic] raise [IndexError], wherever it stands in
    the batch. *)
Theorem forward_deterministic_no_possible_action
    (states : list State) (action_spaces : list ActionSpace)
    (shared_embeddings : SharedEmbeddings) (a : ActionSpace) :
  a ∈ action_spaces ->
  get_possible_actions_indices a = [] ->
  _forward_deterministic states action_spaces shared_embeddings
  = Raise IndexError.
Proof.
  intros Hin Hempty. unfold _forward_deterministic.
  assert (mapM (fun a => py_first (get_possible_actions_indices a))
            action_spaces = Raise IndexError) as ->; [|done].
  induction action_spaces as [|b l IH]; [by apply elem_of_nil in Hin|].
  simpl. apply elem_of_cons in Hin as [<-|Hin].
  - by rewrite Hempty.
  - destruct (get_possible_actions_indices b); simpl; [done|].
    by rewrite IH.
Qed.

(** An empty batch makes [_forward_deterministic] raise [ValueError],
    and under [first_indices_ok] it is the only batch that raises. *)
Theorem forward_deterministic_raises_iff
    (states : list State) (action_spaces : list ActionSpace)
    (shared_embeddings : SharedEmbeddings) :
  first_indices_ok action_spaces ->
  (is_Raise (_forward_deterministic states action_spaces shared_embeddings)
   <-> action_spaces = [])
  /\ (action_spaces = [] ->
      _forward_deterministic states action_spaces shared_embeddings
      = Raise ValueError).
Proof.
  intros Hok. split; [split|].
  - intros [e He]. destruct action_spaces as [|a l]; [done|].
    destruct (forward_deterministic_entries states (a :: l) shared_embeddings)
      as (t & m & Ht & _); [done|done|]. congruence.
  - intros ->. by eexists.
  - by intros ->.
Qed.

End ForwardDeterministic.

(** *** [_forward_deterministic] as the function of a phase *)

Section DeterministicPhase.
Context {R : Type} `{Float R}.
Context {State ActionSpace Action SharedEmbeddings : Type}.
Context (get_idx_of_action : ActionSpace -> Action -> result nat).
Context (get_possible_actions_indices : ActionSpace -> list Z).

Lemma mapM_py_index {A} (l : list A) (indices : list nat) :
  (forall idx, idx ∈ indices -> (idx < length l)%nat) ->
  exists ys,
    mapM (py_index l) indices = Ok ys
    /\ length ys = length indices
    /\ forall j idx, indices !! j = Some idx -> ys !! j = l !! idx.
Proof.
  intros Hlt.
  destruct (mapM_exists (py_index l) indices) as (ys & Hys & Hlen & Hlook).
  { intros j idx Hj.
    destruct (py_index_lt l idx) as (x & _ & Hx);
      [apply Hlt; by eapply list_elem_of_lookup_2|by eexists]. }
  exists ys. split; [done|]. split; [done|]. intros j idx Hj.
  destruct (Hlook j idx Hj) as (y & Hy & Hpy).
  apply py_index_Ok in Hpy. congruence.
Qed.

(** The chosen action of every state of the phase has an index, and it
    does not exceed the first possible index of the state's action space. *)
Definition chosen_actions_indexed
    (phase_indices : list nat) (action_spaces : list ActionSpace)
    (actions : list Action) : Prop :=
  forall idx a action,
    idx ∈ phase_indices ->
    action_spaces !! idx = Some a -> actions !! idx = Some action ->
    exists column first rest,
      get_idx_of_action a action = Ok column
      /\ get_possible_actions_indices a = first :: rest
      /\ Z.of_nat column <= first.

(** A phase served by [_forward_deterministic] gives log-probability [0]
    to an action that sits at the first possible index of its action
    space, and [-inf] to any other action, one value per state of the
    phase. *)
Theorem deterministic_phase_log_probs
    (phase_indices : list nat) (states : list State)
    (action_spaces : list ActionSpace) (actions : list Action)
    (shared_embeddings : SharedEmbeddings) :
  phase_indices <> [] ->
  (forall idx, idx ∈ phase_indices ->
     (idx < length states)%nat /\ (idx < length action_spaces)%nat
     /\ (idx < length actions)%nat) ->
  chosen_actions_indexed phase_indices action_spaces actions ->
  exists out,
    log_probs_phase get_idx_of_action
      (_forward_deterministic get_possible_actions_indices)
      phase_indices states action_spaces actions shared_embeddings
    = Ok out
    /\ length out = length phase_indices
    /\ forall j idx a action column,
         phase_indices !! j = Some idx ->
         action_spaces !! idx = Some a -> actions !! idx = Some action ->
         get_idx_of_action a action = Ok column ->
         out !! j
         = Some (if decide (head (get_possible_actions_indices a)
                            = Some (Z.of_nat column))
                 then f_zero else f_neg_inf).
Proof.
  intros Hne Hlt Hchosen. unfold log_probs_phase.
  destruct (mapM_py_index states phase_indices) as (pst & -> & _ & _);
    [intros idx Hidx; by apply Hlt|]. simpl.
  destruct (mapM_py_index action_spaces phase_indices)
    as (pas & -> & Hpaslen & Hpas); [intros idx Hidx; by apply Hlt|]. simpl.
  destruct (mapM_py_index actions phase_indices)
    as (pac & -> & Hpaclen & Hpac); [intros idx Hidx; by apply Hlt|]. simpl.
  assert (forall j a action,
            pas !! j = Some a -> pac !! j = Some action ->
            exists idx column first rest,
              phase_indices !! j = Some idx
              /\ action_spaces !! idx = Some a
              /\ actions !! idx = Some action
              /\ get_idx_of_action a action = Ok column
              /\ get_possible_actions_indices a = first :: rest
              /\ Z.of_nat column <= first) as Hphase.
  { intros j a action Ha Hact.
    destruct (lookup_lt_is_Some_2 phase_indices j) as [idx Hidx].
    { rewrite <- Hpaslen. by eapply lookup_lt_Some. }
    rewrite (Hpas j idx Hidx) in Ha. rewrite (Hpac j idx Hidx) in Hact.
    destruct (Hchosen idx a action) as (c & f & rest & Hc & Hg & Hle);
      [by eapply list_elem_of_lookup_2|done|done|].
    by exists idx, c, f, rest. }
  assert (pas <> []) as Hpasne.
  { intros ->. destruct phase_indices; [done|discriminate]. }
  destruct (forward_deterministic_entries get_possible_actions_indices
              pst pas shared_embeddings Hpasne)
    as (lp & m & -> & Hs0 & Hs1 & Hflat & _ & Hentries).
  { intros a (j & Hj)%list_elem_of_lookup_1.
    destruct (lookup_lt_is_Some_2 pac j) as [action Hact].
    { rewrite Hpaclen, <- Hpaslen. by eapply lookup_lt_Some. }
    destruct (Hphase j a action Hj Hact)
      as (idx & c & f & rest & _ & _ & _ & _ & Hg & Hle).
    exists f, rest. split; [done|lia]. }
  simpl.
  assert (forall j a action,
            pas !! j = Some a -> pac !! j = Some action ->
            exists column first,
              get_idx_of_action a action = Ok column
              /\ head (get_possible_actions_indices a) = Some first
              /\ (column < S m)%nat) as Hbound.
  { intros j a action Ha Hact.
    destruct (Hphase j a action Ha Hact)
      as (idx & c & f & rest & _ & _ & _ & Hc & Hg & Hle).
    exists c, f. split; [done|]. split; [by rewrite Hg|].
    destruct (Hentries j a f 0%nat Ha) as [Hrange _];
      [by rewrite Hg|lia|lia]. }
  destruct (select_actions_log_probs_flat get_idx_of_action lp pas pac)
    as (out & Hout & Houtlen & Hsel).
  { done. }
  { lia. }
  { lia. }
  { intros j a action Ha Hact.
    destruct (Hbound j a action Ha Hact) as (c & f & Hc & _ & Hlt').
    exists c. split; [done|]. by rewrite Hs1. }
  exists out. split; [done|]. split; [lia|].
  intros j idx a action column Hidx Ha Hact Hcol.
  rewrite <- (Hpas j idx Hidx) in Ha. rewrite <- (Hpac j idx Hidx) in Hact.
  destruct (Hbound j a action Ha Hact) as (c & f & Hc & Hhead & Hlt').
  assert (c = column) as -> by congruence.
  destruct (Hsel j a action Ha Hact) as (c' & Hc' & _ & _ & ->).
  assert (c' = column) as -> by congruence.
  rewrite Hs1.
  destruct (Hentries j a f column Ha Hhead Hlt') as [_ ->].
  rewrite Hhead. f_equal.
  destruct (decide (Z.of_nat column = f)) as [<-|Hne'].
  - by rewrite decide_True.
  - rewrite decide_False; [done|]. intros [= Heq]. by apply Hne'.
Qed.

End DeterministicPhase.

(** *** The batch [[2; 0]; [1]]: action spaces given by their indices *)

Definition listed_indices (action_space : list Z) : list Z := action_space.

Definition index_of_action (action_space : list Z) (action : Z)
  : result nat :=
  if decide (0 <= action) then Ok (Z.to_nat action) else Raise ValueError.

Example forward_deterministic_two_rows :
  view_flat <$>
    _forward_deterministic (R:=xnum) (State:=nat) (SharedEmbeddings:=unit)
      listed_indices [10; 11]%nat [[2; 0]; [1]] tt
  = Ok [NInf; NInf; Fin 0; NInf; Fin 0; NInf].
Proof. reflexivity. Qed.

(** The hypotheses of [forward_deterministic_spec] hold of that batch. *)
Lemma forward_deterministic_spec_witness :
  exists log_probs max_num_actions,
    _forward_deterministic (R:=xnum) (State:=nat) (SharedEmbeddings:=unit)
      listed_indices [10; 11]%nat [[2; 0]; [1]] tt
    = Ok log_probs
    /\ shape0 log_probs = 2%nat
    /\ shape1 log_probs = S max_num_actions
    /\ (exists a, a ∈ [[2; 0]; [1]]
          /\ head (listed_indices a) = Some (Z.of_nat max_num_actions))
    /\ forall i a first,
         [[2; 0]; [1]] !! i = Some a ->
         head (listed_indices a) = Some first ->
         0 <= first <= Z.of_nat max_num_actions
         /\ tensor2_rows log_probs !! i
            = Some (<[Z.to_nat first := f_zero]>
                      (replicate (S max_num_actions) f_neg_inf)).
Proof.
  apply (forward_deterministic_spec (R:=xnum) listed_indices
           [10; 11]%nat [[2; 0]; [1]] tt); [done|].
  intros a Ha. apply elem_of_cons in Ha as [->|Ha].
  - exists 2, [0]. split; [reflexivity|lia].
  - apply elem_of_cons in Ha as [->|Ha]; [|by apply elem_of_nil in Ha].
    exists 1, []. split; [reflexivity|lia].
Defined.

Lemma forward_deterministic_no_possible_action_witness :
  _forward_deterministic (R:=xnum) (State:=nat) (SharedEmbeddings:=unit)
    listed_indices [10; 11]%nat [[2; 0]; []] tt
  = Raise IndexError.
Proof.
  apply (forward_deterministic_no_possible_action (R:=xnum) listed_indices
           [10; 11]%nat [[2; 0]; []] tt []); [|reflexivity].
  apply elem_of_cons. right. apply elem_of_cons. by left.
Defined.

Lemma forward_deterministic_raises_iff_witness :
  (is_Raise (_forward_deterministic (R:=xnum) (State:=nat)
               (SharedEmbeddings:=unit) listed_indices [10; 11]%nat
               [[2; 0]; [1]] tt)
   <-> [[2; 0]; [1]] = [])
  /\ ([[2; 0]; [1]] = [] ->
      _forward_deterministic (R:=xnum) (State:=nat) (SharedEmbeddings:=unit)
        listed_indices [10; 11]%nat [[2; 0]; [1]] tt
      = Raise ValueError).
Proof.
  apply (forward_deterministic_raises_iff (R:=xnum) listed_indices
           [10; 11]%nat [[2; 0]; [1]] tt).
  intros a Ha. apply elem_of_cons in Ha as [->|Ha].
  - exists 2, [0]. split; [reflexivity|lia].
  - apply elem_of_cons in Ha as [->|Ha]; [|by apply elem_of_nil in Ha].
    exists 1, []. split; [reflexivity|lia].
Defined.

(** The hypotheses of [deterministic_phase_log_probs] hold of the phase
    made of positions 0 and 2 of a batch of three. *)
Lemma deterministic_phase_log_probs_witness :
  exists out,
    log_probs_phase index_of_action
      (_forward_deterministic (R:=xnum) (State:=nat) (SharedEmbeddings:=unit)
         listed_indices)
      [0; 2]%nat [10; 11; 12]%nat [[2; 0]; [5]; [1]] [2; 5; 0] tt
    = Ok out
    /\ length out = 2%nat
    /\ forall j idx a action column,
         [0; 2]%nat !! j = Some idx ->
         [[2; 0]; [5]; [1]] !! idx = Some a ->
         [2; 5; 0] !! idx = Some action ->
         index_of_action a action = Ok column ->
         out !! j
         = Some (if decide (head (listed_indices a) = Some (Z.of_nat column))
                 then f_zero else f_neg_inf).
Proof.
  apply (deterministic_phase_log_probs (R:=xnum) index_of_action
           listed_indices [0; 2]%nat [10; 11; 12]%nat
           [[2; 0]; [5]; [1]] [2; 5; 0] tt); [done| |].
  - intros idx Hidx. apply elem_of_cons in Hidx as [->|Hidx];
      [simpl; lia|].
    apply elem_of_cons in Hidx as [->|Hidx]; [simpl; lia|].
    by apply elem_of_nil in Hidx.
  - intros idx a action Hidx Ha Hact.
    apply elem_of_cons in Hidx as [->|Hidx].
    + injection Ha as <-. injection Hact as <-.
      exists 2%nat, 2, [0]. split; [reflexivity|]. split; [reflexivity|lia].
    + apply elem_of_cons in Hidx as [->|Hidx]; [|by apply elem_of_nil in Hidx].
      injection Ha as <-. injection Hact as <-.
      exists 0%nat, 1, []. split; [reflexivity|]. split; [reflexivity|lia].
Defined.

Example deterministic_phase_log_probs_run :
  log_probs_phase index_of_action
    (_forward_deterministic (R:=xnum) (State:=nat) (SharedEmbeddings:=unit)
       listed_indices)
    [0; 2]%nat [10; 11; 12]%nat [[2; 0]; [5]; [1]] [2; 5; 0] tt
  = Ok [Fin 0; NInf].
Proof. reflexivity. Qed.

(** The hypotheses of [all_phase_indices_partition] hold of the two-type
    batch and its table. *)
Lemma all_phase_indices_partition_witness :
  all_phase_indices toy_isinstance two_phase_table mixed_batch
  ≡ₚ seq 0 (length mixed_batch).
Proof.
  apply (all_phase_indices_partition toy_isinstance two_phase_table
           mixed_batch).
  - simpl. apply NoDup_cons. split.
    + intros Hin. apply elem_of_cons in Hin as [Heq|Hin]; [discriminate|].
      by apply elem_of_nil in Hin.
    + apply NoDup_singleton.
  - intros a Ha. unfold mixed_batch in Ha.
    apply elem_of_cons in Ha as [->|Ha].
    { exists 0%nat, uniform_forward. split; [|reflexivity].
      apply elem_of_cons. right. apply elem_of_cons. by left. }
    apply elem_of_cons in Ha as [->|Ha].
    { exists 1%nat, uniform_forward. split; [|reflexivity].
      apply elem_of_cons. by left. }
    apply elem_of_cons in Ha as [->|Ha]; [|by apply elem_of_nil in Ha].
    exists 0%nat, uniform_forward. split; [|reflexivity].
    apply elem_of_cons. right. apply elem_of_cons. by left.
  - intros a T1 T2 _ H1 H2. unfold toy_isinstance in *.
    apply bool_decide_eq_true in H1, H2. congruence.
Defined.

End FewPhaseFacts.

(** ** [reaction_gfn/policies/utils.py]: [one_hot] *)

Module PolicyUtils.
Import FewPhaseFacts.

Definition one_hot (idx num_classes : Z) : result (list Z) :=
  let x := replicate (Z.to_nat num_classes) 0 in
  if decide (idx = -1) then Ok x else py_setitem_int x idx 1.

(** The position written by [x[idx] = 1] in a list of [n] entries. *)
Definition written_position (idx n : Z) : Z :=
  if decide (0 <= idx) then idx else n + idx.

Lemma one_hot_Ok (idx num_classes : Z) (x : list Z) :
  one_hot idx num_classes = Ok x ->
  (idx = -1 /\ x = replicate (Z.to_nat num_classes) 0)
  \/ (idx <> -1
      /\ 0 <= written_position idx num_classes < num_classes
      /\ x = <[Z.to_nat (written_position idx num_classes) := 1]>
               (replicate (Z.to_nat num_classes) 0)).
Proof.
  unfold one_hot, py_setitem_int, written_position.
  rewrite length_replicate.
  destruct (decide (idx = -1)) as [->|Hne]; [intros [= <-]; by left|].
  intros Hx. right. split; [done|].
  destruct (decide (0 <= idx < Z.of_nat (Z.to_nat num_classes))).
  - injection Hx as <-. rewrite decide_True by lia. split; [lia|done].
  - destruct (decide (- Z.of_nat (Z.to_nat num_classes) <= idx < 0));
      [|discriminate].
    injection Hx as <-. rewrite decide_False by lia.
    assert (Z.of_nat (Z.to_nat num_classes) = num_classes) as Heq by lia.
    rewrite Heq. split; [lia|done].
Qed.

(** A list returned by [one_hot] has [num_classes] entries. For
    [idx = -1] they are all [0]. For any other index exactly one entry is
    [1], the others are [0]; the [1] stands at [idx], or for a negative
    [idx] at [num_classes + idx]: only [-1] is the "no class" marker,
    the other negative indices count from the end. *)
Theorem one_hot_spec (idx num_classes : Z) (x : list Z) :
  one_hot idx num_classes = Ok x ->
  Z.of_nat (length x) = Z.max 0 num_classes
  /\ forall i : nat,
       (i < length x)%nat ->
       x !! i
       = Some (if decide (idx <> -1
                          /\ Z.of_nat i = written_position idx num_classes)
               then 1 else 0).
Proof.
  intros [[-> ->]|(Hne & Hpos & ->)]%one_hot_Ok.
  - rewrite length_replicate. split; [lia|]. intros i Hi.
    rewrite decide_False by (intros [? _]; done).
    by apply lookup_replicate.
  - rewrite length_insert, length_replicate. split; [lia|]. intros i Hi.
    destruct (decide (idx <> -1
                      /\ Z.of_nat i = written_position idx num_classes))
      as [[_ Heq]|Hno].
    + rewrite <- Heq, Nat2Z.id. apply list_lookup_insert_eq.
      by rewrite length_replicate.
    + rewrite list_lookup_insert_ne by (intros <-; apply Hno; split; [done|lia]).
      by apply lookup_replicate.
Qed.

(** [one_hot] raises, and then an [IndexError], exactly when the index
    is neither [-1] nor within [-num_classes .. num_classes - 1]. *)
Theorem one_hot_raises_iff (idx num_classes : Z) :
  (is_Raise (one_hot idx num_classes)
   <-> idx <> -1
       /\ ~ (- Z.max 0 num_classes <= idx < Z.max 0 num_classes))
  /\ forall e, one_hot idx num_classes = Raise e -> e = IndexError.
Proof.
  unfold one_hot, py_setitem_int. rewrite length_replicate.
  assert (Z.of_nat (Z.to_nat num_classes) = Z.max 0 num_classes) as -> by lia.
  destruct (decide (idx = -1)) as [->|Hne].
  { split; [|discriminate]. split; [intros [e He]; discriminate|].
    intros [Hno _]. done. }
  destruct (decide (0 <= idx < Z.max 0 num_classes)).
  { split; [|discriminate]. split; [intros [e He]; discriminate|].
    intros [_ Hno]. destruct Hno. lia. }
  destruct (decide (- Z.max 0 num_classes <= idx < 0)).
  { split; [|discriminate]. split; [intros [e He]; discriminate|].
    intros [_ Hno]. destruct Hno. lia. }
  split; [|by intros e [= <-]].
  split; [|by eexists]. intros _. split; [done|lia].
Qed.

Lemma one_hot_spec_witness :
  Z.of_nat (length [0; 0; 1; 0]) = Z.max 0 4
  /\ forall i : nat,
       (i < length [0; 0; 1; 0])%nat ->
       [0; 0; 1; 0] !! i
       = Some (if decide (-2 <> -1 /\ Z.of_nat i = written_position (-2) 4)
               then 1 else 0).
Proof. apply (one_hot_spec (-2) 4 [0; 0; 1; 0]). reflexivity. Defined.

Example one_hot_examples :
  one_hot 1 3 = Ok [0; 1; 0]
  /\ one_hot (-1) 3 = Ok [0; 0; 0]
  /\ one_hot (-3) 3 = Ok [1; 0; 0]
  /\ one_hot 3 3 = Raise IndexError
  /\ one_hot (-4) 3 = Raise IndexError
  /\ one_hot 0 0 = Raise IndexError
  /\ one_hot (-1) (-2) = Ok [].
Proof. repeat split. Qed.

End PolicyUtils.

(** ** [trainer/logger/wandb_logger.py] *)

Module Logger.
Import Stdlib.Strings.Ascii.
Import DataStructures CacheFacts.

(** *** Strings: [str.split] on a one-character separator, [str.join] *)

(** [s.split(sep)] for a separator of one character. *)
Fixpoint split (sep : ascii) (s : string) : list string :=
  match s with
  | EmptyString => [EmptyString]
  | String c s' =>
      if decide (c = sep) then EmptyString :: split sep s'
      else match split sep s' with
           | [] => [String c EmptyString]
           | word :: words => String c word :: words
           end
  end.

(** [sep.join(words)] *)
Fixpoint join (sep : string) (words : list string) : string :=
  match words with
  | [] => EmptyString
  | [word] => word
  | word :: words' => word +:+ sep +:+ join sep words'
  end.

(** [sep in s] for a separator of one character. *)
Fixpoint contains (sep : ascii) (s : string) : bool :=
  match s with
  | EmptyString => false
  | String c s' => if decide (c = sep) then true else contains sep s'
  end.

(** [l[:-1]] *)
Definition all_but_last {A} (l : list A) : list A := take (length l - 1) l.

(** *** [WandbLogger] *)

(** The keyword arguments of a call of [wandb.init]. *)
Record wandb_init_call : Type := {
  dir : string;
  project : string;
  name : string;
  group : string
}.

Record WandbLogger : Type := {
  logdir : string;
  project_name : string;
  experiment_name : string
}.

(** [_init_run]: the call of [wandb.init] it makes. *)
Definition _init_run (self : WandbLogger) : wandb_init_call :=
  let group_list := split "/" (experiment_name self) in
  let group := join "/" (all_but_last group_list) in
  {| dir := logdir self;
     project := project_name self;
     name := experiment_name self;
     group := group |}.

(** [{f"{prefix}/{k}": v for k, v in metrics.items()}]: the dictionary
    handed to [run.log]. *)
Definition log_metrics {V} (metrics : dict string V) (prefix : string)
  : dict string V :=
  foldl (fun logged entry =>
           dict_set logged (prefix +:+ "/" +:+ entry.1) entry.2)
        [] metrics.

(** The values of a hyperparameter dictionary: a gin reference, a
    dictionary, a list, or any other object. *)
Inductive py_value : Type :=
  | ConfigurableReference
  | PyDict (entries : list (string * py_value))
  | PyList (elements : list py_value)
  | PyOther (repr : string).

Fixpoint contains_configurable_reference (value : py_value) : bool :=
  match value with
  | ConfigurableReference => true
  | PyDict entries =>
      existsb (fun entry => contains_configurable_reference entry.2) entries
  | PyList elements => existsb contains_configurable_reference elements
  | PyOther _ => false
  end.

(** [log_hyperparameters]: the dictionary handed to
    [run.config.update]. *)
Definition log_hyperparameters (hyperparameters : dict string py_value)
  : dict string py_value :=
  foldl (fun _hyperparams entry =>
           if negb (contains_configurable_reference entry.2)
           then dict_set _hyperparams entry.1 entry.2
           else _hyperparams)
        [] hyperparameters.

(** A gin reference sits somewhere in the value, under lists and under
    the values of dictionaries. *)
Inductive has_reference : py_value -> Prop :=
  | reference_here : has_reference ConfigurableReference
  | reference_in_dict entries key value :
      (key, value) ∈ entries -> has_reference value ->
      has_reference (PyDict entries)
  | reference_in_list elements value :
      value ∈ elements -> has_reference value ->
      has_reference (PyList elements).

(** **** Splitting and joining *)

Lemma split_nonempty (sep : ascii) (s : string) : split sep s <> [].
Proof.
  destruct s as [|c s]; simpl; [done|].
  destruct (decide (c = sep)); [done|]. by destruct (split sep s).
Qed.

Lemma append_String (c : ascii) (s t : string) :
  String c s +:+ t = String c (s +:+ t).
Proof. done. Qed.

Lemma append_empty_r (s : string) : s +:+ EmptyString = s.
Proof.
  induction s as [|c s IH]; [done|]. by rewrite append_String, IH.
Qed.

Lemma append_assoc (s t u : string) : (s +:+ t) +:+ u = s +:+ (t +:+ u).
Proof.
  induction s as [|c s IH]; [done|]. by rewrite !append_String, IH.
Qed.

Lemma append_inj_l (s t u : string) : s +:+ t = s +:+ u -> t = u.
Proof.
  induction s as [|c s IH]; [done|]. rewrite !append_String.
  intros [= Heq]. by apply IH.
Qed.

(** [sep.join(s.split(sep))] gives [s] back. *)
Lemma join_split (sep : ascii) (s : string) :
  join (String sep EmptyString) (split sep s) = s.
Proof.
  induction s as [|c s IH]; simpl; [done|].
  destruct (decide (c = sep)) as [->|Hne].
  - pose proof (split_nonempty sep s) as Hs.
    destruct (split sep s) as [|w ws] eqn:Hsplit; [done|].
    cbn [join]. simpl. by rewrite <- IH.
  - destruct (split sep s) as [|w ws] eqn:Hsplit.
    + by destruct (split_nonempty sep s).
    + destruct ws as [|w' ws]; simpl in *; by rewrite <- IH.
Qed.

Lemma split_no_sep (sep : ascii) (s : string) :
  contains sep s = false -> split sep s = [s].
Proof.
  induction s as [|c s IH]; simpl; [done|].
  destruct (decide (c = sep)); [done|]. intros Hs. by rewrite IH.
Qed.

(** No word of [s.split(sep)] contains the separator. *)
Lemma split_words_no_sep (sep : ascii) (s : string) :
  Forall (fun word => contains sep word = false) (split sep s).
Proof.
  induction s as [|c s IH]; simpl; [by repeat constructor|].
  destruct (decide (c = sep)) as [->|Hne]; [by constructor|].
  destruct (split sep s) as [|w ws]; simpl.
  - repeat constructor. simpl. by rewrite decide_False.
  - apply Forall_cons in IH as [Hw Hws]. constructor; [|done].
    simpl. by rewrite decide_False.
Qed.

Lemma split_app_sep (sep : ascii) (s t : string) :
  split sep (s +:+ String sep t) = split sep s ++ split sep t.
Proof.
  induction s as [|c s IH]; simpl.
  - by rewrite decide_True.
  - destruct (decide (c = sep)); [by rewrite IH|].
    rewrite IH. pose proof (split_nonempty sep s) as Hs.
    by destruct (split sep s).
Qed.

Lemma join_snoc (sep : string) (words : list string) (word : string) :
  words <> [] ->
  join sep (words ++ [word]) = join sep words +:+ sep +:+ word.
Proof.
  induction words as [|w ws IH]; [done|]. intros _.
  destruct ws as [|w' ws]; [done|].
  change (w +:+ sep +:+ join sep ((w' :: ws) ++ [word])
          = (w +:+ sep +:+ join sep (w' :: ws)) +:+ sep +:+ word).
  rewrite IH by done. by rewrite !append_assoc.
Qed.

Lemma all_but_last_snoc {A} (l : list A) (x : A) :
  all_but_last (l ++ [x]) = l.
Proof.
  unfold all_but_last. rewrite length_app. simpl.
  replace (length l + 1 - 1)%nat with (length l) by lia.
  by rewrite take_app_length.
Qed.

Lemma snoc_of_nonempty {A} (l : list A) :
  l <> [] -> exists init x, l = init ++ [x].
Proof.
  intros Hne. destruct (reverse l) as [|x r] eqn:Hrev.
  - apply (f_equal reverse) in Hrev. rewrite reverse_involutive in Hrev.
    done.
  - exists (reverse r), x.
    apply (f_equal reverse) in Hrev. rewrite reverse_involutive in Hrev.
    by rewrite Hrev, reverse_cons.
Qed.

(** The group of a run is what stands before the last [/] of the
    experiment name, and the empty string when the name has no [/]. *)
Theorem init_run_group (self : WandbLogger) (g : string) :
  group (_init_run self) = g
  <-> (contains "/" (experiment_name self) = false /\ g = EmptyString)
      \/ exists last,
           contains "/" last = false
           /\ experiment_name self = g +:+ "/" +:+ last.
Proof.
  unfold _init_run. simpl. split.
  - intros <-.
    destruct (snoc_of_nonempty (split "/" (experiment_name self)))
      as (init & last & Hsplit); [apply split_nonempty|].
    pose proof (split_words_no_sep "/" (experiment_name self)) as Hwords.
    pose proof (join_split "/" (experiment_name self)) as Hjoin.
    rewrite Hsplit in *. rewrite all_but_last_snoc.
    rewrite Forall_app, Forall_singleton in Hwords.
    destruct Hwords as [_ Hlast].
    destruct init as [|w ws].
    + left. simpl in Hjoin. split; [by rewrite <- Hjoin|done].
    + right. exists last. split; [done|].
      by rewrite <- Hjoin, join_snoc.
  - intros [[Hno ->]|(last & Hlast & Hname)].
    + by rewrite split_no_sep.
    + rewrite Hname.
      change (g +:+ "/" +:+ last) with (g +:+ String "/" last).
      rewrite split_app_sep, (split_no_sep _ last) by done.
      rewrite all_but_last_snoc. apply join_split.
Qed.

(** **** [log_metrics] *)

Lemma foldl_dict_set_fresh {V} (f : string -> string)
    (acc items : dict string V) :
  (forall a b, f a = f b -> a = b) ->
  NoDup items.*1 ->
  (forall k, k ∈ items.*1 -> f k ∉ acc.*1) ->
  foldl (fun d entry => dict_set d (f entry.1) entry.2) acc items
  = acc ++ ((fun entry => (f entry.1, entry.2)) <$> items).
Proof.
  intros Hinj. revert acc.
  induction items as [|[k v] items IH]; intros acc Hnd Hfresh; simpl.
  - by rewrite app_nil_r.
  - apply NoDup_cons in Hnd as [Hk Hnd].
    rewrite dict_set_fresh by (apply Hfresh; left).
    rewrite IH; [by rewrite <- app_assoc|done|].
    intros k' Hk'. rewrite fmap_app. simpl.
    rewrite elem_of_app, list_elem_of_singleton.
    intros [Hin|Heq].
    + revert Hin. apply Hfresh. by right.
    + apply Hinj in Heq. simpl in Heq. by subst.
Qed.

(** The logged dictionary has the entries of [metrics], in the same
    order and with the same values, each key behind [prefix/]; no two
    metrics fall on one key. *)
Theorem log_metrics_spec {V} (metrics : dict string V) (prefix : string) :
  NoDup metrics.*1 ->
  log_metrics metrics prefix
  = (fun entry => (prefix +:+ "/" +:+ entry.1, entry.2)) <$> metrics
  /\ NoDup (log_metrics metrics prefix).*1
  /\ forall key,
       dict_get (log_metrics metrics prefix) (prefix +:+ "/" +:+ key)
       = dict_get metrics key.
Proof.
  intros Hnd.
  assert (forall a b : string,
            prefix +:+ "/" +:+ a = prefix +:+ "/" +:+ b -> a = b) as Hinj.
  { intros a b Heq. apply append_inj_l in Heq. by apply append_inj_l in Heq. }
  assert (log_metrics metrics prefix
          = (fun entry => (prefix +:+ "/" +:+ entry.1, entry.2)) <$> metrics)
    as Heq.
  { unfold log_metrics.
    rewrite (foldl_dict_set_fresh (fun k => prefix +:+ "/" +:+ k)
               [] metrics Hinj Hnd); [done|].
    intros k _. apply not_elem_of_nil. }
  split; [done|]. rewrite Heq. clear Heq. split.
  - rewrite <- list_fmap_compose.
    change (NoDup ((fun k => prefix +:+ "/" +:+ k) ∘ fst <$> metrics)).
    rewrite list_fmap_compose. apply NoDup_fmap_2; [|done].
    intros a b. apply Hinj.
  - intros key. clear Hnd.
    induction metrics as [|[k v] metrics IH]; simpl; [done|].
    destruct (decide (k = key)) as [->|Hne].
    + by rewrite decide_True.
    + rewrite decide_False; [done|]. intros Heq'. by apply Hinj in Heq'.
Qed.

Lemma log_metrics_spec_witness :
  log_metrics [("loss", 3); ("acc", 5)] "train"
  = (fun entry => ("train" +:+ "/" +:+ entry.1, entry.2))
      <$> [("loss", 3); ("acc", 5)]
  /\ NoDup (log_metrics [("loss", 3); ("acc", 5)] "train").*1
  /\ forall key,
       dict_get (log_metrics [("loss", 3); ("acc", 5)] "train")
         ("train" +:+ "/" +:+ key)
       = dict_get [("loss", 3); ("acc", 5)] key.
Proof.
  apply (log_metrics_spec [("loss", 3); ("acc", 5)] "train").
  simpl. apply NoDup_cons. split; [|apply NoDup_singleton].
  intros Hin. apply list_elem_of_singleton in Hin. discriminate.
Defined.

Example log_metrics_example :
  log_metrics [("loss", 3); ("acc", 5)] "train"
  = [("train/loss", 3); ("train/acc", 5)].
Proof. reflexivity. Qed.

Example init_run_group_examples :
  group (_init_run {| logdir := "logs"; project_name := "rgfn";
                      experiment_name := "seh/small/2024-01-01" |})
  = "seh/small"
  /\ group (_init_run {| logdir := "logs"; project_name := "rgfn";
                         experiment_name := "seh" |})
     = EmptyString
  /\ group (_init_run {| logdir := "logs"; project_name := "rgfn";
                         experiment_name := "/seh" |})
     = EmptyString
  /\ group (_init_run {| logdir := "logs"; project_name := "rgfn";
                         experiment_name := "seh/" |})
     = "seh".
Proof. repeat split. Qed.

(** **** [log_hyperparameters] *)

Section py_value_induction.
Variable P : py_value -> Prop.
Hypothesis Hreference : P ConfigurableReference.
Hypothesis Hdict :
  forall entries, Forall (fun entry => P entry.2) entries -> P (PyDict entries).
Hypothesis Hlist : forall elements, Forall P elements -> P (PyList elements).
Hypothesis Hother : forall repr, P (PyOther repr).

Fixpoint py_value_induction (value : py_value) : P value :=
  match value with
  | ConfigurableReference => Hreference
  | PyDict entries =>
      Hdict entries
        ((fix go (l : list (string * py_value))
            : Forall (fun entry => P entry.2) l :=
            match l with
            | [] => @List.Forall_nil _ _
            | (key, v) :: l' =>
                @List.Forall_cons _ (fun entry => P entry.2) (key, v) l'
                  (py_value_induction v) (go l')
            end) entries)
  | PyList elements =>
      Hlist elements
        ((fix go (l : list py_value) : Forall P l :=
            match l with
            | [] => @List.Forall_nil _ _
            | v :: l' => @List.Forall_cons _ P v l' (py_value_induction v) (go l')
            end) elements)
  | PyOther repr => Hother repr
  end.

End py_value_induction.

(** The test finds a reference exactly when there is one under lists
    and dictionary values. *)
Lemma contains_configurable_reference_spec (value : py_value) :
  contains_configurable_reference value = true <-> has_reference value.
Proof.
  induction value as [|entries IH|elements IH|repr] using py_value_induction.
  - split; [constructor|done].
  - simpl. split.
    + intros Hex. apply existsb_exists in Hex as ([key v] & Hin & Hv).
      apply list_elem_of_In in Hin.
      rewrite Forall_forall in IH. apply (IH _ Hin) in Hv.
      by eapply reference_in_dict.
    + intros Href. inversion Href as [|entries' key v Hin Hv|]; subst.
      apply existsb_exists. exists (key, v).
      split; [by apply list_elem_of_In|].
      rewrite Forall_forall in IH. by apply (IH _ Hin).
  - simpl. split.
    + intros Hex. apply existsb_exists in Hex as (v & Hin & Hv).
      apply list_elem_of_In in Hin.
      rewrite Forall_forall in IH. apply (IH _ Hin) in Hv.
      by eapply reference_in_list.
    + intros Href. inversion Href as [| |elements' v Hin Hv]; subst.
      apply existsb_exists. exists v.
      split; [by apply list_elem_of_In|].
      rewrite Forall_forall in IH. by apply (IH _ Hin).
  - split; [done|]. intros Href. inversion Href.
Qed.

Definition kept (entry : string * py_value) : Prop :=
  contains_configurable_reference entry.2 = false.

#[local] Instance kept_dec (entry : string * py_value) : Decision (kept entry).
Proof. unfold kept. apply _. Defined.

Lemma log_hyperparameters_loop (acc items : list (string * py_value)) :
  NoDup items.*1 ->
  (forall k, k ∈ items.*1 -> k ∉ acc.*1) ->
  foldl (fun _hyperparams entry =>
           if negb (contains_configurable_reference entry.2)
           then dict_set _hyperparams entry.1 entry.2
           else _hyperparams) acc items
  = acc ++ filter kept items.
Proof.
  revert acc. induction items as [|[k v] items IH]; intros acc Hnd Hfresh.
  - by rewrite app_nil_r.
  - apply NoDup_cons in Hnd as [Hk Hnd]. cbn [foldl fst snd].
    destruct (contains_configurable_reference v) eqn:Hv; cbn [negb].
    + rewrite filter_cons_False by (unfold kept; simpl; congruence).
      apply IH; [done|]. intros k' Hk'. apply Hfresh. by right.
    + rewrite filter_cons_True by done.
      rewrite dict_set_fresh by (apply Hfresh; left).
      rewrite IH; [by rewrite <- app_assoc|done|].
      intros k' Hk'. rewrite fmap_app. simpl.
      rewrite elem_of_app, list_elem_of_singleton.
      intros [Hin|Heq]; [|by subst].
      revert Hin. apply Hfresh. by right.
Qed.

(** [log_hyperparameters] passes on the entries whose value holds no gin
    reference at any depth of lists and dictionary values, in their
    order, and drops every entry whose value holds one. *)
Theorem log_hyperparameters_spec (hyperparameters : dict string py_value) :
  NoDup hyperparameters.*1 ->
  log_hyperparameters hyperparameters `sublist_of` hyperparameters
  /\ (forall key value,
        (key, value) ∈ log_hyperparameters hyperparameters ->
        ~ has_reference value)
  /\ forall key value,
       dict_get (log_hyperparameters hyperparameters) key = Some value
       <-> dict_get hyperparameters key = Some value
           /\ ~ has_reference value.
Proof.
  intros Hnd.
  unfold dict in *.
  assert (log_hyperparameters hyperparameters = filter kept hyperparameters)
    as ->.
  { unfold log_hyperparameters.
    rewrite log_hyperparameters_loop; [done|done|].
    intros k _. apply not_elem_of_nil. }
  assert (forall value,
            contains_configurable_reference value = false
            <-> ~ has_reference value) as Hkept.
  { intros value. rewrite <- contains_configurable_reference_spec.
    destruct (contains_configurable_reference value); split; done. }
  assert (NoDup (filter kept hyperparameters).*1) as Hnd'.
  { eapply sublist_NoDup; [exact Hnd|].
    apply fmap_sublist, sublist_filter. }
  split; [apply sublist_filter|]. split.
  - intros key value [Hk _]%list_elem_of_filter. by apply Hkept.
  - intros key value. split.
    + intros Hget. apply dict_get_elem_of in Hget.
      apply list_elem_of_filter in Hget as [Hk Hin].
      split; [by apply elem_of_dict_get|by apply Hkept].
    + intros [Hget Hno]. apply elem_of_dict_get; [done|].
      apply list_elem_of_filter. split; [by apply Hkept|].
      by apply dict_get_elem_of.
Qed.

Definition sample_hyperparameters : dict string py_value :=
  [ ("lr", PyOther "0.001");
    ("policy", ConfigurableReference);
    ("layers", PyList [PyOther "64"; PyDict [("net", ConfigurableReference)]]);
    ("sizes", PyList [PyOther "1"; PyList [PyOther "2"]]) ].

Lemma log_hyperparameters_spec_witness :
  log_hyperparameters sample_hyperparameters
    `sublist_of` sample_hyperparameters
  /\ (forall key value,
        (key, value) ∈ log_hyperparameters sample_hyperparameters ->
        ~ has_reference value)
  /\ forall key value,
       dict_get (log_hyperparameters sample_hyperparameters) key = Some value
       <-> dict_get sample_hyperparameters key = Some value
           /\ ~ has_reference value.
Proof.
  apply (log_hyperparameters_spec sample_hyperparameters).
  apply (bool_decide_unpack _). vm_compute. exact I.
Defined.

Example log_hyperparameters_example :
  log_hyperparameters sample_hyperparameters
  = [ ("lr", PyOther "0.001");
      ("sizes", PyList [PyOther "1"; PyList [PyOther "2"]]) ].
Proof. reflexivity. Qed.

End Logger.

(** ** [rgfn/utils/helpers.py]: the order kept by [ContentHeap] *)

Module HeapOrder.
Import Helpers.

#[local] Arguments Nat.div : simpl never.

Section HeapqOrder.
Context {E : Type} (lt : E -> E -> bool).

(** [a <= b] in the order of [lt]: [b] is not below [a]. *)
Definition le (a b : E) : Prop := lt b a = false.

(** [lt] is a strict weak order, as [<] is on floats that are not NaN. *)
Hypothesis lt_asym : forall a b, lt a b = true -> lt b a = false.
Hypothesis le_trans : forall a b c, le a b -> le b c -> le a c.

(** [c] is one of the two positions below [p]. *)
Definition is_child (p c : nat) : Prop :=
  c = (2 * p + 1)%nat \/ c = (2 * p + 2)%nat.

(** The heap invariant of [heapq]: no entry is below its parent. *)
Definition heap_ordered (h : list E) : Prop :=
  forall p c x y,
    is_child p c -> h !! p = Some x -> h !! c = Some y -> le x y.

(** The invariant around a hole at [q]: the entries other than the one
    at [q] are in order, the parent of [q] against the children of [q]
    included. *)
Definition ordered_but (h : list E) (q : nat) : Prop :=
  (forall p c x y,
     is_child p c -> p <> q -> c <> q ->
     h !! p = Some x -> h !! c = Some y -> le x y)
  /\ (forall g c x y,
        is_child g q -> is_child q c ->
        h !! g = Some x -> h !! c = Some y -> le x y).

Lemma le_refl (a : E) : le a a.
Proof.
  unfold le. destruct (lt a a) eqn:Ha; [|done]. by rewrite (lt_asym a a Ha) in Ha.
Qed.

Lemma parent_is_child (pos : nat) :
  (0 < pos)%nat -> is_child ((pos - 1) / 2) pos.
Proof.
  intros Hpos. unfold is_child.
  pose proof (Nat.div_mod_eq (pos - 1) 2) as Hdiv.
  pose proof (Nat.mod_upper_bound (pos - 1) 2) as Hmod. lia.
Qed.

Lemma ordered_but_of_ordered (h : list E) (q : nat) :
  heap_ordered h -> ordered_but h q.
Proof.
  intros Hord. split.
  - intros p c x y Hpc _ _. by apply Hord.
  - intros g c x y Hgq Hqc Hg Hc.
    destruct (lookup_lt_is_Some_2 h q) as [z Hz].
    { apply lookup_lt_Some in Hc. unfold is_child in Hqc. lia. }
    eapply le_trans; [by eapply (Hord g q)|by eapply (Hord q c)].
Qed.

Lemma ordered_but_insert (h : list E) (q : nat) (x : E) :
  ordered_but h q -> ordered_but (<[q:=x]> h) q.
Proof.
  intros [Hedges Hhole]. split.
  - intros p c a b Hpc Hp Hc.
    rewrite !list_lookup_insert_ne by done. by apply Hedges.
  - intros g c a b Hgq Hqc.
    rewrite !list_lookup_insert_ne by (unfold is_child in *; lia).
    by apply Hhole.
Qed.

(** The loop of [_siftdown] closes a hole: when the entries around the
    hole at [pos] are in order and [newitem] is not above the children of
    [pos], the heap returned is in order. *)
Lemma _siftdown_loop_ordered (h : list E) (pos : nat) (newitem : E) :
  (pos < length h)%nat ->
  ordered_but h pos ->
  (forall c y, is_child pos c -> h !! c = Some y -> le newitem y) ->
  exists h', _siftdown_loop lt h 0 pos newitem = Ok h' /\ heap_ordered h'.
Proof.
  revert h. induction (lt_wf pos) as [pos _ IH].
  intros h Hpos [Hedges Hhole] Hchildren.
  simp _siftdown_loop.
  destruct (decide (0 < pos)%nat) as [Hlt|Hge]; simpl.
  - pose proof (parent_is_child pos Hlt) as Hpc.
    set (pp := ((pos - 1) / 2)%nat) in *.
    assert (pp < pos)%nat as Hpp by (unfold is_child in Hpc; lia).
    destruct (lookup_lt_is_Some_2 h pp) as [parent Hparent]; [lia|].
    rewrite Hparent. simpl. destruct (lt newitem parent) eqn:Hcmp; simpl.
    + rewrite py_setitem_lt by done. simpl.
      apply IH; [done|by rewrite length_insert; lia| |].
      * split.
        -- intros p c x y Hchild Hp Hc.
           assert (c <> pos) as Hcpos
             by (intros ->; unfold is_child in *; lia).
           rewrite (list_lookup_insert_ne _ _ c) by done.
           destruct (decide (p = pos)) as [->|Hppos].
           ++ rewrite list_lookup_insert_eq by done. intros [= <-] Hy.
              by eapply (Hhole pp c).
           ++ rewrite list_lookup_insert_ne by done. by apply Hedges.
        -- intros g c x y Hg Hc.
           assert (g <> pos) as Hgpos by (unfold is_child in *; lia).
           rewrite (list_lookup_insert_ne _ _ g) by done. intros Hx.
           assert (le x parent) as Hxp.
           { eapply (Hedges g pp); [done|done|lia|done|done]. }
           destruct (decide (c = pos)) as [->|Hcpos].
           ++ rewrite list_lookup_insert_eq by done. by intros [= <-].
           ++ rewrite list_lookup_insert_ne by done. intros Hy.
              eapply le_trans; [exact Hxp|].
              eapply (Hedges pp c); [done|lia|done|done|done].
      * intros c y Hc.
        destruct (decide (c = pos)) as [->|Hcpos].
        -- rewrite list_lookup_insert_eq by done. intros [= <-].
           by apply lt_asym.
        -- rewrite list_lookup_insert_ne by done. intros Hy.
           eapply le_trans; [by apply lt_asym|].
           eapply (Hedges pp c); [done|lia|done|done|done].
    + rewrite py_setitem_lt by done. eexists. split; [done|].
      intros p c x y Hchild.
      destruct (decide (c = pos)) as [->|Hcpos].
      * assert (p = pp) as -> by (unfold is_child in *; lia).
        rewrite list_lookup_insert_ne by lia.
        rewrite list_lookup_insert_eq by done. intros Hx [= <-].
        assert (x = parent) as -> by congruence. exact Hcmp.
      * rewrite (list_lookup_insert_ne _ _ c) by done.
        destruct (decide (p = pos)) as [->|Hppos].
        -- rewrite list_lookup_insert_eq by done. intros [= <-].
           by apply Hchildren.
        -- rewrite list_lookup_insert_ne by done. by apply Hedges.
  - assert (pos = 0)%nat as -> by lia.
    rewrite py_setitem_lt by done. eexists. split; [done|].
    intros p c x y Hchild.
    assert (c <> 0)%nat as Hc0 by (unfold is_child in *; lia).
    rewrite (list_lookup_insert_ne _ _ c) by done.
    destruct (decide (p = 0)%nat) as [->|Hp0].
    + rewrite list_lookup_insert_eq by done. intros [= <-].
      by apply Hchildren.
    + rewrite list_lookup_insert_ne by done. by apply Hedges.
Qed.

Lemma smaller_child_is_child (h : list E) (pos : nat) :
  is_child pos (smaller_child lt h (length h) pos).
Proof. unfold smaller_child, is_child. repeat case_match; lia. Qed.

(** The child picked by [_siftup] is not above the other one. *)
Lemma smaller_child_le (h : list E) (pos c : nat) (x y : E) :
  is_child pos c ->
  h !! smaller_child lt h (length h) pos = Some x -> h !! c = Some y ->
  le x y.
Proof.
  intros Hc. unfold smaller_child.
  destruct (decide (2 * pos + 1 + 1 < length h)%nat) as [Hright|Hnone].
  - destruct (lookup_lt_is_Some_2 h (2 * pos + 1)) as [l Hl]; [lia|].
    destruct (lookup_lt_is_Some_2 h (2 * pos + 1 + 1)) as [r Hr]; [lia|].
    rewrite Hl, Hr. destruct (lt l r) eqn:Hcmp; intros Hx Hy.
    + assert (x = l) as -> by congruence.
      destruct Hc as [->| ->].
      * assert (y = l) as -> by congruence. apply le_refl.
      * replace (2 * pos + 2)%nat with (2 * pos + 1 + 1)%nat in Hy by lia.
        assert (y = r) as -> by congruence. by apply lt_asym.
    + assert (x = r) as -> by congruence.
      destruct Hc as [->| ->].
      * assert (y = l) as -> by congruence. exact Hcmp.
      * replace (2 * pos + 2)%nat with (2 * pos + 1 + 1)%nat in Hy by lia.
        assert (y = r) as -> by congruence. apply le_refl.
  - intros Hx Hy. apply lookup_lt_Some in Hy as Hlen.
    destruct Hc as [->| ->]; [|lia].
    assert (x = y) as -> by congruence. apply le_refl.
Qed.

(** The loop of [_siftup] moves the hole down to a leaf and keeps the
    entries around it in order. *)
Lemma _siftup_loop_ordered (h : list E) (pos : nat) :
  (pos < length h)%nat ->
  ordered_but h pos ->
  exists h1 pos1,
    _siftup_loop lt h (length h) pos = Ok (h1, pos1)
    /\ (pos1 < length h1)%nat
    /\ ordered_but h1 pos1
    /\ forall c, is_child pos1 c -> (length h1 <= c)%nat.
Proof.
  remember (length h - pos)%nat as m eqn:Hm.
  revert h pos Hm. induction (lt_wf m) as [m _ IH].
  intros h pos -> Hpos [Hedges Hhole]. simp _siftup_loop.
  destruct (decide (2 * pos + 1 < length h)%nat) as [Hlt|Hge]; simpl.
  - pose proof (smaller_child_bounds lt h (length h) pos Hlt) as Hbounds.
    pose proof (smaller_child_is_child h pos) as Hchild.
    pose proof (smaller_child_le h pos) as Hle.
    set (cp := smaller_child lt h (length h) pos) in *.
    destruct (py_index_lt h cp) as (v & Hv & ->); [lia|]. simpl.
    rewrite py_setitem_lt by done. simpl.
    destruct (IH (length h - cp)%nat ltac:(lia) (<[pos:=v]> h) cp)
      as (h1 & pos1 & Hloop & Hpos1 & Hord1 & Hleaf).
    { by rewrite length_insert. }
    { rewrite length_insert. lia. }
    { split.
      - intros p c x y Hpc Hp Hc.
        destruct (decide (c = pos)) as [->|Hcpos].
        + assert (p <> pos) as Hppos by (unfold is_child in *; lia).
          rewrite list_lookup_insert_ne by done.
          rewrite list_lookup_insert_eq by done. intros Hx [= <-].
          by eapply (Hhole p cp).
        + rewrite (list_lookup_insert_ne _ _ c) by done.
          destruct (decide (p = pos)) as [->|Hppos].
          * rewrite list_lookup_insert_eq by done. intros [= <-] Hy.
            by eapply (Hle c).
          * rewrite list_lookup_insert_ne by done. by apply Hedges.
      - intros g c x y Hg Hc.
        assert (g = pos) as -> by (unfold is_child in *; lia).
        rewrite list_lookup_insert_eq by done. intros [= <-].
        rewrite list_lookup_insert_ne by (unfold is_child in *; lia).
        intros Hy.
        eapply (Hedges cp c); [done|lia|unfold is_child in *; lia|done|done]. }
    rewrite length_insert in Hloop. rewrite Hloop.
    by exists h1, pos1.
  - exists h, pos. split; [done|]. split; [done|]. split; [done|].
    intros c Hc. unfold is_child in Hc. lia.
Qed.

Lemma _siftup_ordered (h : list E) :
  (0 < length h)%nat -> ordered_but h 0 ->
  exists h', _siftup lt h 0 = Ok h' /\ heap_ordered h'.
Proof.
  intros Hlen Hord. unfold _siftup.
  destruct (py_index_lt h 0 Hlen) as (x & Hx & ->). simpl.
  destruct (_siftup_loop_ordered h 0 Hlen Hord)
    as (h1 & pos1 & -> & Hpos1 & Hord1 & Hleaf). simpl.
  rewrite py_setitem_lt by done. simpl. unfold _siftdown.
  destruct (py_index_lt (<[pos1:=x]> h1) pos1) as (x' & Hx' & ->);
    [by rewrite length_insert|]. simpl.
  apply _siftdown_loop_ordered.
  - by rewrite length_insert.
  - by apply ordered_but_insert.
  - intros c y Hc Hy. apply lookup_lt_Some in Hy.
    rewrite length_insert in Hy. apply Hleaf in Hc. lia.
Qed.

Lemma heappush_ordered (h : list E) (entry : E) :
  heap_ordered h ->
  exists h', heappush lt h entry = Ok h' /\ heap_ordered h'.
Proof.
  intros Hord. unfold heappush, _siftdown.
  rewrite length_app. simpl.
  replace (length h + 1 - 1)%nat with (length h) by lia.
  destruct (py_index_lt (h ++ [entry]) (length h)) as (x & Hx & ->);
    [rewrite length_app; simpl; lia|]. simpl.
  apply _siftdown_loop_ordered.
  - rewrite length_app. simpl. lia.
  - split.
    + intros p c a b Hpc Hp Hc Ha Hb.
      apply lookup_lt_Some in Ha as Hpl. apply lookup_lt_Some in Hb as Hcl.
      rewrite length_app in Hpl, Hcl. simpl in Hpl, Hcl.
      rewrite lookup_app_l in Ha, Hb by lia. by eapply Hord.
    + intros g c a b Hg Hc Ha Hb. apply lookup_lt_Some in Hb.
      rewrite length_app in Hb. simpl in Hb. unfold is_child in Hc. lia.
  - intros c y Hc Hy. apply lookup_lt_Some in Hy.
    rewrite length_app in Hy. simpl in Hy. unfold is_child in Hc. lia.
Qed.

Lemma heappushpop_ordered (h : list E) (entry : E) :
  heap_ordered h ->
  exists t h', heappushpop lt h entry = Ok (t, h') /\ heap_ordered h'.
Proof.
  intros Hord. unfold heappushpop. destruct h as [|h0 h]; [by eexists _, _|].
  destruct (lt h0 entry); [|by eexists _, _].
  destruct (_siftup_ordered (<[0%nat:=entry]> (h0 :: h)))
    as (h' & -> & Hord'); [simpl; lia| |by eexists _, _].
  by apply (ordered_but_insert (h0 :: h) 0), ordered_but_of_ordered.
Qed.

(** In an ordered heap no entry is below the one at position 0. *)
Lemma root_is_least (h : list E) (root : E) :
  heap_ordered h -> h !! 0%nat = Some root ->
  forall i x, h !! i = Some x -> le root x.
Proof.
  intros Hord Hroot i. induction (lt_wf i) as [i _ IH]. intros x Hx.
  destruct (decide (0 < i)%nat) as [Hpos|Hzero].
  - pose proof (parent_is_child i Hpos) as Hpc.
    set (pp := ((i - 1) / 2)%nat) in *.
    assert (pp < i)%nat as Hpp by (unfold is_child in Hpc; lia).
    destruct (lookup_lt_is_Some_2 h pp) as [z Hz].
    { apply lookup_lt_Some in Hx. lia. }
    eapply le_trans; [by apply (IH pp)|by eapply (Hord pp i)].
  - assert (i = 0)%nat as -> by lia.
    assert (x = root) as -> by congruence. apply le_refl.
Qed.

End HeapqOrder.

Section ContentHeapOrder.
Context {Item : Type} `{Countable Item}.
Context {Val : Type} (val_lt : Val -> Val -> bool).

Hypothesis val_lt_asym :
  forall a b, val_lt a b = true -> val_lt b a = false.
Hypothesis val_le_trans :
  forall a b c, val_lt b a = false -> val_lt c b = false -> val_lt c a = false.

Abbreviation entry_lt := (__lt__ (Item:=Item) val_lt).

Lemma entry_lt_asym (a b : ComparableTuple Item Val) :
  entry_lt a b = true -> entry_lt b a = false.
Proof. apply val_lt_asym. Qed.

Lemma entry_le_trans (a b c : ComparableTuple Item Val) :
  le entry_lt a b -> le entry_lt b c -> le entry_lt a c.
Proof. apply val_le_trans. Qed.

(** The heap a [push] of a new item leaves is the one [heappush] or
    [heappushpop] returns. *)
Lemma push_heap (self self' : ContentHeap Val)
    (new_value : Val) (new_item : Item) :
  new_item ∉ items self ->
  push val_lt self new_value new_item = Ok self' ->
  let entry := {| value := new_value; item := new_item |} in
  if decide (Z.of_nat (length (heap self)) < max_size self)
  then heappush entry_lt (heap self) entry = Ok (heap self')
  else exists t, heappushpop entry_lt (heap self) entry = Ok (t, heap self').
Proof.
  intros Hfresh. unfold push. rewrite decide_False by done. simpl.
  destruct (decide (Z.of_nat (length (heap self)) < max_size self)).
  - destruct (heappush _ _ _) as [heap1|e]; simpl; [|done].
    by intros [= <-].
  - destruct (heappushpop _ _ _) as [[t heap1]|e]; simpl; [|done].
    destruct (set_remove _ _) as [items2|e]; simpl; [|done].
    intros [= <-]. by exists t.
Qed.

Lemma push_ordered (self self' : ContentHeap Val)
    (new_value : Val) (new_item : Item) :
  heap_ordered entry_lt (heap self) ->
  push val_lt self new_value new_item = Ok self' ->
  heap_ordered entry_lt (heap self').
Proof.
  intros Hord Hpush.
  destruct (decide (new_item ∈ items self)) as [Hin|Hfresh].
  { unfold push in Hpush. rewrite decide_True in Hpush by done.
    by injection Hpush as <-. }
  pose proof (push_heap self self' new_value new_item Hfresh Hpush) as Hheap.
  simpl in Hheap.
  destruct (decide (Z.of_nat (length (heap self)) < max_size self)).
  - destruct (heappush_ordered entry_lt entry_lt_asym entry_le_trans
                (heap self) {| value := new_value; item := new_item |} Hord)
      as (h' & Hh' & Hord').
    assert (h' = heap self') as <- by congruence. done.
  - destruct Hheap as [t Hheap].
    destruct (heappushpop_ordered entry_lt entry_lt_asym entry_le_trans
                (heap self) {| value := new_value; item := new_item |} Hord)
      as (t' & h' & Hh' & Hord').
    assert (h' = heap self') as <- by congruence. done.
Qed.

Lemma push_all_ordered (pushes : list (Val * Item))
    (self self' : ContentHeap Val) :
  heap_ordered entry_lt (heap self) ->
  push_all val_lt self pushes = Ok self' ->
  heap_ordered entry_lt (heap self').
Proof.
  revert self. induction pushes as [|[v i] pushes IH]; intros self Hord; simpl.
  - by intros [= <-].
  - destruct (push val_lt self v i) as [self1|e] eqn:Hpush; simpl; [|done].
    apply IH. by eapply push_ordered.
Qed.

(** For values in a strict weak order, a [ContentHeap] keeps its
    entries in heap order, so that no stored value is below the one at
    [heap[0]]; and whatever a [push] of a new item leaves out, the new
    entry or the one it displaces, is not above any entry that stays:
    the heap keeps the largest values. *)
Theorem content_heap_keeps_largest
    (capacity : Z) (pushes : list (Val * Item))
    (new_value : Val) (new_item : Item) :
  0 <= capacity ->
  exists self,
    push_all val_lt (ContentHeap_init capacity) pushes = Ok self
    /\ heap_ordered entry_lt (heap self)
    /\ (forall root, head (heap self) = Some root ->
          Forall (fun e => val_lt (value e) (value root) = false) (heap self))
    /\ (new_item ∉ stored_items self ->
        exists self',
          push val_lt self new_value new_item = Ok self'
          /\ forall dropped,
               dropped ∈ {| value := new_value; item := new_item |}
                           :: heap self ->
               dropped ∉ heap self' ->
               Forall (fun e => val_lt (value e) (value dropped) = false)
                      (heap self')).
Proof.
  intros Hcap.
  destruct (push_all_inv val_lt capacity pushes (ContentHeap_init capacity)
              Hcap) as (self & Hrun & Hinv).
  { repeat split; simpl; [lia|constructor]. }
  assert (heap_ordered entry_lt (heap self)) as Hord.
  { eapply push_all_ordered; [|exact Hrun].
    intros p c x y _ Hp. simpl in Hp. by rewrite lookup_nil in Hp. }
  assert (forall root, head (heap self) = Some root ->
            Forall (fun e => val_lt (value e) (value root) = false)
                   (heap self)) as Hroot.
  { intros root Hhead. rewrite head_lookup in Hhead.
    apply Forall_lookup. intros i e He.
    by apply (root_is_least entry_lt entry_lt_asym entry_le_trans
                (heap self) root Hord Hhead i e). }
  exists self. split; [done|]. split; [done|]. split; [done|].
  intros Hfresh.
  destruct (push_inv val_lt capacity self new_value new_item Hcap Hinv)
    as (self' & Hpush & _).
  exists self'. split; [done|].
  destruct Hinv as (_ & _ & Hnd & Hitems).
  assert (new_item ∉ items self) as Hnin.
  { rewrite Hitems. by rewrite elem_of_list_to_set. }
  pose proof (push_heap self self' new_value new_item Hnin Hpush) as Hheap.
  simpl in Hheap. set (entry := {| value := new_value; item := new_item |}) in *.
  intros dropped Hin Hout.
  destruct (decide (Z.of_nat (length (heap self)) < max_size self)).
  - destruct (heappush_perm entry_lt (heap self) entry)
      as (h' & Hh' & Hperm).
    assert (h' = heap self') as -> by congruence.
    destruct Hout. by rewrite Hperm.
  - destruct Hheap as [t Hheap]. unfold heappushpop in Hheap.
    destruct (heap self) as [|root rest] eqn:Hself.
    { injection Hheap as _ Heq. rewrite <- Heq. constructor. }
    destruct (entry_lt root entry) eqn:Hcmp.
    + destruct (HelpersFacts.heappushpop_root entry_lt root rest entry Hcmp)
        as (h' & Hpp & Hperm).
      unfold heappushpop in Hpp. rewrite Hcmp in Hpp.
      destruct (_siftup _ _ _) as [h1|e]; simpl in *; [|done].
      injection Hpp as ->. injection Hheap as _ Heq.
      rewrite <- Heq in Hout |- *.
      assert (dropped = root) as ->.
      { apply elem_of_cons in Hin as [->|Hin].
        - destruct Hout. rewrite Hperm. left.
        - apply elem_of_cons in Hin as [->|Hin]; [done|].
          destruct Hout. rewrite Hperm. by right. }
      rewrite Hperm. constructor; [by apply val_lt_asym|].
      specialize (Hroot root eq_refl).
      by apply Forall_cons in Hroot as [_ Hrest].
    + injection Hheap as _ Heq. rewrite <- Heq in Hout |- *.
      assert (dropped = entry) as ->.
      { apply elem_of_cons in Hin as [->|Hin]; [done|]. by destruct Hout. }
      specialize (Hroot root eq_refl).
      eapply Forall_impl; [exact Hroot|]. intros e He. simpl in He.
      eapply val_le_trans; [exact Hcmp|exact He].
Qed.

End ContentHeapOrder.

Lemma content_heap_keeps_largest_witness :
  exists self : ContentHeap (Item:=nat) Z,
    push_all Z.ltb (ContentHeap_init 2) [(5, 1%nat); (3, 2%nat); (4, 3%nat)]
    = Ok self
    /\ heap_ordered (__lt__ Z.ltb) (heap self)
    /\ (forall root, head (heap self) = Some root ->
          Forall (fun e => Z.ltb (value e) (value root) = false) (heap self))
    /\ (7%nat ∉ stored_items self ->
        exists self',
          push Z.ltb self 9 7%nat = Ok self'
          /\ forall dropped,
               dropped ∈ {| value := 9; item := 7%nat |} :: heap self ->
               dropped ∉ heap self' ->
               Forall (fun e => Z.ltb (value e) (value dropped) = false)
                      (heap self')).
Proof.
  apply (content_heap_keeps_largest Z.ltb); [| |lia].
  - intros a b Hab. apply Z.ltb_lt in Hab. apply Z.ltb_ge. lia.
  - intros a b c Hab Hbc. apply Z.ltb_ge in Hab, Hbc. apply Z.ltb_ge. lia.
Defined.

Example content_heap_keeps_largest_run :
  (self ← push_all Z.ltb (ContentHeap_init 3)
            [(5, 1%nat); (3, 2%nat); (4, 3%nat); (1, 4%nat);
             (8, 5%nat); (2, 6%nat); (6, 7%nat)];
   Ok (value <$> heap self))
  = Ok [5; 6; 8].
Proof. vm_compute. reflexivity. Qed.

End HeapOrder.

(** ** [data_structures.py]: overwriting a key of the [Cache] *)

Module CacheUpdate.
Import DataStructures CacheFacts.

Section CacheUpdate.
Context {K V : Type} `{EqDecision K}.

Lemma dict_set_present_length (d : dict K V) (key : K) (value : V) :
  key ∈ d.*1 -> length (dict_set d key value) = length d.
Proof.
  intros Hin. pose proof (dict_set_present d key value Hin) as Hkeys.
  apply (f_equal length) in Hkeys. by rewrite !length_fmap in Hkeys.
Qed.


End CacheUpdate.


(** An overwritten key is still the first to go. *)
Example cache_overwrite_then_evict :
  (self ← run_ops (K:=nat) (V:=nat) (__init__ (Some 2))
            [SetItem 7 70; SetItem 8 80; SetItem 7 71; SetItem 9 90]%nat;
   Ok (_cache self))
  = Ok [(8, 80); (9, 90)]%nat.
Proof. reflexivity. Qed.

End CacheUpdate.

(** ** Sampling in a phase served by [_forward_deterministic] *)

Module DeterministicSampling.
Import Torch FewPhasePolicy FewPhaseFacts.

Section DeterministicSampling.
Context {R : Type} `{Float R}.
Context {State ActionSpace Action SharedEmbeddings Rng : Type}.
Context (get_action_at_idx : ActionSpace -> nat -> result Action).
Context (draw : Rng -> list R -> nat * Rng).
Context (get_possible_actions_indices : ActionSpace -> list Z).

(** [exp(-inf)] is [0] and [exp(0)] is not. *)
Hypothesis exp_neg_inf : f_exp f_neg_inf = f_zero.
Hypothesis exp_zero : f_exp f_zero <> f_zero.
(** [Categorical(probs).sample()] never returns an index of probability
    [0] from a row that has a non-zero entry. *)
Hypothesis draw_support :
  forall rng row,
    (exists p, p ∈ row /\ p <> f_zero) ->
    exists p, row !! (draw rng row).1 = Some p /\ p <> f_zero.

Lemma categorical_sample_determined
    (rows : list (list R)) (indices : list nat) :
  Forall2 (fun row k => forall rng, (draw rng row).1 = k) rows indices ->
  forall rng, exists rng', categorical_sample draw rng rows = (indices, rng').
Proof.
  induction 1 as [|row k rows indices Hk _ IH]; intros rng; simpl.
  - by eexists.
  - specialize (Hk rng). destruct (draw rng row) as [idx rng1]. simpl in Hk.
    subst idx. destruct (IH rng1) as [rng2 ->]. by eexists.
Qed.

(** The first possible index of an action space, as a position. *)
Definition first_position (a : ActionSpace) : nat :=
  Z.to_nat (default 0 (head (get_possible_actions_indices a))).

(** Every state of the phase has a first possible index that is not
    negative and at which its action space holds an action. *)
Definition first_actions_available
    (phase_indices : list nat) (action_spaces : list ActionSpace) : Prop :=
  forall idx a,
    idx ∈ phase_indices -> action_spaces !! idx = Some a ->
    exists first rest,
      get_possible_actions_indices a = first :: rest
      /\ 0 <= first
      /\ is_Ok (get_action_at_idx a (Z.to_nat first)).

(** Sampling in a phase served by [_forward_deterministic] is not
    random: every state of the phase gets the action at the first
    possible index of its action space, whatever the generator draws. *)
Theorem deterministic_phase_sample
    (phase_indices : list nat) (states : list State)
    (action_spaces : list ActionSpace)
    (shared_embeddings : SharedEmbeddings) (rng : Rng) :
  phase_indices <> [] ->
  (forall idx, idx ∈ phase_indices ->
     (idx < length states)%nat /\ (idx < length action_spaces)%nat) ->
  first_actions_available phase_indices action_spaces ->
  exists actions rng',
    sample_phase get_action_at_idx draw
      (_forward_deterministic get_possible_actions_indices)
      phase_indices states action_spaces shared_embeddings rng
    = Ok (actions, rng')
    /\ length actions = length phase_indices
    /\ forall j idx a,
         phase_indices !! j = Some idx -> action_spaces !! idx = Some a ->
         exists action,
           actions !! j = Some action
           /\ get_action_at_idx a (first_position a) = Ok action.
Proof.
  intros Hne Hlt Havail. unfold sample_phase.
  destruct (mapM_py_index states phase_indices) as (pst & -> & _ & _);
    [intros idx Hidx; by apply Hlt|]. simpl.
  destruct (mapM_py_index action_spaces phase_indices)
    as (pas & -> & Hpaslen & Hpas); [intros idx Hidx; by apply Hlt|]. simpl.
  assert (forall j a,
            pas !! j = Some a ->
            exists idx first rest,
              phase_indices !! j = Some idx
              /\ action_spaces !! idx = Some a
              /\ get_possible_actions_indices a = first :: rest
              /\ 0 <= first
              /\ is_Ok (get_action_at_idx a (Z.to_nat first))) as Hphase.
  { intros j a Ha.
    destruct (lookup_lt_is_Some_2 phase_indices j) as [idx Hidx].
    { rewrite <- Hpaslen. by eapply lookup_lt_Some. }
    rewrite (Hpas j idx Hidx) in Ha.
    destruct (Havail idx a) as (f & rest & Hg & Hf & Hact);
      [by eapply list_elem_of_lookup_2|done|].
    by exists idx, f, rest. }
  assert (pas <> []) as Hpasne.
  { intros ->. destruct phase_indices; [done|discriminate]. }
  destruct (forward_deterministic_entries get_possible_actions_indices
              pst pas shared_embeddings Hpasne)
    as (lp & m & -> & Hs0 & Hs1 & Hflat & _ & Hentries).
  { intros a (j & Hj)%list_elem_of_lookup_1.
    destruct (Hphase j a Hj) as (idx & f & rest & _ & _ & Hg & Hf & _).
    by exists f, rest. }
  simpl. unfold _sample_actions_from_log_probs.
  destruct (categorical_sample_determined
              (tensor2_rows (tensor2_exp lp)) (first_position <$> pas))
    with (rng := rng) as [rng' ->].
  { apply Forall2_same_length_lookup_2.
    { unfold tensor2_rows. rewrite !length_fmap, length_seq. simpl. lia. }
    intros j row k Hrow Hk rng0.
    rewrite list_lookup_fmap in Hk.
    destruct (pas !! j) as [a|] eqn:Ha; [|done]. injection Hk as <-.
    destruct (Hphase j a Ha) as (idx & f & rest & _ & _ & Hg & Hf & _).
    assert (head (get_possible_actions_indices a) = Some f) as Hhead
      by (by rewrite Hg).
    assert (first_position a = Z.to_nat f) as Hfirst
      by (unfold first_position; by rewrite Hhead).
    assert (j < shape0 (tensor2_exp lp))%nat as Hj.
    { simpl. rewrite Hs0. by eapply lookup_lt_Some. }
    assert (forall c p, row !! c = Some p ->
              p = f_exp (if decide (Z.of_nat c = f)
                         then f_zero else f_neg_inf)) as Hentry.
    { intros c p Hp.
      assert (c < S m)%nat as Hc.
      { unfold tensor2_rows in Hrow.
        rewrite list_lookup_fmap, lookup_seq_lt in Hrow by done.
        simpl in Hrow. injection Hrow as <-.
        apply lookup_take_Some in Hp as [_ Hc]. by rewrite Hs1 in Hc. }
      destruct (tensor2_rows_lookup (tensor2_exp lp) j c Hj)
        as (row' & Hrow' & Hrc); [simpl; by rewrite Hs1|].
      assert (row' = row) as -> by congruence.
      rewrite Hp in Hrc. simpl in Hrc. rewrite Hs1 in Hrc.
      rewrite list_lookup_fmap in Hrc.
      destruct (Hentries j a f c Ha Hhead Hc) as [_ Hlook].
      rewrite Hlook in Hrc. simpl in Hrc. congruence. }
    destruct (Hentries j a f 0%nat Ha Hhead) as [Hrange _]; [lia|].
    destruct (tensor2_rows_lookup (tensor2_exp lp) j (Z.to_nat f) Hj)
      as (row' & Hrow' & Hrc); [simpl; rewrite Hs1; lia|].
    assert (row' = row) as -> by congruence.
    simpl in Hrc. rewrite Hs1, list_lookup_fmap in Hrc.
    destruct (Hentries j a f (Z.to_nat f) Ha Hhead) as [_ Hlook]; [lia|].
    rewrite Hlook in Hrc. simpl in Hrc.
    rewrite decide_True in Hrc by lia.
    destruct (draw_support rng0 row) as (p & Hp & Hnz).
    { exists (f_exp f_zero). split; [by eapply list_elem_of_lookup_2|done]. }
    rewrite Hfirst.
    destruct (decide (Z.of_nat (draw rng0 row).1 = f)) as [Heq|Hneq]; [lia|].
    apply Hentry in Hp. rewrite decide_False in Hp by done.
    rewrite exp_neg_inf in Hp. done. }
  destruct (mapM_exists (fun p : ActionSpace * nat => get_action_at_idx p.1 p.2)
              (zip pas (first_position <$> pas)))
    as (actions & -> & Halen & Hactions).
  { intros j [a k] Hj. simpl.
    apply lookup_zip_with_Some in Hj as (a' & k' & [= <- <-] & Ha & Hk).
    rewrite list_lookup_fmap, Ha in Hk. injection Hk as <-.
    destruct (Hphase j a Ha) as (idx & f & rest & _ & _ & Hg & _ & Hact).
    unfold first_position. by rewrite Hg. }
  simpl. exists actions, rng'. split; [done|].
  rewrite length_zip_with, length_fmap, Nat.min_id in Halen.
  split; [lia|]. intros j idx a Hidx Ha.
  rewrite <- (Hpas j idx Hidx) in Ha.
  destruct (Hactions j (a, first_position a)) as (action & Haction & Hget).
  { apply lookup_zip_with_Some. exists a, (first_position a).
    split; [done|]. split; [done|]. by rewrite list_lookup_fmap, Ha. }
  by exists action.
Qed.

End DeterministicSampling.

(** *** A generator that respects the support, on [xnum] *)

Definition is_zero (x : xnum) : bool :=
  match x with
  | Fin 0 => true
  | _ => false
  end.

(** The position of the first entry that is not [0]. *)
Fixpoint first_nonzero (row : list xnum) : nat :=
  match row with
  | [] => 0
  | p :: row' => if is_zero p then S (first_nonzero row') else 0
  end.

Definition support_draw (rng : nat) (row : list xnum) : nat * nat :=
  (first_nonzero row, S rng).

Definition action_at_index (action_space : list Z) (idx : nat) : result Z :=
  Ok (Z.of_nat idx).

Lemma is_zero_spec (x : xnum) : is_zero x = true <-> x = Fin 0.
Proof.
  destruct x as [|[|p|p]| |]; simpl; split; intros Heq;
    (reflexivity || discriminate).
Qed.

Lemma support_draw_support (rng : nat) (row : list xnum) :
  (exists p, p ∈ row /\ p <> Fin 0) ->
  exists p, row !! (support_draw rng row).1 = Some p /\ p <> Fin 0.
Proof.
  intros (p & Hin & Hnz). simpl.
  induction row as [|q row IH]; [by apply elem_of_nil in Hin|].
  simpl. destruct (is_zero q) eqn:Hq.
  - apply is_zero_spec in Hq as ->.
    apply elem_of_cons in Hin as [->|Hin]; [done|]. simpl. by apply IH.
  - exists q. split; [done|]. intros ->. simpl in Hq. discriminate.
Qed.

(** The hypotheses of [deterministic_phase_sample] hold of the phase
    made of positions 0 and 2 of a batch of three. *)
Lemma deterministic_phase_sample_witness :
  exists actions rng',
    sample_phase (R:=xnum) (State:=nat) (SharedEmbeddings:=unit)
      action_at_index support_draw (_forward_deterministic listed_indices)
      [0; 2]%nat [10; 11; 12]%nat [[2; 0]; [5]; [1]] tt 0%nat
    = Ok (actions, rng')
    /\ length actions = length [0; 2]%nat
    /\ forall j idx a,
         [0; 2]%nat !! j = Some idx -> [[2; 0]; [5]; [1]] !! idx = Some a ->
         exists action,
           actions !! j = Some action
           /\ action_at_index a (first_position listed_indices a) = Ok action.
Proof.
  apply (deterministic_phase_sample (R:=xnum) action_at_index support_draw
           listed_indices).
  - reflexivity.
  - intros Heq. vm_compute in Heq. discriminate Heq.
  - apply support_draw_support.
  - done.
  - intros idx Hidx. apply elem_of_cons in Hidx as [->|Hidx];
      [simpl; lia|].
    apply elem_of_cons in Hidx as [->|Hidx]; [simpl; lia|].
    by apply elem_of_nil in Hidx.
  - intros idx a Hidx Ha. apply elem_of_cons in Hidx as [->|Hidx].
    + injection Ha as <-. exists 2, [0].
      split; [reflexivity|]. split; [lia|by eexists].
    + apply elem_of_cons in Hidx as [->|Hidx]; [|by apply elem_of_nil in Hidx].
      injection Ha as <-. exists 1, [].
      split; [reflexivity|]. split; [lia|by eexists].
Defined.

Example deterministic_phase_sample_run :
  sample_phase (R:=xnum) (State:=nat) (SharedEmbeddings:=unit)
    action_at_index support_draw (_forward_deterministic listed_indices)
    [0; 2]%nat [10; 11; 12]%nat [[2; 0]; [5]; [1]] tt 0%nat
  = Ok ([2; 1], 2%nat).
Proof. reflexivity. Qed.

End DeterministicSampling.
